(** * blazert: binned SAH split search, slab test, watertight triangle
      intersector and scene facade.

    A shallow embedding of
      - blazert/blazert.h       (TriangleMesh, TriangleSAHPred, TriangleIntersector),
      - blazert/scene.h         (BlazertScene, intersect1),
      - blazert/bvh/binbuffer.h (Bin, BinBuffer, sort_collection_into_bins,
                                 find_best_split_binned),
      - blazert/bvh/intersect.h (intersect_node, intersect_leaf).

    The code is generic in its scalar type [T]; the embedding is generic in a
    [Scalar] interface that lists the operations the code applies to [T], and
    it is instantiated twice: at binary64 (the kernel's primitive floats, that
    is [T = double]) and at the rationals (exact arithmetic).

    An access [v[i]] to a [std::vector] outside its bounds has no defined
    behaviour in the source; the embedding returns [None] there. *)

From Stdlib Require Import ZArith NArith QArith Qabs Qround Floats.
From stdpp Require Import base option list.

(** ** The scalar type [T] *)

Class Scalar (T : Type) : Type := {
  s_add : T -> T -> T;
  s_sub : T -> T -> T;
  s_mul : T -> T -> T;
  s_div : T -> T -> T;
  s_opp : T -> T;
  s_abs : T -> T;
  (** [operator<], [operator<=] and [operator==] *)
  s_ltb : T -> T -> bool;
  s_leb : T -> T -> bool;
  s_eqb : T -> T -> bool;
  (** [static_cast<T>(n)] of an unsigned integer (counts and literals) *)
  s_of_N : N -> T;
  (** conversion of a scalar to [unsigned int] (truncation) *)
  s_to_N : T -> N;
  (** [std::numeric_limits<T>::max()] and [::epsilon()] *)
  s_max : T;
  s_epsilon : T;
  (** [static_cast<T>(double(a) * double(b) - double(c) * double(d))]: the
      double precision fall-back of the edge functions *)
  s_wide_cross : T -> T -> T -> T -> T;
}.

Declare Scope scalar_scope.
Delimit Scope scalar_scope with sc.
Notation "x + y" := (s_add x y) : scalar_scope.
Notation "x - y" := (s_sub x y) : scalar_scope.
Notation "x * y" := (s_mul x y) : scalar_scope.
Notation "x / y" := (s_div x y) : scalar_scope.
Notation "- x" := (s_opp x) : scalar_scope.
Notation "x <? y" := (s_ltb x y) : scalar_scope.
Notation "x >? y" := (s_ltb y x) (only parsing) : scalar_scope.
Notation "x <=? y" := (s_leb x y) : scalar_scope.
Notation "x >=? y" := (s_leb y x) (only parsing) : scalar_scope.
Notation "x =? y" := (s_eqb x y) : scalar_scope.

(** a literal or an unsigned count converted to [T]: [static_cast<T>(3.0)] is
    [lit 3] *)
Definition lit `{Scalar T} (n : N) : T := s_of_N n.

(** [std::max(a, b)] is [(a < b) ? b : a] and [std::min(a, b)] is
    [(b < a) ? b : a]. *)
Definition std_max `{Scalar T} (a b : T) : T := if (a <? b)%sc then b else a.
Definition std_min `{Scalar T} (a b : T) : T := if (b <? a)%sc then b else a.

(** binary64, [T = double].  The conversion of a double to an unsigned integer
    truncates; the source leaves the conversion of a negative, infinite or NaN
    value undefined, and the instance returns 0 there.  The conversion of an
    unsigned integer to a double rounds to nearest and is exact below 2^53
    (the instance goes through the 63-bit integers).  For [T = double] the
    casts of the fall-back to [double] are the identity. *)
Definition float_to_N (x : float) : N :=
  match Prim2SF x with
  | S754_finite false m e => Z.to_N (Z.shiftl (Z.pos m) e)
  | _ => 0%N
  end.

#[export] Instance Scalar_double : Scalar float := {|
  s_add := PrimFloat.add;
  s_sub := PrimFloat.sub;
  s_mul := PrimFloat.mul;
  s_div := PrimFloat.div;
  s_opp := PrimFloat.opp;
  s_abs := PrimFloat.abs;
  s_ltb := PrimFloat.ltb;
  s_leb := PrimFloat.leb;
  s_eqb := PrimFloat.eqb;
  s_of_N := fun n => PrimFloat.of_uint63 (Uint63.of_Z (Z.of_N n));
  s_to_N := float_to_N;
  s_max := 0x1.fffffffffffffp+1023%float;
  s_epsilon := 0x1p-52%float;
  s_wide_cross := fun a b c d => PrimFloat.sub (PrimFloat.mul a b) (PrimFloat.mul c d);
|}.

(** exact rational arithmetic, results kept in lowest terms so that equal
    numbers are equal terms; the two limits are those of binary64 *)
Definition Qltb (a b : Q) : bool := negb (Qle_bool b a).

#[export] Instance Scalar_Q : Scalar Q := {|
  s_add := fun a b => Qred (a + b);
  s_sub := fun a b => Qred (a - b);
  s_mul := fun a b => Qred (a * b);
  s_div := fun a b => Qred (a / b);
  s_opp := fun a => Qred (- a);
  s_abs := fun a => Qred (Qabs a);
  s_ltb := Qltb;
  s_leb := Qle_bool;
  s_eqb := Qeq_bool;
  s_of_N := fun n => inject_Z (Z.of_N n);
  s_to_N := fun x => Z.to_N (Qfloor x);
  s_max := inject_Z (2 ^ 1024 - 2 ^ 971);
  s_epsilon := Qred (1 / inject_Z (2 ^ 52));
  s_wide_cross := fun a b c d => Qred (a * b - c * d);
|}.

(** ** Vectors of three components ([Vec3r<T>], [Vec3i], [Vec3ui]) *)

Record Vec3 (A : Type) : Type := mkVec3 { vx : A; vy : A; vz : A }.
Arguments mkVec3 {A} _ _ _.
Arguments vx {A} _.
Arguments vy {A} _.
Arguments vz {A} _.

(** [v[i]] for [i] in 0..2 *)
Definition vget {A} (v : Vec3 A) (i : nat) : A :=
  match i with
  | 0 => vx v
  | 1 => vy v
  | _ => vz v
  end.

Definition vmap {A B} (f : A -> B) (v : Vec3 A) : Vec3 B :=
  mkVec3 (f (vx v)) (f (vy v)) (f (vz v)).

Definition vzip {A B C} (f : A -> B -> C) (u : Vec3 A) (v : Vec3 B) : Vec3 C :=
  mkVec3 (f (vx u) (vx v)) (f (vy u) (vy v)) (f (vz u) (vz v)).

(** a vector with every element equal to one scalar: [Vec3r<T> v(a)] and the
    assignment [v = a] *)
Definition vconst {A} (a : A) : Vec3 A := mkVec3 a a a.

(** element [i] of a [std::vector], [None] outside its bounds *)
Definition at_ {A} (l : list A) (i : N) : option A := l !! N.to_nat i.

Section Vectors.
Context {T : Type} `{Scalar T}.

Definition vsub (u v : Vec3 T) : Vec3 T := vzip s_sub u v.
Definition vabs (v : Vec3 T) : Vec3 T := vmap s_abs v.

(** [argmax] of the vector library the code is written against (an external
    library): the index of the largest component, the first one when several
    are largest. *)
Definition argmax (v : Vec3 T) : nat :=
  let i := if (vget v 0 <? vget v 1)%sc then 1 else 0 in
  if (vget v i <? vget v 2)%sc then 2 else i.
End Vectors.

(** ** blazert.h *)

(** [BVHTraceOptions] is declared in bvh/options.h, which the sources do not
    include; the record has the three fields the code reads. *)
Record BVHTraceOptions : Type := mkTraceOptions {
  prim_ids_range : N * N;
  skip_prim_id : N;
  cull_back_face : bool;
}.

(** [Ray<T>] is declared in ray.h, which the sources do not include; the
    record has the fields the code reads ([org] and [dir] are called [origin]
    and [direction] by bvh/intersect.h). *)
Record Ray (T : Type) : Type := mkRay {
  org : Vec3 T;
  dir : Vec3 T;
  min_t : T;
  max_t : T;
  any_hit : bool;
  direction_inv : Vec3 T;
  direction_sign : Vec3 bool;
}.
Arguments mkRay {T} _ _ _ _ _ _ _.
Arguments org {T} _.
Arguments dir {T} _.
Arguments min_t {T} _.
Arguments max_t {T} _.
Arguments any_hit {T} _.
Arguments direction_inv {T} _.
Arguments direction_sign {T} _.

Module TriangleSAHPred.
Section WithScalar.
Context {T : Type} `{Scalar T}.

Record t : Type := mk {
  axis_ : nat;
  pos_ : T;
  vertices_ : list (Vec3 T);
  faces_ : list (Vec3 N);
}.

(** [TriangleSAHPred(vertices, faces)] *)
Definition make (vertices : list (Vec3 T)) (faces : list (Vec3 N)) : t :=
  mk 0 (lit 0) vertices faces.

(** [void Set(unsigned int axis, T pos) const] *)
Definition Set_ (axis : nat) (pos : T) (p : t) : t :=
  mk axis pos (vertices_ p) (faces_ p).

(** [bool operator()(unsigned int prim_id) const] *)
Definition call (p : t) (prim_id : N) : option bool :=
  face ← at_ (faces_ p) prim_id;
  p0 ← at_ (vertices_ p) (vget face 0);
  p1 ← at_ (vertices_ p) (vget face 0);
  p2 ← at_ (vertices_ p) (vget face 0);
  let center := (vget p0 (axis_ p) + vget p1 (axis_ p) + vget p2 (axis_ p))%sc in
  Some (center <? pos_ p * lit 3)%sc.

(** The partition predicate as the specification words it: the arithmetic
    mean of the three vertices of the triangle, along the axis, is strictly
    less than the cut position. *)
Definition centroid (vertices : list (Vec3 T)) (faces : list (Vec3 N))
    (prim_id : N) : option (Vec3 T) :=
  face ← at_ faces prim_id;
  p0 ← at_ vertices (vget face 0);
  p1 ← at_ vertices (vget face 1);
  p2 ← at_ vertices (vget face 2);
  Some (vzip (fun a b => (a / b)%sc)
             (vzip s_add (vzip s_add p0 p1) p2) (vconst (lit 3))).

Definition spec_centroid_pred (p : t) (prim_id : N) : option bool :=
  c ← centroid (vertices_ p) (faces_ p) prim_id;
  Some (vget c (axis_ p) <? pos_ p)%sc.
End WithScalar.
Arguments t _ : clear implicits.
End TriangleSAHPred.

(** [TriangleIntersection<T>], the hit record [H] of the intersector *)
Record TriangleIntersection (T : Type) : Type := mkTriangleIntersection {
  isect_uv : T * T;
  isect_t : T;
  isect_prim_id : N;
}.
Arguments mkTriangleIntersection {T} _ _ _.
Arguments isect_uv {T} _.
Arguments isect_t {T} _.
Arguments isect_prim_id {T} _.

Module TriangleIntersector.
Section WithScalar.
Context {T : Type} `{Scalar T}.

Record RayCoeff : Type := mkRayCoeff { S : Vec3 T; k : Vec3 nat }.

(** The members of the class; the [mutable] ones are the state that the
    [const] member functions update. *)
Record t : Type := mk {
  vertices_ : list (Vec3 T);
  faces_ : list (Vec3 N);
  ray_org_ : Vec3 T;
  ray_coeff_ : RayCoeff;
  trace_options_ : BVHTraceOptions;
  t_min_ : T;
  t_ : T;
  uv_ : T * T;
  prim_id_ : N;
}.

Definition GetT (I : t) : T := t_ I.

Definition Update (t' : T) (prim_id : N) (I : t) : t :=
  mk (vertices_ I) (faces_ I) (ray_org_ I) (ray_coeff_ I) (trace_options_ I)
     (t_min_ I) t' (uv_ I) prim_id.

Definition set_uv (uv : T * T) (I : t) : t :=
  mk (vertices_ I) (faces_ I) (ray_org_ I) (ray_coeff_ I) (trace_options_ I)
     (t_min_ I) (t_ I) uv (prim_id_ I).

Definition PostTraversal (I : t) (hit : bool)
    (intersection : TriangleIntersection T) : TriangleIntersection T :=
  if hit then mkTriangleIntersection (uv_ I) (t_ I) (prim_id_ I)
  else intersection.

Definition PrepareTraversal (ray : Ray T) (trace_options : BVHTraceOptions)
    (I : t) : t :=
  let ray_dir_abs := vabs (dir ray) in
  let k2 := argmax ray_dir_abs in
  let '(k0, k1) :=
    if (vget (dir ray) k2 >=? lit 0)%sc
    then (k2 + 1, k2 + 1 + 1)
    else (k2 + 1 + 1, k2 + 1) in
  let k0 := k0 mod 3 in
  let k1 := k1 mod 3 in
  let k2 := k2 mod 3 in
  let S0 := (vget (dir ray) k0 / vget (dir ray) k2)%sc in
  let S1 := (vget (dir ray) k1 / vget (dir ray) k2)%sc in
  let S2 := (lit 1 / vget (dir ray) k2)%sc in
  mk (vertices_ I) (faces_ I) (org ray)
     (mkRayCoeff (mkVec3 S0 S1 S2) (mkVec3 k0 k1 k2))
     trace_options (min_t ray) (t_ I) (lit 0, lit 0) (prim_id_ I).

(** The three edge functions of the sheared triangle [A], [B], [C], with the
    double precision fall-back when one of them is zero. *)
Definition edge_functions (c : RayCoeff) (A B C : Vec3 T) : T * T * T :=
  let k0 := vx (k c) in
  let k1 := vy (k c) in
  let k2 := vz (k c) in
  let Ax := (vget A k0 - vx (S c) * vget A k2)%sc in
  let Ay := (vget A k1 - vy (S c) * vget A k2)%sc in
  let Bx := (vget B k0 - vx (S c) * vget B k2)%sc in
  let By := (vget B k1 - vy (S c) * vget B k2)%sc in
  let Cx := (vget C k0 - vx (S c) * vget C k2)%sc in
  let Cy := (vget C k1 - vy (S c) * vget C k2)%sc in
  let U := (Cx * By - Cy * Bx)%sc in
  let V := (Ax * Cy - Ay * Cx)%sc in
  let W := (Bx * Ay - By * Ax)%sc in
  if (U =? lit 0)%sc || (V =? lit 0)%sc || (W =? lit 0)%sc
  then (s_wide_cross Cx By Cy Bx, s_wide_cross Ax Cy Ay Cx,
        s_wide_cross Bx Ay By Ax)
  else (U, V, W).

(** The inside test: [true] when the candidate is rejected. *)
Definition inside_rejects (cull : bool) (U V W : T) : bool :=
  if (U <? lit 0)%sc || (V <? lit 0)%sc || (W <? lit 0)%sc
  then cull || ((U >? lit 0)%sc || (V >? lit 0)%sc || (W >? lit 0)%sc)
  else false.

(** [bool Intersect(T *t_inout, const unsigned int prim_index) const]: the
    result, the value left in [*t_inout] and the intersector afterwards. *)
Definition Intersect (I : t) (t_inout : T) (prim_index : N)
    : option (bool * T * t) :=
  if (prim_index <? fst (prim_ids_range (trace_options_ I)))%N
     || (snd (prim_ids_range (trace_options_ I)) <=? prim_index)%N
  then Some (false, t_inout, I)
  else if (prim_index =? skip_prim_id (trace_options_ I))%N
  then Some (false, t_inout, I)
  else
    face ← at_ (faces_ I) prim_index;
    p0 ← at_ (vertices_ I) (vget face 0);
    p1 ← at_ (vertices_ I) (vget face 1);
    p2 ← at_ (vertices_ I) (vget face 2);
    let A := vsub p0 (ray_org_ I) in
    let B := vsub p1 (ray_org_ I) in
    let C := vsub p2 (ray_org_ I) in
    let '(U, V, W) := edge_functions (ray_coeff_ I) A B C in
    if inside_rejects (cull_back_face (trace_options_ I)) U V W
    then Some (false, t_inout, I)
    else
      let det := (U + V + W)%sc in
      if (det =? lit 0)%sc then Some (false, t_inout, I)
      else
        let k2 := vz (k (ray_coeff_ I)) in
        let Az := (vz (S (ray_coeff_ I)) * vget A k2)%sc in
        let Bz := (vz (S (ray_coeff_ I)) * vget B k2)%sc in
        let Cz := (vz (S (ray_coeff_ I)) * vget C k2)%sc in
        let D := (U * Az + V * Bz + W * Cz)%sc in
        let rcpDet := (lit 1 / det)%sc in
        let tt := (D * rcpDet)%sc in
        if (tt >? t_inout)%sc then Some (false, t_inout, I)
        else if (tt <? t_min_ I)%sc then Some (false, t_inout, I)
        else Some (true, tt, set_uv ((V * rcpDet)%sc, (W * rcpDet)%sc) I).

(** The parts of [Intersect], named for the statements about it: the two
    pre-checks, the vertices relative to the origin of the ray, the distance
    of the candidate and the tests on it. *)
Definition admitted (o : BVHTraceOptions) (prim_index : N) : bool :=
  negb ((prim_index <? fst (prim_ids_range o))%N
        || (snd (prim_ids_range o) <=? prim_index)%N)
  && negb (prim_index =? skip_prim_id o)%N.

Definition relative_vertices (I : t) (prim_index : N)
    : option (Vec3 T * Vec3 T * Vec3 T) :=
  face ← at_ (faces_ I) prim_index;
  p0 ← at_ (vertices_ I) (vget face 0);
  p1 ← at_ (vertices_ I) (vget face 1);
  p2 ← at_ (vertices_ I) (vget face 2);
  Some (vsub p0 (ray_org_ I), vsub p1 (ray_org_ I), vsub p2 (ray_org_ I)).

Definition rcp_det (U V W : T) : T := (lit 1 / (U + V + W))%sc.

Definition candidate_t (c : RayCoeff) (A B C : Vec3 T) (U V W : T) : T :=
  let k2 := vz (k c) in
  ((U * (vz (S c) * vget A k2) + V * (vz (S c) * vget B k2)
    + W * (vz (S c) * vget C k2)) * rcp_det U V W)%sc.

Definition depth_test (I : t) (t_inout : T) (A B C : Vec3 T) (U V W : T)
    : bool * T * t :=
  if (U + V + W =? lit 0)%sc then (false, t_inout, I)
  else
    let tt := candidate_t (ray_coeff_ I) A B C U V W in
    if (tt >? t_inout)%sc then (false, t_inout, I)
    else if (tt <? t_min_ I)%sc then (false, t_inout, I)
    else (true, tt,
          set_uv ((V * rcp_det U V W)%sc, (W * rcp_det U V W)%sc) I).

(** What a reported hit went through, with its distance and its
    barycentrics. *)
Definition is_hit (I : t) (t_inout : T) (prim_index : N) (t' : T) (I' : t)
    (A B C : Vec3 T) (U V W : T) : Prop :=
  admitted (trace_options_ I) prim_index = true
  /\ relative_vertices I prim_index = Some (A, B, C)
  /\ edge_functions (ray_coeff_ I) A B C = (U, V, W)
  /\ inside_rejects (cull_back_face (trace_options_ I)) U V W = false
  /\ (U + V + W =? lit 0)%sc = false
  /\ t' = candidate_t (ray_coeff_ I) A B C U V W
  /\ (t' >? t_inout)%sc = false
  /\ (t' <? t_min_ I)%sc = false
  /\ I' = set_uv ((V * rcp_det U V W)%sc, (W * rcp_det U V W)%sc) I.

(** Two intersectors that agree on the mesh, the ray and the options *)
Definition same_query (I J : t) : Prop :=
  vertices_ J = vertices_ I /\ faces_ J = faces_ I
  /\ ray_org_ J = ray_org_ I /\ ray_coeff_ J = ray_coeff_ I
  /\ trace_options_ J = trace_options_ I /\ t_min_ J = t_min_ I.

End WithScalar.
Arguments t _ : clear implicits.
Arguments RayCoeff _ : clear implicits.
End TriangleIntersector.

(** ** bvh/intersect.h *)

(** The node type is declared in bvh/node.h, which the sources do not include;
    the record has the fields the two functions read. *)
Record Node (T P : Type) : Type := mkNode {
  node_min : Vec3 T;
  node_max : Vec3 T;
  primitives : list P;
}.
Arguments mkNode {T P} _ _ _.
Arguments node_min {T P} _.
Arguments node_max {T P} _.
Arguments primitives {T P} _.

Section Intersect.
Context {T : Type} `{Scalar T}.

(** [constexpr T l1 = 1 + 4 * epsilon] *)
Definition l1 : T := (lit 1 + lit 4 * s_epsilon)%sc.

(** the per-axis entry distance and padded exit distance *)
Definition entry_distance {P} (node : Node T P) (ray : Ray T) (i : nat) : T :=
  let min_ := if vget (direction_sign ray) i
              then vget (node_max node) i else vget (node_min node) i in
  ((min_ - vget (org ray) i) * vget (direction_inv ray) i)%sc.

Definition exit_distance {P} (node : Node T P) (ray : Ray T) (i : nat) : T :=
  let max_ := if vget (direction_sign ray) i
              then vget (node_min node) i else vget (node_max node) i in
  ((max_ - vget (org ray) i) * vget (direction_inv ray) i * l1)%sc.

(** one turn of the loop over the axes, on the two inout parameters *)
Definition intersect_node_axis {P} (node : Node T P) (ray : Ray T)
    (d : T * T) (i : nat) : T * T :=
  let min_ := entry_distance node ray i in
  let max_ := exit_distance node ray i in
  (std_max min_ (fst d), std_min max_ (snd d)).

(** [bool intersect_node(T &min_distance, T &max_distance, node, ray)]: the
    result and the values left in the two inout parameters. *)
Definition intersect_node {P} (min_distance max_distance : T)
    (node : Node T P) (ray : Ray T) : bool * T * T :=
  let d := foldl (intersect_node_axis node ray)
                 (min_distance, max_distance) [0; 1; 2] in
  ((fst d <=? snd d)%sc, fst d, snd d).

(** [bool intersect_leaf(node, intersector, ray)], generic in the intersector
    and in [intersect_primitive], which updates the intersector: the result
    and the intersector afterwards.  [hit] is the value of the local variable
    when the loop reaches the rest of the primitives. *)
Fixpoint intersect_leaf_loop {I P : Type}
    (intersect_primitive : I -> P -> Ray T -> option (bool * I))
    (prims : list P) (intersector : I) (ray : Ray T) (hit : bool)
    : option (bool * I) :=
  match prims with
  | [] => Some (hit, intersector)
  | primitive :: rest =>
      '(h, intersector') ← intersect_primitive intersector primitive ray;
      let hit := hit || h in
      if hit && any_hit ray then Some (hit, intersector')
      else intersect_leaf_loop intersect_primitive rest intersector' ray hit
  end.

Definition intersect_leaf {I P : Type}
    (intersect_primitive : I -> P -> Ray T -> option (bool * I))
    (node : Node T P) (intersector : I) (ray : Ray T) : option (bool * I) :=
  intersect_leaf_loop intersect_primitive (primitives node) intersector ray false.

(** Modelled from the spec: [intersect_primitive] for the triangle intersector
    is not part of the sources.  Section 4.7 of the specification: run the
    class-specific intersector against the current best distance; when it
    reports a hit, record the hit and tighten the best distance. *)
Definition intersect_primitive_triangle (I : TriangleIntersector.t T)
    (prim_index : N) (ray : Ray T) : option (bool * TriangleIntersector.t T) :=
  '(h, t', I') ← TriangleIntersector.Intersect I (TriangleIntersector.GetT I) prim_index;
  if (h : bool) then Some (true, TriangleIntersector.Update t' prim_index I')
  else Some (false, I').

End Intersect.

(** ** scene.h *)

(** unsigned 32-bit arithmetic *)
Definition u32 (n : Z) : N := Z.to_N (n mod 2 ^ 32).

(** [RayHit<T>] is declared in ray.h, which the sources do not include; the
    record has the field the scene reads and the identifiers of the hit. *)
Record RayHit (T : Type) : Type := mkRayHit {
  hit_distance : T;
  hit_uv : T * T;
  hit_prim_id : N;
  hit_geom_id : N;
}.
Arguments mkRayHit {T} _ _ _ _.
Arguments hit_distance {T} _.
Arguments hit_uv {T} _.
Arguments hit_prim_id {T} _.
Arguments hit_geom_id {T} _.

(** the data the scene borrows: a triangle mesh and a set of spheres *)
Record TriangleMesh (T : Type) : Type := mkTriangleMesh {
  vertices : list (Vec3 T);
  faces : list (Vec3 N);
}.
Arguments mkTriangleMesh {T} _ _.
Arguments vertices {T} _.
Arguments faces {T} _.

Record Sphere (T : Type) : Type := mkSphere {
  centers : list (Vec3 T);
  radii : list T;
}.
Arguments mkSphere {T} _ _.
Arguments centers {T} _.
Arguments radii {T} _.

(** What scene.h uses and the sources do not include: the BVH type with its
    [build] member and the [traverse] function (bvh/accel.h), the build
    options (bvh/options.h), the sphere predicate and intersector
    (primitives/sphere.h) and the default constructed [RayHit] (ray.h).
    [build] updates the BVH it is called on; [traverse] is given the hit
    record it writes to and returns it with its result. *)
Class Accel (T : Type) : Type := {
  BVH : Type;
  BVHBuildOptions : Type;
  build_triangles :
    TriangleMesh T -> TriangleSAHPred.t T -> BVHBuildOptions -> BVH -> BVH;
  build_spheres : Sphere T -> Sphere T -> BVHBuildOptions -> BVH -> BVH;
  traverse_triangles :
    BVH -> Ray T -> TriangleMesh T -> RayHit T -> BVHTraceOptions -> bool * RayHit T;
  traverse_spheres :
    BVH -> Ray T -> Sphere T -> RayHit T -> BVHTraceOptions -> bool * RayHit T;
  RayHit_default : RayHit T;
}.

Module BlazertScene.
Section WithScalar.
Context {T : Type} `{Scalar T} `{Accel T}.

Record t : Type := mk {
  build_options : BVHBuildOptions;
  trace_options : BVHTraceOptions;
  has_been_committed : bool;
  geometries : N;
  triangles : TriangleMesh T;
  triangles_sah : TriangleSAHPred.t T;
  triangles_bvh : BVH;
  has_triangles : bool;
  spheres : Sphere T;
  spheres_sah : Sphere T;
  spheres_bvh : BVH;
  has_spheres : bool;
}.

(** [BlazertScene() = default], over the default constructed options and
    BVHs *)
Definition empty (bo : BVHBuildOptions) (to : BVHTraceOptions) (bvh0 : BVH) : t :=
  mk bo to false 0 (mkTriangleMesh [] []) (TriangleSAHPred.make [] []) bvh0 false
     (mkSphere [] []) (mkSphere [] []) bvh0 false.

Definition set_triangles_bvh (b : BVH) (s : t) : t :=
  mk (build_options s) (trace_options s) (has_been_committed s) (geometries s)
     (triangles s) (triangles_sah s) b (has_triangles s)
     (spheres s) (spheres_sah s) (spheres_bvh s) (has_spheres s).

Definition set_spheres_bvh (b : BVH) (s : t) : t :=
  mk (build_options s) (trace_options s) (has_been_committed s) (geometries s)
     (triangles s) (triangles_sah s) (triangles_bvh s) (has_triangles s)
     (spheres s) (spheres_sah s) b (has_spheres s).

Definition set_has_been_committed (c : bool) (s : t) : t :=
  mk (build_options s) (trace_options s) c (geometries s)
     (triangles s) (triangles_sah s) (triangles_bvh s) (has_triangles s)
     (spheres s) (spheres_sah s) (spheres_bvh s) (has_spheres s).

(** [bool commit()]: the result and the scene afterwards *)
Definition commit (s : t) : bool * t :=
  let s :=
    if has_triangles s
    then set_triangles_bvh
           (build_triangles (triangles s) (triangles_sah s) (build_options s)
                            (triangles_bvh s)) s
    else s in
  let s :=
    if has_spheres s
    then set_spheres_bvh
           (build_spheres (spheres s) (spheres_sah s) (build_options s)
                          (spheres_bvh s)) s
    else s in
  let s := set_has_been_committed true s in
  (has_been_committed s, s).

(** [unsigned int add_mesh(vertices, faces)]: the result and the scene
    afterwards; [-1] is [2^32 - 1]. *)
Definition add_mesh (vs : list (Vec3 T)) (fs : list (Vec3 N)) (s : t) : N * t :=
  if negb (has_triangles s) && negb (has_been_committed s)
  then (geometries s,
        mk (build_options s) (trace_options s) (has_been_committed s)
           (u32 (Z.of_N (geometries s) + 1))
           (mkTriangleMesh vs fs) (TriangleSAHPred.make vs fs)
           (triangles_bvh s) true
           (spheres s) (spheres_sah s) (spheres_bvh s) (has_spheres s))
  else (u32 (-1), s).

Definition add_spheres (cs : list (Vec3 T)) (rs : list T) (s : t) : N * t :=
  if negb (has_spheres s) && negb (has_been_committed s)
  then (geometries s,
        mk (build_options s) (trace_options s) (has_been_committed s)
           (u32 (Z.of_N (geometries s) + 1))
           (triangles s) (triangles_sah s) (triangles_bvh s) (has_triangles s)
           (mkSphere cs rs) (mkSphere cs rs) (spheres_bvh s) true)
  else (u32 (-1), s).

(** [bool intersect1(scene, ray, rayhit)]: the result and the value left in
    [rayhit]. *)
Definition intersect1 (scene : t) (ray : Ray T) (rayhit : RayHit T)
    : bool * RayHit T :=
  let temp_rayhit := RayHit_default in
  let hit := false in
  let '(hit, rayhit, temp_rayhit) :=
    if has_triangles scene then
      let '(hit_mesh, temp_rayhit) :=
        traverse_triangles (triangles_bvh scene) ray (triangles scene)
                           temp_rayhit (trace_options scene) in
      if hit_mesh then (hit || hit_mesh, temp_rayhit, temp_rayhit)
      else (hit, rayhit, temp_rayhit)
    else (hit, rayhit, temp_rayhit) in
  if has_spheres scene then
    let '(hit_sphere, temp_rayhit) :=
      traverse_spheres (spheres_bvh scene) ray (spheres scene)
                       temp_rayhit (trace_options scene) in
    if hit_sphere then
      if (hit_distance temp_rayhit <? hit_distance rayhit)%sc
      then (hit || hit_sphere, temp_rayhit)
      else (hit, rayhit)
    else (hit, rayhit)
  else (hit, rayhit).

End WithScalar.
Arguments t _ {_}.
End BlazertScene.

(** ** bvh/binbuffer.h *)

(** [size_t] arithmetic *)
Definition u64 (n : Z) : N := Z.to_N (n mod 2 ^ 64).

(** a loop whose body may leave the bounds of a vector *)
Fixpoint foldl_opt {A B : Type} (f : A -> B -> option A) (a : A) (l : list B)
    : option A :=
  match l with
  | [] => Some a
  | b :: l => a' ← f a b; foldl_opt f a' l
  end.

(** [std::vector]: [clear], [resize] and a write through [v[i]] *)
Definition vector_clear {A} (v : list A) : list A := [].
Definition vector_resize {A} (n : N) (d : A) (v : list A) : list A :=
  resize (N.to_nat n) d v.
Definition update_at {A} (v : list A) (i : N) (f : A -> A) : option (list A) :=
  x ← at_ v i; Some (<[N.to_nat i := f x]> v).

Section BinBuffer.
Context {T : Type} `{Scalar T}.

Definition calculate_box_surface (min max : Vec3 T) : T :=
  let box := vabs (vsub max min) in
  (lit 2 * (vget box 0 * vget box 1 + vget box 1 * vget box 2
            + vget box 2 * vget box 0))%sc.

Record Bin : Type := mkBin {
  bin_min : Vec3 T;
  bin_max : Vec3 T;
  count : N;
  cost : T;
}.

(** [Bin()] *)
Definition Bin_default : Bin :=
  mkBin (vconst s_max) (vconst (- s_max)%sc) 0 (lit 0).

Definition set_cost (c : T) (b : Bin) : Bin :=
  mkBin (bin_min b) (bin_max b) (count b) c.

Record BinBuffer : Type := mkBinBuffer {
  bin : list Bin;
  size : N;
}.

(** [explicit BinBuffer(const unsigned int size)] *)
Definition BinBuffer_new (size : N) : BinBuffer :=
  mkBinBuffer (vector_resize (u32 (3 * Z.of_N size)) Bin_default []) size.

(** [void clear()] *)
Definition clear (b : BinBuffer) : BinBuffer :=
  mkBinBuffer
    (vector_resize (u32 (3 * Z.of_N (size b))) Bin_default (vector_clear (bin b)))
    (size b).

(** Modelled from the spec: [unity], the union of two boxes, is not part of
    the sources.  Section 4.2 of the specification: append the primitive's box
    into the bin by unioning [{min, max}] (componentwise minimum and
    maximum). *)
Definition unity (b : Bin) (bmin bmax : Vec3 T) : Bin :=
  mkBin (vzip std_min (bin_min b) bmin) (vzip std_max (bin_max b) bmax)
        (count b) (cost b).

(** the view of a primitive collection that the binning reads *)
Class Collection (C : Type) : Type := {
  get_primitive_bounding_box : C -> N -> option (Vec3 T * Vec3 T);
  get_primitive_center : C -> N -> option (Vec3 T);
}.

(** [inv_size[i] = (size[i] > 0) ? 1. / size[i] : 0] *)
Definition inv_size_of (size : Vec3 T) : Vec3 T :=
  vmap (fun s => if (s >? lit 0)%sc then (lit 1 / s)%sc else lit 0) size.

(** the body of the loop over the axes, for one primitive *)
Definition sort_axis (inv_size : Vec3 T) (normalized_center : Vec3 N)
    (bmin bmax : Vec3 T) (bins : BinBuffer) (j : nat) : option BinBuffer :=
  if (vget inv_size j >? lit 0)%sc then
    let idx := N.min (u32 (Z.of_N (size bins) - 1))
                     (N.max 0 (vget normalized_center j)) in
    bin' ← update_at (bin bins) (u32 (Z.of_nat j * Z.of_N (size bins) + Z.of_N idx))
              (fun b => unity (mkBin (bin_min b) (bin_max b)
                                     (u32 (Z.of_N (count b) + 1)) (cost b))
                              bmin bmax);
    Some (mkBinBuffer bin' (size bins))
  else Some bins.

(** the body of the loop over the primitives *)
Definition sort_primitive `{Collection C} (p : C) (min inv_size : Vec3 T)
    (bins : BinBuffer) (it : N) : option BinBuffer :=
  '(bmin, bmax) ← get_primitive_bounding_box p it;
  center ← get_primitive_center p it;
  let normalized_center :=
    vmap s_to_N
      (vmap (fun x => (x * lit (u32 (Z.of_N (size bins) - 1)))%sc)
            (vzip s_mul (vsub center min) inv_size)) in
  foldl_opt (sort_axis inv_size normalized_center bmin bmax) bins [0; 1; 2].

(** [sort_collection_into_bins(p, begin, end, min, max, options)]; the range
    [begin, end) is the list of the primitive indices it holds. *)
Definition sort_collection_into_bins `{Collection C} (p : C) (range : list N)
    (min max : Vec3 T) (bin_size : N) : option BinBuffer :=
  let bins := BinBuffer_new bin_size in
  let size := vsub max min in
  let inv_size := inv_size_of size in
  foldl_opt (sort_primitive p min inv_size) bins range.

(** The accumulators of a sweep: the count and the box. *)
Record Sweep : Type := mkSweep {
  sw_count : N;
  sw_bmin : Vec3 T;
  sw_bmax : Vec3 T;
}.

Definition Sweep_init : Sweep :=
  mkSweep 0 (vconst s_max) (vconst (- s_max)%sc).

(** [Vec3r<T> v{a}]: the list-initialisation of the vector type (the
    initializer-list constructor of the vector library the code is written
    against, an external library) sets the first element to [a] and
    value-initialises the two others, to zero. *)
Definition vlist1 (a : T) : Vec3 T := mkVec3 a (lit 0) (lit 0).

(** the accumulators as the first sweep declares them:
    [size_t count = 0; Vec3r<T> bmin_{max}; Vec3r<T> bmax_{-max};] *)
Definition Sweep_list_init : Sweep :=
  mkSweep 0 (vlist1 s_max) (vlist1 (- s_max)%sc).

Definition sweep_add (s : Sweep) (b : Bin) : Sweep :=
  mkSweep (u64 (Z.of_N (sw_count s) + Z.of_N (count b)))
          (vzip std_min (bin_min b) (sw_bmin s))
          (vzip std_max (bin_max b) (sw_bmax s)).

Definition sweep_cost (s : Sweep) : T :=
  (lit (sw_count s) * calculate_box_surface (sw_bmin s) (sw_bmax s))%sc.

(** index [j * bins.size + i] *)
Definition bin_at (size : N) (j : nat) (i : N) : N :=
  u64 (Z.of_N (u32 (Z.of_nat j * Z.of_N size)) + Z.of_N i).

(** the body of the sweep to the left, which writes [bin.cost] *)
Definition sweep_left_step (size : N) (j : nat) (st : Sweep * list Bin) (i : N)
    : option (Sweep * list Bin) :=
  b ← at_ (snd st) (bin_at size j i);
  let s := sweep_add (fst st) b in
  Some (s, <[N.to_nat (bin_at size j i) := set_cost (sweep_cost s) b]> (snd st)).

(** the body of the sweep to the right; the state is the accumulators,
    [min_cost[j]] and [minBin] *)
Definition sweep_right_step (size : N) (j : nat) (bins : list Bin)
    (st : Sweep * T * N) (i : N) : option (Sweep * T * N) :=
  let '(s, min_cost, minBin) := st in
  b ← at_ bins (bin_at size j i);
  next_bin ← at_ bins (u64 (Z.of_N (bin_at size j i) + 1));
  let s := sweep_add s b in
  let cost := (sweep_cost s + cost next_bin)%sc in
  if (cost <? min_cost)%sc then Some (s, cost, u64 (Z.of_N i + 1))
  else Some (s, min_cost, minBin).

(** the values of [i] in [for (i = bins.size - 1; i > 0; --i)] and in
    [for (i = 0; i < bins.size - 1; i++)], for [bins.size > 0] *)
Definition left_indices (size : N) : list N :=
  rev (N.of_nat <$> seq 1 (N.to_nat size - 1)).
Definition right_indices (size : N) : list N :=
  N.of_nat <$> seq 0 (N.to_nat size - 1).

(** the body of the loop over the axes: the bins afterwards, [min_cost[j]]
    and [cut_pos[j]].  The first sweep starts from the accumulators as they
    are declared, list-initialised; the second from the accumulators as they
    are assigned, [bmin_ = max; bmax_ = -max], every element set.  With
    [bins.size = 0] the first sweep starts at [i = 2^32 - 1], outside the
    vector. *)
Definition split_axis (size : N) (min max : Vec3 T) (bins : list Bin) (j : nat)
    : option (list Bin * T * T) :=
  if (size =? 0)%N then None else
  '(_, bins) ← foldl_opt (sweep_left_step size j) (Sweep_list_init, bins)
                 (left_indices size);
  '(_, min_cost, minBin) ←
     foldl_opt (sweep_right_step size j bins) (Sweep_init, s_max, 1%N)
       (right_indices size);
  let cut_pos :=
    (lit minBin * ((vget max j - vget min j) / lit size) + vget min j)%sc in
  Some (bins, min_cost, cut_pos).

(** the choice of the axis *)
Definition min_cost_axis_of (min_cost : Vec3 T) : nat :=
  let min_cost_axis := 0 in
  let min_cost_axis :=
    if (vget min_cost 0 >? vget min_cost 1)%sc then 1 else min_cost_axis in
  if (vget min_cost min_cost_axis >? vget min_cost 2)%sc then 2 else min_cost_axis.

(** the part of [find_best_split_binned] after the binning *)
Definition find_best_split (bins : BinBuffer) (min max : Vec3 T)
    : option (nat * Vec3 T) :=
  '(b0, mc0, cp0) ← split_axis (size bins) min max (bin bins) 0;
  '(b1, mc1, cp1) ← split_axis (size bins) min max b0 1;
  '(b2, mc2, cp2) ← split_axis (size bins) min max b1 2;
  Some (min_cost_axis_of (mkVec3 mc0 mc1 mc2), mkVec3 cp0 cp1 cp2).

(** [find_best_split_binned(collection, begin, end, min, max, options)] *)
Definition find_best_split_binned `{Collection C} (collection : C)
    (range : list N) (min max : Vec3 T) (bin_size : N)
    : option (nat * Vec3 T) :=
  bins ← sort_collection_into_bins collection range min max bin_size;
  find_best_split bins min max.

(** The cost of a split in the words of the specification.  The bins of axis
    [j] are the [size] bins from index [j * size]; the split at position [i]
    has the bins before [i] on its left and the bins from [i] on its right,
    each side the accumulated count and the union of the boxes of its bins,
    from the empty box, and its cost is [left_count * SA(left_aabb)] plus the
    right-of-split cost, [accumulated_count * SA(accumulated_aabb)]. *)
Definition axis_bins (bins : list Bin) (size : N) (j : nat) : list Bin :=
  take (N.to_nat size) (drop (j * N.to_nat size) bins).

Definition left_sweep (l : list Bin) (i : nat) : Sweep :=
  foldl sweep_add Sweep_init (take i l).

Definition right_sweep (l : list Bin) (i : nat) : Sweep :=
  foldr (fun b s => sweep_add s b) Sweep_init (drop i l).

Definition split_cost (l : list Bin) (i : nat) : T :=
  (sweep_cost (left_sweep l i) + sweep_cost (right_sweep l i))%sc.

(** The cost of a split as the code computes it: the right-hand side is
    accumulated by the first sweep, from the list-initialised accumulators. *)
Definition list_sweep (l : list Bin) (i : nat) : Sweep :=
  foldr (fun b s => sweep_add s b) Sweep_list_init (drop i l).

Definition code_cost (l : list Bin) (i : nat) : T :=
  (sweep_cost (left_sweep l i) + sweep_cost (list_sweep l i))%sc.

(** a cost as [min_cost[j]] holds it: [min_cost[j]] starts at the largest
    scalar and only takes costs strictly below it *)
Definition capped (c : T) : T := if (c <? s_max)%sc then c else s_max.

(** what the sweeps read of a bin, apart from the cost they write *)
Definition geo (b : Bin) : Vec3 T * Vec3 T * N := (bin_min b, bin_max b, count b).

(** the search of the sweep to the right over the costs of the positions
    [is]: the state is [min_cost[j]] and [minBin] *)
Definition scan_step (l : list Bin) (st : T * N) (i : nat) : T * N :=
  if (code_cost l i <? fst st)%sc then (code_cost l i, N.of_nat i) else st.

End BinBuffer.
Arguments Bin _ : clear implicits.
Arguments BinBuffer _ : clear implicits.
Arguments Sweep _ : clear implicits.
Arguments Collection _ _ : clear implicits.

(** ** Laws of the order of [T]

    [operator<] is irreflexive and transitive, and a scalar that is not below
    [numeric_limits<T>::max()] is not below a scalar that is not above it.
    The laws are proved below for the rationals and for binary64, NaN and the
    infinities included. *)
Class ScalarOrder (T : Type) `{Scalar T} : Prop := {
  ltb_irrefl : forall x : T, (x <? x)%sc = false;
  ltb_trans : forall x y z : T,
    (x <? y)%sc = true -> (y <? z)%sc = true -> (x <? z)%sc = true;
  ltb_max_pivot : forall x y : T,
    (x <? s_max)%sc = false -> (s_max <? y)%sc = false -> (x <? y)%sc = false;
}.

(** A scalar that the order compares with zero: every rational, and every
    double that is not NaN. *)
Definition ordered `{Scalar T} (x : T) : Prop :=
  (x <=? lit 0)%sc = negb (lit 0 <? x)%sc.

(** ** Data of the scenarios *)

(** a collection given by the boxes of its primitives, the centre of a
    primitive being the centre of its box *)
#[export] Instance Collection_boxes {T : Type} `{Scalar T}
    : Collection T (list (Vec3 T * Vec3 T)) := {|
  get_primitive_bounding_box := fun p i => at_ p i;
  get_primitive_center := fun p i =>
    '(bmin, bmax) ← at_ p i;
    Some (vmap (fun x => (x / lit 2)%sc) (vzip s_add bmin bmax));
|}.

Module Scenario.

(** one triangle over the vertices 0, 1, 2, and two coincident ones *)
Definition faces1 : list (Vec3 N) := [mkVec3 0 1 2]%N.
Definition faces2 : list (Vec3 N) := [mkVec3 0 1 2; mkVec3 0 1 2]%N.

(** trace options that admit every primitive, and options whose window holds
    primitive 0 only *)
Definition options (cull : bool) : BVHTraceOptions :=
  mkTraceOptions (0, 2147483647)%N 4294967295%N cull.
Definition options_first_only : BVHTraceOptions :=
  mkTraceOptions (0, 1)%N 4294967295%N false.

Local Open Scope Q_scope.

(** the triangle of scenarios S1 and S2 and the ray of scenario S1, from
    (1/4, 1/4, 0) along +z within [0, 10], over the rationals *)
Definition vertices_q : list (Vec3 Q) :=
  [mkVec3 0 0 1; mkVec3 1 0 1; mkVec3 0 1 1].
Definition ray_S1_q : Ray Q :=
  mkRay (mkVec3 (1 # 4) (1 # 4) 0) (mkVec3 0 0 1) 0 10 false
        (mkVec3 0 0 1) (mkVec3 false false false).

Local Close Scope Q_scope.
Local Open Scope float_scope.

(** the same in binary64, and the ray of scenario S2, from (1/4, 1/4, 2)
    along -z *)
Definition vertices_d : list (Vec3 float) :=
  [mkVec3 0 0 1; mkVec3 1 0 1; mkVec3 0 1 1].
Definition ray_S1_d : Ray float :=
  mkRay (mkVec3 0.25 0.25 0) (mkVec3 0 0 1) 0 10 false
        (mkVec3 infinity infinity 1) (mkVec3 false false false).
Definition ray_S2_d : Ray float :=
  mkRay (mkVec3 0.25 0.25 2) (mkVec3 0 0 (-1)) 0 10 false
        (mkVec3 neg_infinity neg_infinity (-1)) (mkVec3 false false true).

(** an intersector over the mesh as its constructor leaves it (the members
    that the constructor does not set are given), and the intersector when
    the traversal of a ray starts: prepared for the ray, with the best
    distance at [max_t] and no primitive recorded *)
Definition intersector_d (fs : list (Vec3 N)) : TriangleIntersector.t float :=
  TriangleIntersector.mk vertices_d fs (vconst 0)
    (TriangleIntersector.mkRayCoeff (vconst 0) (vconst 0%nat))
    (options false) 0 0 (0, 0) 0%N.
Definition prepared (ray : Ray float) (fs : list (Vec3 N))
    (o : BVHTraceOptions) : TriangleIntersector.t float :=
  TriangleIntersector.Update (max_t ray) (u32 (-1))
    (TriangleIntersector.PrepareTraversal ray o (intersector_d fs)).
Definition prepared_d (fs : list (Vec3 N)) (o : BVHTraceOptions)
    : TriangleIntersector.t float :=
  prepared ray_S1_d fs o.

(** a leaf with the two coincident triangles, in the order of their indices *)
Definition leaf_01 : Node float N := mkNode (vconst 0) (vconst 1) [0; 1]%N.

(** a triangle whose second and third vertex lie away from the first *)
Definition skewed_pred : TriangleSAHPred.t float :=
  TriangleSAHPred.make [mkVec3 0 0 0; mkVec3 3 0 0; mkVec3 3 0 0] faces1.

(** a diagonal ray and two boxes: the ray misses [node_A] and crosses
    [node_B] *)
Definition ray_diag : Ray float :=
  mkRay (vconst 0) (vconst 1) 0 10 false (vconst 1) (vconst false).
Definition node_B : Node float N :=
  mkNode (vconst 1) (vconst 2) [].

(** An instance of the parts of the repository that scene.h uses and the
    sources do not include: a BVH is the number of times it was built, the
    triangle traversal reports no hit, and the sphere traversal reports the
    closest hit of scenario S4 (the sphere of centre (0, 0, 5) and radius 1,
    met at distance 4 by the ray from the origin along +z). *)
Definition Accel_S4 : Accel float := {|
  BVH := nat;
  BVHBuildOptions := unit;
  build_triangles := fun _ _ _ n => Datatypes.S n;
  build_spheres := fun _ _ _ n => Datatypes.S n;
  traverse_triangles := fun _ _ _ temp _ => (false, temp);
  traverse_spheres := fun _ _ _ temp _ =>
    (true, mkRayHit 4 (hit_uv temp) 0%N 0%N);
  RayHit_default := mkRayHit s_max (0, 0) (u32 (-1)) (u32 (-1));
|}.

(** the scene of scenario S4, committed, and a hit record that an earlier
    query left with distance 1 *)
Definition scene_S4 : BlazertScene.t float (H0 := Accel_S4) :=
  snd (BlazertScene.commit
         (snd (BlazertScene.add_spheres [mkVec3 0 0 5] [1]
                 (BlazertScene.empty (H0 := Accel_S4) tt (options false) 0%nat)))).
Definition ray_S4 : Ray float :=
  mkRay (vconst 0) (mkVec3 0 0 1) 0 100 false
        (mkVec3 infinity infinity 1) (vconst false).
Definition stale_rayhit : RayHit float :=
  mkRayHit 1 (0.25, 0.25) 0%N 0%N.

(** a scene with one triangle mesh, not committed *)
Definition scene_mesh : BlazertScene.t float (H0 := Accel_S4) :=
  snd (BlazertScene.add_mesh vertices_d faces1
         (BlazertScene.empty (H0 := Accel_S4) tt (options false) 0%nat)).

(** a bin buffer of two bins per axis after some binning *)
Definition used_bin : Bin float :=
  mkBin (vconst 0) (vconst 1) 7%N 3.
Definition used_buffer : BinBuffer float :=
  mkBinBuffer (replicate 6 used_bin) 2%N.

(** four unit boxes in a row along the first axis, inside the box from
    (0,0,0) to (4,1,1), and their binning with four bins per axis *)
Definition boxes_d : list (Vec3 float * Vec3 float) :=
  [(mkVec3 0 0 0, mkVec3 1 1 1); (mkVec3 1 0 0, mkVec3 2 1 1);
   (mkVec3 2 0 0, mkVec3 3 1 1); (mkVec3 3 0 0, mkVec3 4 1 1)].
Definition binned_d : BinBuffer float :=
  default (BinBuffer_new 0)
    (sort_collection_into_bins boxes_d [0; 1; 2; 3]%N
       (mkVec3 0 0 0) (mkVec3 4 1 1) 4%N).

Local Close Scope float_scope.

End Scenario.

(** * Further definitions *)

(** ** Numbers among the scalars

    A scalar is a number when it equals itself ([x == x], which fails for NaN
    only).  Through a number the order is negatively transitive, and between
    two numbers [<=] is the negation of [>]. *)
Definition num `{Scalar T} (x : T) : Prop := (x =? x)%sc = true.

Class ScalarTotal (T : Type) `{Scalar T} : Prop := {
  num_negtrans : forall x y z : T,
    num y -> (x <? y)%sc = false -> (y <? z)%sc = false -> (x <? z)%sc = false;
  num_leb : forall x y : T,
    num x -> num y -> (x <=? y)%sc = negb (y <? x)%sc;
}.

(** ** The life of a scene: the calls that change it *)
Module SceneOps.
Section WithScalar.
Context {T : Type} `{Scalar T} `{Accel T}.

Inductive op : Type :=
  | AddMesh (vertices : list (Vec3 T)) (faces : list (Vec3 N))
  | AddSpheres (centers : list (Vec3 T)) (radii : list T)
  | Commit.

(** one call: the geometry id that an [add_] returns, if the call is one, and
    the scene afterwards *)
Definition step (s : BlazertScene.t T) (o : op) : option N * BlazertScene.t T :=
  match o with
  | AddMesh vs fs =>
      let r := BlazertScene.add_mesh vs fs s in (Some (fst r), snd r)
  | AddSpheres cs rs =>
      let r := BlazertScene.add_spheres cs rs s in (Some (fst r), snd r)
  | Commit => (None, snd (BlazertScene.commit s))
  end.

(** a sequence of calls: the geometry ids returned, in order, and the scene
    afterwards *)
Fixpoint run (s : BlazertScene.t T) (ops : list op) : list N * BlazertScene.t T :=
  match ops with
  | [] => ([], s)
  | o :: ops =>
      let '(r, s') := step s o in
      let '(ids, s'') := run s' ops in
      (match r with Some id => id :: ids | None => ids end, s'')
  end.

(** the ids of the calls that registered a geometry: [-1] reports a refusal *)
Definition registered (ids : list N) : list N :=
  filter (fun id => id <> u32 (-1)) ids.

End WithScalar.
Arguments op _ : clear implicits.
End SceneOps.

(** ** Candidates of a query *)

(** primitive [p] is a candidate at distance [d] for the query that the
    intersector [I] is prepared for: some best distance makes [Intersect]
    report it at [d] *)
Definition hittable {T : Type} `{Scalar T} (I : TriangleIntersector.t T) (p : N)
    (d : T) : Prop :=
  exists (t0 : T) (I' : TriangleIntersector.t T),
    TriangleIntersector.Intersect I t0 p = Some (true, d, I').

(** the counter of geometries counts the registered classes *)
Definition well_counted {T : Type} `{Scalar T} `{Accel T}
    (s : BlazertScene.t T) : Prop :=
  BlazertScene.geometries s
  = (N.b2n (BlazertScene.has_triangles s) + N.b2n (BlazertScene.has_spheres s))%N.

(** ** The box of a triangle (blazert.h) *)

Section TriangleMeshOps.
Context {T : Type} `{Scalar T}.

(** [blaze::min] and [blaze::max] on scalars, of the vector library the code
    is written against (an external library): [(a < b) ? a : b] and
    [(a < b) ? b : a]. *)
Definition blaze_min (a b : T) : T := if (a <? b)%sc then a else b.
Definition blaze_max (a b : T) : T := if (a <? b)%sc then b else a.

(** [unsigned int TriangleMesh::size() const] *)
Definition TriangleMesh_size (m : TriangleMesh T) : N :=
  u32 (Z.of_nat (length (faces m))).

(** [void TriangleMesh::BoundingBox(bmin, bmax, prim_index) const]: the two
    out parameters; [None] when a subscript is out of bounds. *)
Definition BoundingBox (m : TriangleMesh T) (prim_index : N)
    : option (Vec3 T * Vec3 T) :=
  face ← at_ (faces m) prim_index;
  vertex ← at_ (vertices m) (vget face 0);
  foldl_opt
    (fun (b : Vec3 T * Vec3 T) (i : nat) =>
       vertex ← at_ (vertices m) (vget face i);
       Some (vzip blaze_min (fst b) vertex, vzip blaze_max (snd b) vertex))
    (vertex, vertex) [1; 2]%nat.

End TriangleMeshOps.

(** the number of primitives the bins of axis [j] hold *)
Definition axis_count {T : Type} `{Scalar T} (bins : list (Bin T)) (size : N)
    (j : nat) : nat :=
  sum_list ((fun b => N.to_nat (count b)) <$> axis_bins bins size j).

(** ** Further data *)
Module Examples.

(** the ray of scenario S1 in any-hit mode *)
Definition ray_S1_any : Ray float :=
  mkRay (org Scenario.ray_S1_d) (dir Scenario.ray_S1_d)
        (min_t Scenario.ray_S1_d) (max_t Scenario.ray_S1_d) true
        (direction_inv Scenario.ray_S1_d) (direction_sign Scenario.ray_S1_d).

(** the mesh of scenario S1 *)
Definition mesh_d : TriangleMesh float :=
  mkTriangleMesh Scenario.vertices_d Scenario.faces1.

(** the intersector of scenario S1 when the traversal starts, and after it
    has recorded the hit of primitive [p] *)
Definition start_d (fs : list (Vec3 N)) : TriangleIntersector.t float :=
  Scenario.prepared_d fs (Scenario.options false).
Definition recorded_d (fs : list (Vec3 N)) (p : N) : TriangleIntersector.t float :=
  TriangleIntersector.Update 1%float p
    (TriangleIntersector.set_uv (0.25%float, 0.25%float) (start_d fs)).

(** Five boxes in a row along the first axis, away from zero on the two
    other axes, inside the box from (0,64,64) to (4,65,65), and their binning
    with four bins per axis. *)
Definition boxes_high : list (Vec3 float * Vec3 float) :=
  [(mkVec3 0 64 64, mkVec3 1 65 65); (mkVec3 1 64 64, mkVec3 2 65 65);
   (mkVec3 2 64 64, mkVec3 3 65 65); (mkVec3 3 64 64, mkVec3 4 65 65);
   (mkVec3 0 64 64, mkVec3 1 65 65)]%float.
Definition binned_high : BinBuffer float :=
  default (BinBuffer_new 0)
    (sort_collection_into_bins boxes_high [0; 1; 2; 3; 4]%N
       (mkVec3 0 64 64)%float (mkVec3 4 65 65)%float 4%N).

(** A triangle with two far vertices (2^600 is a double), and the intersector
    over it when the traversal of the ray of scenario S4 (from the origin
    along +z) starts, with the options that admit every primitive and do not
    cull. *)
Definition vertices_huge : list (Vec3 float) :=
  [mkVec3 (-1) 0 1; mkVec3 0x1p600 (-0x1p600) 1;
   mkVec3 (-0x1p600) 0x1p600 1]%float.
Definition start_huge : TriangleIntersector.t float :=
  TriangleIntersector.Update (max_t Scenario.ray_S4) (u32 (-1))
    (TriangleIntersector.PrepareTraversal Scenario.ray_S4
       (Scenario.options false)
       (TriangleIntersector.mk vertices_huge Scenario.faces1 (vconst 0%float)
          (TriangleIntersector.mkRayCoeff (vconst 0%float) (vconst 0%nat))
          (Scenario.options false) 0%float 0%float (0%float, 0%float) 0%N)).

(** calls on the committed scene of scenario S4 *)
Definition late_calls : list (SceneOps.op float) :=
  [SceneOps.AddMesh Scenario.vertices_d Scenario.faces1;
   SceneOps.AddSpheres [mkVec3 0 0 7]%float [1%float];
   SceneOps.Commit].

End Examples.

(** * Properties *)

(** ** The partition predicate (blazert.h) *)

Section SAHPredFacts.
Context {T : Type} `{Scalar T}.

(** The predicate reads the first vertex of the face three times: its result
    is a function of that vertex alone. *)
Lemma call_first_vertex (p : TriangleSAHPred.t T) (prim_id : N) :
  TriangleSAHPred.call p prim_id =
  (face ← at_ (TriangleSAHPred.faces_ p) prim_id;
   p0 ← at_ (TriangleSAHPred.vertices_ p) (vget face 0);
   let a := vget p0 (TriangleSAHPred.axis_ p) in
   Some (a + a + a <? TriangleSAHPred.pos_ p * lit 3)%sc).
Proof.
  unfold TriangleSAHPred.call.
  destruct (at_ (TriangleSAHPred.faces_ p) prim_id) as [face|]; [|reflexivity].
  simpl.
  destruct (at_ (TriangleSAHPred.vertices_ p) _); reflexivity.
Qed.

End SAHPredFacts.

(** C2, evaluated on the code: for the triangle with vertices (0,0,0),
    (3,0,0), (3,0,0) and the cut at position 1 along axis 0, the predicate of
    the code answers true (it sums the first vertex three times: 0 < 3),
    whereas the centroid of the triangle along the axis is 2, which is not
    less than 1. *)
Theorem TriangleSAHPred_call_ignores_two_vertices :
  TriangleSAHPred.call
    (TriangleSAHPred.Set_ 0 1%float Scenario.skewed_pred) 0 = Some true
  /\ TriangleSAHPred.spec_centroid_pred
       (TriangleSAHPred.Set_ 0 1%float Scenario.skewed_pred) 0 = Some false.
Proof. split; vm_compute; reflexivity. Qed.

(** ** The scene (scene.h) *)

Section SceneFacts.
Context {T : Type} `{Scalar T} `{Accel T}.

Lemma commit_result (s : BlazertScene.t T) :
  fst (BlazertScene.commit s) = true.
Proof. reflexivity. Qed.

Lemma commit_triangles_bvh (s : BlazertScene.t T) :
  BlazertScene.triangles_bvh (snd (BlazertScene.commit s)) =
  if BlazertScene.has_triangles s
  then build_triangles (BlazertScene.triangles s) (BlazertScene.triangles_sah s)
         (BlazertScene.build_options s) (BlazertScene.triangles_bvh s)
  else BlazertScene.triangles_bvh s.
Proof.
  unfold BlazertScene.commit.
  destruct (BlazertScene.has_triangles s) eqn:Ht; simpl;
    destruct (BlazertScene.has_spheres s); reflexivity.
Qed.

Lemma commit_spheres_bvh (s : BlazertScene.t T) :
  BlazertScene.spheres_bvh (snd (BlazertScene.commit s)) =
  if BlazertScene.has_spheres s
  then build_spheres (BlazertScene.spheres s) (BlazertScene.spheres_sah s)
         (BlazertScene.build_options s) (BlazertScene.spheres_bvh s)
  else BlazertScene.spheres_bvh s.
Proof.
  unfold BlazertScene.commit.
  destruct (BlazertScene.has_triangles s) eqn:Ht; simpl;
    destruct (BlazertScene.has_spheres s); reflexivity.
Qed.

(** [commit] changes the two BVHs and the flag only. *)
Lemma commit_frame (s : BlazertScene.t T) :
  let s' := snd (BlazertScene.commit s) in
  BlazertScene.has_triangles s' = BlazertScene.has_triangles s
  /\ BlazertScene.has_spheres s' = BlazertScene.has_spheres s
  /\ BlazertScene.triangles s' = BlazertScene.triangles s
  /\ BlazertScene.triangles_sah s' = BlazertScene.triangles_sah s
  /\ BlazertScene.spheres s' = BlazertScene.spheres s
  /\ BlazertScene.spheres_sah s' = BlazertScene.spheres_sah s
  /\ BlazertScene.build_options s' = BlazertScene.build_options s
  /\ BlazertScene.trace_options s' = BlazertScene.trace_options s
  /\ BlazertScene.geometries s' = BlazertScene.geometries s.
Proof.
  unfold BlazertScene.commit.
  destruct (BlazertScene.has_triangles s) eqn:Ht; simpl;
    destruct (BlazertScene.has_spheres s) eqn:Hs; simpl; rewrite ?Ht, ?Hs;
    repeat split; reflexivity.
Qed.

(** C3, as the code has it: [commit] has no failing path.  It returns true and
    sets [has_been_committed] for every scene (an empty one included) and
    whatever the build options are; it builds the BVH of each registered class
    and leaves the other BVH alone; and a second call succeeds in the same
    way, building each registered BVH once more, on top of the first build. *)
Theorem commit_never_fails (s : BlazertScene.t T) :
  let s1 := snd (BlazertScene.commit s) in
  let s2 := snd (BlazertScene.commit s1) in
  let build_t := build_triangles (BlazertScene.triangles s)
                   (BlazertScene.triangles_sah s) (BlazertScene.build_options s) in
  let build_s := build_spheres (BlazertScene.spheres s)
                   (BlazertScene.spheres_sah s) (BlazertScene.build_options s) in
  fst (BlazertScene.commit s) = true
  /\ BlazertScene.has_been_committed s1 = true
  /\ BlazertScene.triangles_bvh s1 =
       (if BlazertScene.has_triangles s
        then build_t (BlazertScene.triangles_bvh s)
        else BlazertScene.triangles_bvh s)
  /\ BlazertScene.spheres_bvh s1 =
       (if BlazertScene.has_spheres s
        then build_s (BlazertScene.spheres_bvh s)
        else BlazertScene.spheres_bvh s)
  /\ fst (BlazertScene.commit s1) = true
  /\ BlazertScene.triangles_bvh s2 =
       (if BlazertScene.has_triangles s
        then build_t (build_t (BlazertScene.triangles_bvh s))
        else BlazertScene.triangles_bvh s)
  /\ BlazertScene.spheres_bvh s2 =
       (if BlazertScene.has_spheres s
        then build_s (build_s (BlazertScene.spheres_bvh s))
        else BlazertScene.spheres_bvh s).
Proof.
  intros s1 s2 build_t build_s.
  destruct (commit_frame s) as (Ht & Hs & E1 & E2 & E3 & E4 & E5 & _).
  fold s1 in Ht, Hs, E1, E2, E3, E4, E5.
  split; [reflexivity|]. split; [reflexivity|].
  split; [apply commit_triangles_bvh|].
  split; [apply commit_spheres_bvh|].
  split; [reflexivity|].
  subst s2. rewrite commit_triangles_bvh, commit_spheres_bvh.
  rewrite Ht, Hs, E1, E2, E3, E4, E5.
  subst s1. rewrite commit_triangles_bvh, commit_spheres_bvh.
  subst build_t build_s.
  destruct (BlazertScene.has_triangles s), (BlazertScene.has_spheres s);
    split; reflexivity.
Qed.

(** When no triangle hit was recorded, a sphere hit is compared with the
    distance that the caller's record holds on entry. *)
Lemma intersect1_spheres_only (scene : BlazertScene.t T) (ray : Ray T)
    (rayhit : RayHit T) :
  BlazertScene.has_triangles scene = false ->
  BlazertScene.has_spheres scene = true ->
  BlazertScene.intersect1 scene ray rayhit =
  let r := traverse_spheres (BlazertScene.spheres_bvh scene) ray
             (BlazertScene.spheres scene) RayHit_default
             (BlazertScene.trace_options scene) in
  if fst r && (hit_distance (snd r) <? hit_distance rayhit)%sc
  then (true, snd r) else (false, rayhit).
Proof.
  intros Ht Hs. unfold BlazertScene.intersect1. rewrite Ht, Hs.
  destruct (traverse_spheres _ _ _ _ _) as [[] h]; simpl; [|reflexivity].
  destruct (hit_distance h <? hit_distance rayhit)%sc; reflexivity.
Qed.

(** C1, evaluated on the code: in a scene that holds spheres only, a sphere
    that the traversal reports at distance [d] is dropped when the record
    passed in already holds a distance that [d] is not below: [intersect1]
    returns false and leaves the record as it was, although a registered
    primitive is hit within the range of the ray. *)
Theorem intersect1_stale_rayhit_hides_sphere_hit (scene : BlazertScene.t T)
    (ray : Ray T) (rayhit h : RayHit T) :
  BlazertScene.has_triangles scene = false ->
  BlazertScene.has_spheres scene = true ->
  traverse_spheres (BlazertScene.spheres_bvh scene) ray
    (BlazertScene.spheres scene) RayHit_default
    (BlazertScene.trace_options scene) = (true, h) ->
  (hit_distance h <? hit_distance rayhit)%sc = false ->
  BlazertScene.intersect1 scene ray rayhit = (false, rayhit).
Proof.
  intros Ht Hs Htr Hd. rewrite intersect1_spheres_only by assumption.
  rewrite Htr. simpl. rewrite Hd. reflexivity.
Qed.

(** With both classes registered and a record whose distance on entry lies
    above the sphere hit, the result is the closer of the two hits, the
    triangle hit at equal distance. *)
Lemma intersect1_both_registered (scene : BlazertScene.t T) (ray : Ray T)
    (rayhit : RayHit T) :
  BlazertScene.has_triangles scene = true ->
  BlazertScene.has_spheres scene = true ->
  let rt := traverse_triangles (BlazertScene.triangles_bvh scene) ray
              (BlazertScene.triangles scene) RayHit_default
              (BlazertScene.trace_options scene) in
  let rs := traverse_spheres (BlazertScene.spheres_bvh scene) ray
              (BlazertScene.spheres scene) (snd rt)
              (BlazertScene.trace_options scene) in
  (fst rs = true -> (hit_distance (snd rs) <? hit_distance rayhit)%sc = true) ->
  BlazertScene.intersect1 scene ray rayhit =
  if fst rt
  then (true, if fst rs && (hit_distance (snd rs) <? hit_distance (snd rt))%sc
              then snd rs else snd rt)
  else if fst rs then (true, snd rs) else (false, rayhit).
Proof.
  intros Ht Hs rt rs Hfresh. unfold BlazertScene.intersect1.
  rewrite Ht, Hs. fold rt. destruct rt as [[] ht]; simpl in *.
  - fold rs. destruct rs as [[] hs]; simpl; [|reflexivity].
    destruct (hit_distance hs <? hit_distance ht)%sc; reflexivity.
  - fold rs. destruct rs as [[] hs]; simpl in *; [|reflexivity].
    rewrite Hfresh by reflexivity. reflexivity.
Qed.

End SceneFacts.

(** The scene of scenario S4 (one sphere, met at distance 4) and a record that
    holds distance 1 on entry. *)
Lemma intersect1_stale_rayhit_S4 :
  BlazertScene.intersect1 Scenario.scene_S4 Scenario.ray_S4
    Scenario.stale_rayhit = (false, Scenario.stale_rayhit).
Proof.
  apply (intersect1_stale_rayhit_hides_sphere_hit (H0 := Scenario.Accel_S4)
           Scenario.scene_S4 Scenario.ray_S4 Scenario.stale_rayhit
           (mkRayHit 4%float (0%float, 0%float) 0%N 0%N));
    vm_compute; reflexivity.
Defined.

(** C3 as the claim states it fails: on the empty scene [commit] returns
    true, and a second [commit] of a scene with a mesh returns true again
    after building the BVH a second time. *)
Lemma commit_empty_and_repeated_succeed :
  fst (BlazertScene.commit
         (BlazertScene.empty (H0 := Scenario.Accel_S4) tt
            (Scenario.options false) 0%nat)) = true
  /\ fst (BlazertScene.commit (snd (BlazertScene.commit Scenario.scene_mesh)))
     = true
  /\ BlazertScene.triangles_bvh
       (snd (BlazertScene.commit (snd (BlazertScene.commit Scenario.scene_mesh))))
     = 2%nat.
Proof. repeat split. Qed.

(** ** The bin buffer (bvh/binbuffer.h) *)

Section VectorFacts.
Context {A : Type}.

(** [resize] after [clear] leaves default elements only, whatever the vector
    held; [resize] alone keeps the elements it finds. *)
Lemma vector_resize_clear (n : N) (d : A) (v : list A) :
  vector_resize n d (vector_clear v) = replicate (N.to_nat n) d.
Proof. unfold vector_resize, vector_clear. apply resize_nil. Qed.

Lemma vector_resize_keeps (n : N) (d : A) (v : list A) (i : nat) (x : A) :
  (i < N.to_nat n)%nat -> v !! i = Some x -> vector_resize n d v !! i = Some x.
Proof.
  intros Hi Hx. unfold vector_resize.
  rewrite lookup_resize by (eauto using lookup_lt_Some). exact Hx.
Qed.

End VectorFacts.

Section ClearFacts.
Context {T : Type} `{Scalar T}.

Lemma clear_bin (b : BinBuffer T) :
  bin (clear b) = replicate (N.to_nat (u32 (3 * Z.of_N (size b)))) Bin_default.
Proof. unfold clear. simpl. apply vector_resize_clear. Qed.

(** C8, as the code has it: [clear] empties the vector before it resizes it,
    so that afterwards the buffer has its [3 * size] entries (in unsigned
    32-bit arithmetic) and every entry is a default constructed bin: count 0,
    min at the largest scalar, max at its opposite, cost 0. *)
Theorem clear_reinitialises_every_bin (b : BinBuffer T) :
  size (clear b) = size b
  /\ length (bin (clear b)) = N.to_nat (u32 (3 * Z.of_N (size b)))
  /\ bin (clear b) = replicate (N.to_nat (u32 (3 * Z.of_N (size b)))) Bin_default
  /\ forall (i : nat) (e : Bin T),
       bin (clear b) !! i = Some e ->
       e = Bin_default
       /\ count e = 0%N
       /\ bin_min e = vconst s_max
       /\ bin_max e = vconst (- s_max)%sc.
Proof.
  rewrite clear_bin.
  split; [reflexivity|]. split; [apply length_replicate|].
  split; [reflexivity|].
  intros i e He. apply lookup_replicate in He as [-> _].
  repeat split.
Qed.

End ClearFacts.

(** C8 as the claim states it fails: in a buffer whose six bins all hold
    count 7 and the box from 0 to 1, no entry is left different from a
    default constructed bin by [clear]. *)
Lemma clear_used_buffer_retains_nothing :
  count Scenario.used_bin = 7%N
  /\ Forall (fun b => b = Scenario.used_bin) (bin Scenario.used_buffer)
  /\ ~ (exists (i : nat) (b : Bin float),
          bin (clear Scenario.used_buffer) !! i = Some b
          /\ b <> Bin_default).
Proof.
  split; [reflexivity|]. split.
  - repeat constructor.
  - intros (i & b & Hb & Hne). apply Hne.
    rewrite clear_bin in Hb. apply lookup_replicate in Hb as [-> _].
    reflexivity.
Qed.

(** ** The slab test (bvh/intersect.h) *)

Section NodeFacts.
Context {T : Type} `{Scalar T}.


End NodeFacts.

(** ** The triangle intersector (blazert.h) *)

Section IntersectorFacts.
Context {T : Type} `{Scalar T}.
Import TriangleIntersector.

(** [Intersect] in its parts: the pre-checks, then the vertices, then the
    inside test, then the tests on the distance. *)
Lemma Intersect_unfold (I : t T) (t_inout : T) (prim_index : N) :
  Intersect I t_inout prim_index =
  if negb (admitted (trace_options_ I) prim_index)
  then Some (false, t_inout, I)
  else
    '(A, B, C) ← relative_vertices I prim_index;
    let '(U, V, W) := edge_functions (ray_coeff_ I) A B C in
    if inside_rejects (cull_back_face (trace_options_ I)) U V W
    then Some (false, t_inout, I)
    else Some (depth_test I t_inout A B C U V W).
Proof.
  unfold Intersect, admitted, relative_vertices.
  destruct (_ || _)%bool; [reflexivity|]. simpl.
  destruct (prim_index =? _)%N; [reflexivity|]. simpl.
  destruct (at_ (faces_ I) prim_index) as [face|]; [|reflexivity]. simpl.
  destruct (at_ (vertices_ I) (vx face)) as [p0|]; [|reflexivity]. simpl.
  destruct (at_ (vertices_ I) (vy face)) as [p1|]; [|reflexivity]. simpl.
  destruct (at_ (vertices_ I) (vz face)) as [p2|]; [|reflexivity]. simpl.
  destruct (edge_functions _ _ _ _) as [[U V] W].
  destruct (inside_rejects _ U V W); [reflexivity|].
  unfold depth_test, candidate_t, rcp_det.
  destruct (_ =? lit 0)%sc; [reflexivity|].
  destruct (_ <? _)%sc; [reflexivity|].
  destruct (_ <? _)%sc; reflexivity.
Qed.

(** A primitive that the window or the skipped index excludes is a miss, and
    nothing is read nor written for it. *)
Lemma Intersect_not_admitted (I : t T) (t_inout : T) (prim_index : N) :
  admitted (trace_options_ I) prim_index = false ->
  Intersect I t_inout prim_index = Some (false, t_inout, I).
Proof. intros Ha. rewrite Intersect_unfold, Ha. reflexivity. Qed.

Lemma depth_test_frame (I : t T) (t_inout : T) (A B C : Vec3 T) (U V W : T)
    (h : bool) (t' : T) (I' : t T) :
  depth_test I t_inout A B C U V W = (h, t', I') ->
  trace_options_ I' = trace_options_ I
  /\ prim_id_ I' = prim_id_ I
  /\ t_ I' = t_ I.
Proof.
  unfold depth_test.
  repeat (case_match; try (intros [= <- <- <-]; repeat split; fail)).
Qed.

(** [Intersect] changes [uv_] only, and it reports a hit for admitted
    primitives only. *)
Lemma Intersect_frame (I : t T) (t_inout : T) (prim_index : N)
    (h : bool) (t' : T) (I' : t T) :
  Intersect I t_inout prim_index = Some (h, t', I') ->
  trace_options_ I' = trace_options_ I
  /\ prim_id_ I' = prim_id_ I
  /\ t_ I' = t_ I
  /\ (h = true -> admitted (trace_options_ I) prim_index = true).
Proof.
  rewrite Intersect_unfold.
  destruct (admitted (trace_options_ I) prim_index) eqn:Ha; simpl.
  - destruct (relative_vertices I prim_index) as [[[A B] C]|]; [|discriminate].
    simpl. destruct (edge_functions _ _ _ _) as [[U V] W].
    destruct (inside_rejects _ U V W).
    + intros [= <- <- <-]. repeat split.
    + intros [= Hd]. apply depth_test_frame in Hd as (? & ? & ?).
      repeat split; assumption.
  - intros [= <- <- <-]. repeat split. discriminate.
Qed.

Lemma PrepareTraversal_options (ray : Ray T) (o : BVHTraceOptions) (I : t T) :
  trace_options_ (PrepareTraversal ray o I) = o.
Proof. unfold PrepareTraversal. destruct (_ <=? _)%sc; reflexivity. Qed.

Lemma admitted_true (o : BVHTraceOptions) (p : N) :
  admitted o p = true <->
  (fst (prim_ids_range o) <= p < snd (prim_ids_range o))%N /\ p <> skip_prim_id o.
Proof.
  unfold admitted.
  rewrite andb_true_iff, !negb_true_iff, orb_false_iff.
  rewrite N.ltb_ge, N.leb_gt, N.eqb_neq. tauto.
Qed.

Lemma admitted_false (o : BVHTraceOptions) (p : N) :
  admitted o p = false <->
  (p < fst (prim_ids_range o))%N \/ (snd (prim_ids_range o) <= p)%N
  \/ p = skip_prim_id o.
Proof.
  unfold admitted.
  rewrite andb_false_iff, !negb_false_iff, orb_true_iff.
  rewrite N.ltb_lt, N.leb_le, N.eqb_eq. tauto.
Qed.

(** The step of the leaf loop for triangles: the options stay, and the
    recorded primitive changes on a hit only, to an admitted primitive. *)
Lemma intersect_primitive_triangle_frame (I : t T) (p : N) (ray : Ray T)
    (h : bool) (I' : t T) :
  intersect_primitive_triangle I p ray = Some (h, I') ->
  trace_options_ I' = trace_options_ I
  /\ (if h then prim_id_ I' = p /\ admitted (trace_options_ I) p = true
      else prim_id_ I' = prim_id_ I).
Proof.
  unfold intersect_primitive_triangle.
  destruct (Intersect I (GetT I) p) as [[[h0 t0] I0]|] eqn:Hi; [|discriminate].
  apply Intersect_frame in Hi as (Ho & Hp & _ & Ha). simpl.
  destruct h0; intros [= <- <-]; simpl.
  - repeat split; auto.
  - split; assumption.
Qed.

Lemma intersect_leaf_loop_admitted (ray : Ray T) (prims : list N) :
  forall (I : t T) (hit : bool) (J : t T),
    intersect_leaf_loop intersect_primitive_triangle prims I ray hit
    = Some (true, J) ->
    (hit = true -> admitted (trace_options_ I) (prim_id_ I) = true) ->
    admitted (trace_options_ I) (prim_id_ J) = true.
Proof.
  induction prims as [|p prims IH]; intros I hit J; simpl.
  - intros [= -> ->] Hhit. auto.
  - destruct (intersect_primitive_triangle I p ray) as [[h I']|] eqn:Hp;
      [|discriminate].
    apply intersect_primitive_triangle_frame in Hp as [Ho Hid]. simpl.
    intros Hres Hhit.
    assert (Hnew : hit || h = true ->
                   admitted (trace_options_ I) (prim_id_ I') = true).
    { destruct h.
      - intros _. destruct Hid as [-> Ha]. exact Ha.
      - rewrite orb_false_r. intros Hh. rewrite Hid. auto. }
    destruct ((hit || h) && any_hit ray) eqn:Hbr.
    + injection Hres as Hh HJ. subst J. apply Hnew. exact Hh.
    + rewrite <- Ho. apply (IH I' (hit || h) J Hres). rewrite Ho. exact Hnew.
Qed.

(** C6: a primitive whose index lies outside the half-open window
    [prim_ids_range], or equals [skip_prim_id], is a miss for [Intersect],
    which then leaves [*t_inout] and the intersector untouched and reads no
    vertex (the index need not even be one of the mesh); and when the loop
    over the primitives of a leaf reports a hit, the primitive it recorded,
    which [PostTraversal] copies to the reported hit, lies inside the window
    and is not the skipped one. *)
Theorem Intersect_window_and_skip :
  (forall (I : t T) (t_inout : T) (prim_index : N),
     (prim_index < fst (prim_ids_range (trace_options_ I)))%N
     \/ (snd (prim_ids_range (trace_options_ I)) <= prim_index)%N
     \/ prim_index = skip_prim_id (trace_options_ I) ->
     Intersect I t_inout prim_index = Some (false, t_inout, I))
  /\ (forall (node : Node T N) (I J : t T) (ray : Ray T)
             (isect : TriangleIntersection T),
        intersect_leaf intersect_primitive_triangle node I ray = Some (true, J) ->
        let reported := isect_prim_id (PostTraversal J true isect) in
        (fst (prim_ids_range (trace_options_ I)) <= reported
         < snd (prim_ids_range (trace_options_ I)))%N
        /\ reported <> skip_prim_id (trace_options_ I)).
Proof.
  split.
  - intros I t_inout prim_index Hout.
    apply Intersect_not_admitted, admitted_false, Hout.
  - intros node I J ray isect Hleaf. simpl.
    apply admitted_true.
    apply (intersect_leaf_loop_admitted ray (primitives node) I false J Hleaf).
    discriminate.
Qed.

(** The inside test in the words of the edge functions. *)
Lemma inside_rejects_spec (cull : bool) (U V W : T) :
  ordered U -> ordered V -> ordered W ->
  inside_rejects cull U V W =
  ((U <? lit 0)%sc || (V <? lit 0)%sc || (W <? lit 0)%sc)
  && negb (negb cull && ((U <=? lit 0)%sc && (V <=? lit 0)%sc && (W <=? lit 0)%sc)).
Proof.
  unfold ordered, inside_rejects. intros -> -> ->.
  destruct (_ || _ || _)%bool; [|reflexivity]. simpl.
  destruct cull; [reflexivity|]. simpl.
  destruct (lit 0 <? U)%sc, (lit 0 <? V)%sc, (lit 0 <? W)%sc; reflexivity.
Qed.

(** C5: for edge functions [U], [V], [W] that the order compares with zero
    (numbers: every rational, every double but NaN), when one of the edge
    functions of an admitted triangle is negative, the candidate is rejected
    unless [cull_back_face] is false and all three are at most zero; so mixed
    signs reject, a back face (all three at most zero, one negative) is a miss
    under [cull_back_face = true], and under [cull_back_face = false] it goes
    on to the tests on the determinant and the distance, which alone decide
    the hit. *)
Theorem Intersect_inside_test (I : t T) (t_inout : T) (prim_index : N)
    (A B C : Vec3 T) (U V W : T) :
  admitted (trace_options_ I) prim_index = true ->
  relative_vertices I prim_index = Some (A, B, C) ->
  edge_functions (ray_coeff_ I) A B C = (U, V, W) ->
  ordered U -> ordered V -> ordered W ->
  (U <? lit 0)%sc || (V <? lit 0)%sc || (W <? lit 0)%sc = true ->
  let cull := cull_back_face (trace_options_ I) in
  let all_nonpos := (U <=? lit 0)%sc && (V <=? lit 0)%sc && (W <=? lit 0)%sc in
  inside_rejects cull U V W = negb (negb cull && all_nonpos)
  /\ (cull = true \/ all_nonpos = false ->
      Intersect I t_inout prim_index = Some (false, t_inout, I))
  /\ (cull = false -> all_nonpos = true ->
      Intersect I t_inout prim_index = Some (depth_test I t_inout A B C U V W)).
Proof.
  intros Ha Hv He HU HV HW Hneg cull all_nonpos.
  assert (Hrej : inside_rejects cull U V W = negb (negb cull && all_nonpos)).
  { rewrite inside_rejects_spec by assumption. rewrite Hneg. reflexivity. }
  split; [exact Hrej|].
  rewrite Intersect_unfold, Ha, Hv. simpl. rewrite He. fold cull. rewrite Hrej.
  split.
  - intros [-> | ->]; [reflexivity|]. rewrite andb_false_r. reflexivity.
  - intros -> ->. reflexivity.
Qed.

Lemma Intersect_hit (I : t T) (t_inout : T) (prim_index : N) (t' : T) (I' : t T) :
  Intersect I t_inout prim_index = Some (true, t', I') ->
  exists (A B C : Vec3 T) (U V W : T),
    is_hit I t_inout prim_index t' I' A B C U V W.
Proof.
  rewrite Intersect_unfold. unfold is_hit.
  destruct (admitted _ _); simpl; [|discriminate].
  destruct (relative_vertices I prim_index) as [[[A B] C]|]; [|discriminate].
  simpl. destruct (edge_functions _ _ _ _) as [[U V] W] eqn:He.
  destruct (inside_rejects _ U V W) eqn:Hin; [discriminate|].
  unfold depth_test.
  repeat case_match; try discriminate.
  intros [= <- <-]. exists A, B, C, U, V, W. repeat split; assumption.
Qed.

Lemma Intersect_hit_intro (I : t T) (t_inout : T) (prim_index : N) (t' : T)
    (I' : t T) (A B C : Vec3 T) (U V W : T) :
  is_hit I t_inout prim_index t' I' A B C U V W ->
  Intersect I t_inout prim_index = Some (true, t', I').
Proof.
  intros (Ha & Hv & He & Hin & Hdet & -> & Hgt & Hlt & ->).
  rewrite Intersect_unfold, Ha, Hv. simpl. rewrite He, Hin.
  unfold depth_test. rewrite Hdet, Hgt, Hlt. reflexivity.
Qed.

Lemma relative_vertices_same_query (I J : t T) (q : N) :
  same_query I J -> relative_vertices J q = relative_vertices I q.
Proof.
  intros (Hv & Hf & Ho & _). unfold relative_vertices.
  rewrite Hv, Hf, Ho. reflexivity.
Qed.

(** A hit is a hit again for any best distance that the candidate does not
    exceed, the candidate itself included. *)
Lemma Intersect_hit_again (I J : t T) (t1 t2 d : T) (q : N) (Iq : t T) :
  Intersect I t1 q = Some (true, d, Iq) ->
  same_query I J ->
  (d >? t2)%sc = false ->
  Intersect J t2 q = Some (true, d, set_uv (uv_ Iq) J).
Proof.
  intros Hq Hsame Hd.
  apply Intersect_hit in Hq
    as (A & B & C & U & V & W & Ha & Hv & He & Hin & Hdet & Ht & _ & Hmin & HI).
  apply (Intersect_hit_intro J t2 q d _ A B C U V W).
  pose proof (relative_vertices_same_query I J q Hsame) as Hrv.
  destruct Hsame as (_ & _ & _ & Hc & Hopt & Hm).
  unfold is_hit. rewrite Hopt, Hc, Hm, Hrv.
  repeat split; try assumption.
  rewrite HI. reflexivity.
Qed.

End IntersectorFacts.

(** ** The order of the rationals *)

Lemma Qltb_lt (x y : Q) : Qltb x y = true <-> (x < y)%Q.
Proof.
  unfold Qltb. rewrite negb_true_iff. split.
  - intros Hb. apply Qnot_le_lt. intros Hle.
    apply Qle_bool_iff in Hle. congruence.
  - intros Hlt. destruct (Qle_bool y x) eqn:E; [|reflexivity].
    apply Qle_bool_iff in E. exfalso. exact (Qlt_not_le _ _ Hlt E).
Qed.

Lemma Qltb_ge (x y : Q) : Qltb x y = false <-> (y <= x)%Q.
Proof.
  unfold Qltb. rewrite negb_false_iff. apply Qle_bool_iff.
Qed.

#[export] Instance ScalarOrder_Q : ScalarOrder Q.
Proof.
  split; simpl.
  - intros x. apply Qltb_ge, Qle_refl.
  - intros x y z Hxy Hyz. apply Qltb_lt in Hxy, Hyz. apply Qltb_lt.
    exact (Qlt_trans _ _ _ Hxy Hyz).
  - intros x y Hx Hy. apply Qltb_ge in Hx, Hy. apply Qltb_ge.
    exact (Qle_trans _ _ _ Hy Hx).
Qed.

(** every rational is ordered with respect to zero *)
Lemma ordered_Q (x : Q) : ordered x.
Proof.
  unfold ordered. simpl. unfold Qltb. rewrite negb_involutive. reflexivity.
Qed.

(** over the rationals, multiplying by the reciprocal of the determinant is
    dividing by the determinant *)
Lemma rcp_det_Q (X U V W : Q) :
  (X * TriangleIntersector.rcp_det U V W)%sc = (X / (U + V + W))%sc.
Proof.
  unfold TriangleIntersector.rcp_det. simpl. apply Qred_complete.
  rewrite !Qred_correct. unfold Qdiv. rewrite Qmult_1_l. reflexivity.
Qed.

(** ** The order of binary64 *)

Ltac sf_cases :=
  unfold SFltb, SFleb, SFeqb, SFcompare;
  repeat match goal with
         | s : bool |- _ => destruct s
         end;
  change (Pos.compare_cont Eq) with Pos.compare;
  repeat match goal with
         | |- context [Z.compare ?a ?b] => destruct (Z.compare_spec a b)
         | |- context [Pos.compare ?a ?b] => destruct (Pos.compare_spec a b)
         end;
  simpl; try discriminate; try reflexivity; intros; try lia.

Lemma SFltb_irrefl (x : spec_float) : SFltb x x = false.
Proof. destruct x; sf_cases. Qed.

Lemma SFltb_trans (x y z : spec_float) :
  SFltb x y = true -> SFltb y z = true -> SFltb x z = true.
Proof. destruct x, y, z; sf_cases. Qed.

(** a positive finite number as the pivot *)
Lemma SFltb_pivot (x y : spec_float) (m : positive) (e : Z) :
  SFltb x (S754_finite false m e) = false ->
  SFltb (S754_finite false m e) y = false ->
  SFltb x y = false.
Proof. destruct x, y; sf_cases. Qed.

(** a number that equals itself is not NaN, and zero compares with it *)
Lemma SFleb_zero (x : spec_float) :
  SFeqb x x = true ->
  SFleb x (S754_zero false) = negb (SFltb (S754_zero false) x).
Proof. destruct x; sf_cases. Qed.

(** The laws hold in binary64, NaN and the infinities included. *)
#[export] Instance ScalarOrder_double : ScalarOrder float.
Proof.
  split; simpl.
  - intros x. rewrite ltb_spec. apply SFltb_irrefl.
  - intros x y z. rewrite !ltb_spec. apply SFltb_trans.
  - intros x y. rewrite !ltb_spec.
    change (Prim2SF 0x1.fffffffffffffp+1023%float)
      with (S754_finite false 9007199254740991 971).
    apply SFltb_pivot.
Qed.

(** every double but NaN is ordered with respect to zero *)
Lemma ordered_double (x : float) : (x =? x)%float = true -> ordered x.
Proof.
  unfold ordered. simpl. intros Hx.
  rewrite FloatAxioms.eqb_spec in Hx. rewrite leb_spec, ltb_spec.
  change (Prim2SF (PrimFloat.of_uint63 (Uint63.of_Z (Z.of_N 0))))
    with (S754_zero false).
  apply SFleb_zero, Hx.
Qed.

(** ** Ties between hits *)

Section TieFacts.
Context {T : Type} `{Scalar T}.
Import TriangleIntersector.

Lemma same_query_Update_set_uv (I : t T) (d : T) (p : N) (uv : T * T) :
  same_query I (Update d p (set_uv uv I)).
Proof. repeat split. Qed.




End TieFacts.




(** ** The scenarios on the intersector *)

(** The ray of scenario S1 meets the triangle from the side where the three
    edge functions are negative (-1/2, -1/4, -1/4): with culling the call is a
    miss that leaves the best distance at 10, without culling it is a hit at
    distance 1. *)
Lemma Intersect_inside_test_S1 :
  TriangleIntersector.Intersect
    (Scenario.prepared_d Scenario.faces1 (Scenario.options true)) 10%float 0
  = Some (false, 10%float,
          Scenario.prepared_d Scenario.faces1 (Scenario.options true))
  /\ fst <$> TriangleIntersector.Intersect
               (Scenario.prepared_d Scenario.faces1 (Scenario.options false))
               10%float 0
     = Some (true, 1%float).
Proof.
  split.
  - refine (proj1 (proj2
      (Intersect_inside_test
         (Scenario.prepared_d Scenario.faces1 (Scenario.options true))
         10%float 0%N
         (mkVec3 (-0.25) (-0.25) 1)%float (mkVec3 0.75 (-0.25) 1)%float
         (mkVec3 (-0.25) 0.75 1)%float (-0.5)%float (-0.25)%float (-0.25)%float
         _ _ _ _ _ _ _)) (or_introl eq_refl)); vm_compute; reflexivity.
  - destruct (Intersect_inside_test
         (Scenario.prepared_d Scenario.faces1 (Scenario.options false))
         10%float 0%N
         (mkVec3 (-0.25) (-0.25) 1)%float (mkVec3 0.75 (-0.25) 1)%float
         (mkVec3 (-0.25) 0.75 1)%float (-0.5)%float (-0.25)%float (-0.25)%float)
      as (_ & _ & Hhit); [vm_compute; reflexivity ..|].
    rewrite Hhit; vm_compute; reflexivity.
Defined.

(** The ray of scenario S2 comes from above: the three edge functions are
    positive (1/2, 1/4, 1/4) and the call is a hit at distance 1 with and
    without culling. *)
Lemma Intersect_S2_front_face :
  forall cull : bool,
    (fun r => (fst r, TriangleIntersector.uv_ (snd r)))
    <$> TriangleIntersector.Intersect
          (Scenario.prepared Scenario.ray_S2_d Scenario.faces1
             (Scenario.options cull)) 10%float 0
    = Some (true, 1%float, (0.25%float, 0.25%float)).
Proof. intros []; vm_compute; reflexivity. Qed.

(** The inside test as it is stated for every triangle and ray fails in two
    ways.  On the triangle with two far vertices the first edge function is
    not a number (the difference of two infinite products) and the two others
    are negative: the three are not all at most zero, and yet without culling
    the call reports a hit, at a distance that is not a number.  And the ray
    of scenario S2, which the specification has miss under culling, meets the
    side of the triangle on which the edge functions are positive: the call
    reports a hit with [cull_back_face = true]. *)
Lemma inside_test_not_a_number_hits :
  (exists (A B C : Vec3 float) (U V W : float),
     TriangleIntersector.relative_vertices Examples.start_huge 0 = Some (A, B, C)
     /\ TriangleIntersector.edge_functions
          (TriangleIntersector.ray_coeff_ Examples.start_huge) A B C = (U, V, W)
     /\ (V <? lit 0)%sc = true
     /\ ((U <=? lit 0)%sc && (V <=? lit 0)%sc && (W <=? lit 0)%sc) = false
     /\ cull_back_face (TriangleIntersector.trace_options_ Examples.start_huge)
        = false
     /\ (fun r => (fst (fst r), snd (fst r)))
        <$> TriangleIntersector.Intersect Examples.start_huge 100%float 0
        = Some (true, nan))
  /\ (fun r : bool * float * TriangleIntersector.t float => fst (fst r))
     <$> TriangleIntersector.Intersect
           (Scenario.prepared Scenario.ray_S2_d Scenario.faces1
              (Scenario.options true)) 10%float 0
     = Some true.
Proof.
  split; [|vm_compute; reflexivity].
  exists (mkVec3 (-1) 0 1)%float, (mkVec3 0x1p600 (-0x1p600) 1)%float,
    (mkVec3 (-0x1p600) 0x1p600 1)%float, nan, (-0x1p600)%float,
    (-0x1p600)%float.
  repeat split; vm_compute; reflexivity.
Qed.

(** With a window that holds primitive 0 only, primitive 1 of the leaf is a
    miss and the leaf reports primitive 0. *)
Lemma Intersect_window_and_skip_leaf :
  TriangleIntersector.Intersect
    (Scenario.prepared_d Scenario.faces2 Scenario.options_first_only) 10%float 1
  = Some (false, 10%float,
          Scenario.prepared_d Scenario.faces2 Scenario.options_first_only)
  /\ (0 <= 0 < 1)%N /\ 0%N <> 4294967295%N.
Proof.
  split.
  - apply (proj1 Intersect_window_and_skip). right. left. vm_compute. discriminate.
  - exact (proj2 Intersect_window_and_skip Scenario.leaf_01
             (Scenario.prepared_d Scenario.faces2 Scenario.options_first_only)
             (TriangleIntersector.Update 1%float 0%N
                (TriangleIntersector.set_uv (0.25%float, 0.25%float)
                   (Scenario.prepared_d Scenario.faces2 Scenario.options_first_only)))
             Scenario.ray_S1_d
             (mkTriangleIntersection (0%float, 0%float) 0%float (u32 (-1)))
             eq_refl).
Defined.

(** The first entry of the buffer of six used bins after [clear]. *)
Lemma clear_reinitialises_used_buffer :
  @Bin_default float _ = Bin_default
  /\ count (@Bin_default float _) = 0%N
  /\ bin_min (@Bin_default float _) = vconst s_max
  /\ bin_max (@Bin_default float _) = vconst (- s_max)%sc.
Proof.
  exact (proj2 (proj2 (proj2 (clear_reinitialises_every_bin Scenario.used_buffer)))
           0%nat Bin_default eq_refl).
Defined.

Section BarycentricFacts.
Import TriangleIntersector.

(** C9: a hit reports the distance [t = D * (1 / det)] and
    the barycentrics [uv = (V * (1 / det), W * (1 / det))] of the edge
    functions, which over the rationals are [V / det] and [W / det]; and for
    the triangle (0,0,1), (1,0,1), (0,1,1) and the ray from (1/4, 1/4, 0) along
    +z with [min_t = 0] and [max_t = 10], [Intersect] reports a hit with
    [t = 1] and [uv = (1/4, 1/4)], in binary64 and over the rationals, for
    every intersector over the mesh and all trace options that admit
    primitive 0 and do not cull back faces. *)
Theorem Intersect_reports_barycentrics :
  (forall (T : Type) (HS : Scalar T) (I I' : t T) (t_inout t' : T)
          (prim_index : N),
     Intersect I t_inout prim_index = Some (true, t', I') ->
     exists (A B C : Vec3 T) (U V W : T),
       relative_vertices I prim_index = Some (A, B, C)
       /\ edge_functions (ray_coeff_ I) A B C = (U, V, W)
       /\ t' = candidate_t (ray_coeff_ I) A B C U V W
       /\ uv_ I' = ((V * (lit 1 / (U + V + W)))%sc, (W * (lit 1 / (U + V + W)))%sc))
  /\ (forall (U V W : Q),
        ((V * rcp_det U V W)%sc, (W * rcp_det U V W)%sc)
        = ((V / (U + V + W))%sc, (W / (U + V + W))%sc))
  /\ (forall (o : BVHTraceOptions) (I0 : t float),
        vertices_ I0 = Scenario.vertices_d ->
        faces_ I0 = Scenario.faces1 ->
        cull_back_face o = false ->
        admitted o 0 = true ->
        exists J : t float,
          Intersect (PrepareTraversal Scenario.ray_S1_d o I0)
            (max_t Scenario.ray_S1_d) 0 = Some (true, 1%float, J)
          /\ uv_ J = (0.25%float, 0.25%float))
  /\ (forall (o : BVHTraceOptions) (I0 : t Q),
        vertices_ I0 = Scenario.vertices_q ->
        faces_ I0 = Scenario.faces1 ->
        cull_back_face o = false ->
        admitted o 0 = true ->
        exists J : t Q,
          Intersect (PrepareTraversal Scenario.ray_S1_q o I0)
            (max_t Scenario.ray_S1_q) 0 = Some (true, 1%Q, J)
          /\ uv_ J = ((1 # 4)%Q, (1 # 4)%Q)).
Proof.
  split; [|split; [|split]].
  - intros T HS I I' t_inout t' prim_index Hhit.
    apply Intersect_hit in Hhit
      as (A & B & C & U & V & W & _ & Hv & He & _ & _ & Ht & _ & _ & ->).
    exists A, B, C, U, V, W. repeat split; assumption.
  - intros U V W. rewrite !rcp_det_Q. reflexivity.
  - intros o I0 Hv Hf Hc Ha. rewrite Intersect_unfold.
    rewrite PrepareTraversal_options, Ha, Hc.
    destruct I0; simpl in Hv, Hf; subst.
    eexists. split; vm_compute; reflexivity.
  - intros o I0 Hv Hf Hc Ha. rewrite Intersect_unfold.
    rewrite PrepareTraversal_options, Ha, Hc.
    destruct I0; simpl in Hv, Hf; subst.
    eexists. split; vm_compute; reflexivity.
Qed.

End BarycentricFacts.

(** The ray of scenario S1 meets the triangle on its back face: with
    [cull_back_face = true] the call is a miss that leaves the best distance
    at 10. *)
Lemma Intersect_S1_culled_is_a_miss :
  TriangleIntersector.Intersect
    (TriangleIntersector.PrepareTraversal Scenario.ray_S1_d
       (Scenario.options true) (Scenario.intersector_d Scenario.faces1))
    (max_t Scenario.ray_S1_d) 0
  = Some (false, 10%float,
          TriangleIntersector.PrepareTraversal Scenario.ray_S1_d
            (Scenario.options true) (Scenario.intersector_d Scenario.faces1)).
Proof. vm_compute. reflexivity. Qed.

(** Scenario S1 with the options that admit every primitive. *)
Lemma Intersect_reports_barycentrics_S1 :
  exists J : TriangleIntersector.t float,
    TriangleIntersector.Intersect
      (TriangleIntersector.PrepareTraversal Scenario.ray_S1_d
         (Scenario.options false) (Scenario.intersector_d Scenario.faces1))
      (max_t Scenario.ray_S1_d) 0 = Some (true, 1%float, J)
    /\ TriangleIntersector.uv_ J = (0.25%float, 0.25%float).
Proof.
  exact (proj1 (proj2 (proj2 Intersect_reports_barycentrics))
           (Scenario.options false) (Scenario.intersector_d Scenario.faces1)
           eq_refl eq_refl eq_refl eq_refl).
Defined.

(** ** The search of the best split (bvh/binbuffer.h) *)

Lemma u32_small (z : Z) : (0 <= z < 2 ^ 32)%Z -> u32 z = Z.to_N z.
Proof. intros Hz. unfold u32. rewrite Z.mod_small by exact Hz. reflexivity. Qed.

Lemma u64_small (z : Z) : (0 <= z < 2 ^ 64)%Z -> u64 z = Z.to_N z.
Proof. intros Hz. unfold u64. rewrite Z.mod_small by exact Hz. reflexivity. Qed.

Section FoldFacts.
Context {A B : Type}.

Lemma foldl_opt_cons_Some (f : A -> B -> option A) (a a' : A) (b : B)
    (l : list B) :
  f a b = Some a' -> foldl_opt f a (b :: l) = foldl_opt f a' l.
Proof. intros Hf. simpl. rewrite Hf. reflexivity. Qed.

(** a property that every turn of the loop keeps holds at its end *)
Lemma foldl_opt_invariant (P : A -> Prop) (f : A -> B -> option A) (l : list B) :
  (forall a b a', P a -> f a b = Some a' -> P a') ->
  forall a a', P a -> foldl_opt f a l = Some a' -> P a'.
Proof.
  intros Hstep. induction l as [|b l IH]; intros a a' Ha; simpl.
  - intros [= <-]. exact Ha.
  - destruct (f a b) as [a1|] eqn:Hf; simpl; [|discriminate].
    apply IH. exact (Hstep a b a1 Ha Hf).
Qed.

End FoldFacts.

Section ScanFacts.
Context {T : Type} `{Scalar T} {HO : ScalarOrder T}.

Lemma ltb_asym (x y : T) : (x <? y)%sc = true -> (y <? x)%sc = false.
Proof.
  intros Hxy. destruct (y <? x)%sc eqn:Hyx; [|reflexivity].
  pose proof (ltb_trans x y x Hxy Hyx) as Hxx.
  rewrite ltb_irrefl in Hxx. discriminate.
Qed.

(** not below [y], and [y] below [z]: not below [z] *)
Lemma ltb_false_trans (x y z : T) :
  (x <? y)%sc = false -> (z <? y)%sc = true -> (x <? z)%sc = false.
Proof.
  intros Hxy Hzy. destruct (x <? z)%sc eqn:Hxz; [|reflexivity].
  rewrite (ltb_trans x z y Hxz Hzy) in Hxy. discriminate.
Qed.

(** The search keeps its state when no cost is strictly below the starting
    one; otherwise it ends on a position whose cost is strictly below the
    starting one and which no position beats. *)
Lemma scan_spec (l : list (Bin T)) (positions : list nat) :
  forall (mc0 : T) (mb0 : N),
    let r := foldl (scan_step l) (mc0, mb0) positions in
    (r = (mc0, mb0)
     /\ forall i, i ∈ positions -> (code_cost l i <? mc0)%sc = false)
    \/ (exists i, i ∈ positions
          /\ r = (code_cost l i, N.of_nat i)
          /\ (code_cost l i <? mc0)%sc = true
          /\ forall i', i' ∈ positions ->
               (code_cost l i' <? code_cost l i)%sc = false).
Proof.
  induction positions as [|i rest IH]; intros mc0 mb0; simpl.
  - left. split; [reflexivity|]. intros i Hi. inversion Hi.
  - destruct (code_cost l i <? mc0)%sc eqn:Hlt.
    + assert (Hs : scan_step l (mc0, mb0) i = (code_cost l i, N.of_nat i))
        by (unfold scan_step; simpl; rewrite Hlt; reflexivity).
      rewrite Hs. right.
      destruct (IH (code_cost l i) (N.of_nat i)) as [[Hr Hall]|(i2 & Hin & Hr & Hlt2 & Hall)].
      * exists i. split; [left|]. split; [exact Hr|]. split; [exact Hlt|].
        intros i' Hi'. apply elem_of_cons in Hi' as [->|Hi'].
        -- apply ltb_irrefl.
        -- apply Hall, Hi'.
      * exists i2. split; [right; exact Hin|]. split; [exact Hr|].
        split; [exact (ltb_trans _ _ _ Hlt2 Hlt)|].
        intros i' Hi'. apply elem_of_cons in Hi' as [->|Hi'].
        -- apply ltb_asym, Hlt2.
        -- apply Hall, Hi'.
    + assert (Hs : scan_step l (mc0, mb0) i = (mc0, mb0))
        by (unfold scan_step; simpl; rewrite Hlt; reflexivity).
      rewrite Hs.
      destruct (IH mc0 mb0) as [[Hr Hall]|(i2 & Hin & Hr & Hlt2 & Hall)].
      * left. split; [exact Hr|].
        intros i' Hi'. apply elem_of_cons in Hi' as [->|Hi'].
        -- exact Hlt.
        -- apply Hall, Hi'.
      * right. exists i2. split; [right; exact Hin|]. split; [exact Hr|].
        split; [exact Hlt2|].
        intros i' Hi'. apply elem_of_cons in Hi' as [->|Hi'].
        -- exact (ltb_false_trans _ _ _ Hlt Hlt2).
        -- apply Hall, Hi'.
Qed.

(** The search from the largest scalar and position 1, over the positions
    from 1 on, when the cost of position 1 is not above the largest scalar. *)
Lemma scan_from_max (l : list (Bin T)) (m : nat) :
  (s_max <? code_cost l 1)%sc = false ->
  exists minBin : nat,
    foldl (scan_step l) (s_max, 1%N) (seq 1 (Datatypes.S m))
    = (capped (code_cost l minBin), N.of_nat minBin)
    /\ (1 <= minBin <= Datatypes.S m)%nat
    /\ forall i, (1 <= i <= Datatypes.S m)%nat ->
         (code_cost l i <? code_cost l minBin)%sc = false.
Proof.
  intros Hmax.
  destruct (scan_spec l (seq 1 (Datatypes.S m)) s_max 1%N)
    as [[Hr Hall]|(i & Hin & Hr & Hlt & Hall)].
  - exists 1%nat. split; [|split; [lia|]].
    + rewrite Hr. unfold capped.
      rewrite (Hall 1%nat) by (apply elem_of_seq; lia). reflexivity.
    + intros i Hi. apply ltb_max_pivot; [|exact Hmax].
      apply Hall, elem_of_seq. lia.
  - exists i. apply elem_of_seq in Hin. split; [|split; [lia|]].
    + rewrite Hr. unfold capped. rewrite Hlt. reflexivity.
    + intros i' Hi'. apply Hall, elem_of_seq. lia.
Qed.

(** The choice of the axis: no axis has a strictly smaller [min_cost], and an
    axis with the same [min_cost] does not come before the chosen one. *)
Lemma min_cost_axis_of_spec (mc : Vec3 T) :
  let a := min_cost_axis_of mc in
  (a < 3)%nat
  /\ (forall j, (j < 3)%nat -> (vget mc j <? vget mc a)%sc = false)
  /\ (forall j, (j < 3)%nat -> vget mc j = vget mc a -> (a <= j)%nat).
Proof.
  unfold min_cost_axis_of. simpl.
  destruct (vy mc <? vx mc)%sc eqn:H10; simpl.
  - destruct (vz mc <? vy mc)%sc eqn:H21; simpl.
    + pose proof (ltb_trans _ _ _ H21 H10) as H20.
      split; [lia|]. split.
      * intros [|[|[|j]]] Hj; simpl; try lia;
          auto using ltb_asym, ltb_irrefl.
      * intros [|[|[|j]]] Hj; simpl; try lia; intros Heq.
        -- rewrite Heq, ltb_irrefl in H20. discriminate.
        -- rewrite Heq, ltb_irrefl in H21. discriminate.
    + split; [lia|]. split.
      * intros [|[|[|j]]] Hj; simpl; try lia;
          auto using ltb_asym, ltb_irrefl.
      * intros [|[|[|j]]] Hj; simpl; try lia; intros Heq.
        rewrite Heq, ltb_irrefl in H10. discriminate.
  - destruct (vz mc <? vx mc)%sc eqn:H20; simpl.
    + split; [lia|]. split.
      * intros [|[|[|j]]] Hj; simpl; try lia;
          auto using ltb_asym, ltb_irrefl.
        destruct (vy mc <? vz mc)%sc eqn:H12; [|reflexivity].
        rewrite (ltb_trans _ _ _ H12 H20) in H10. discriminate.
      * intros [|[|[|j]]] Hj; simpl; try lia; intros Heq.
        -- rewrite Heq, ltb_irrefl in H20. discriminate.
        -- rewrite Heq, H20 in H10. discriminate.
    + split; [lia|]. split.
      * intros [|[|[|j]]] Hj; simpl; try lia;
          auto using ltb_asym, ltb_irrefl.
      * intros j _ _. lia.
Qed.

End ScanFacts.

Section SweepFacts.
Context {T : Type} `{Scalar T}.
Variables (bs : list (Bin T)) (size : N) (j : nat).
Hypothesis Hj : (j < 3)%nat.
Hypothesis Hsize : (3 * size < 2 ^ 32)%N.
Hypothesis Hlen : length bs = (3 * N.to_nat size)%nat.

Local Abbreviation n := (N.to_nat size).
Local Abbreviation l := (axis_bins bs size j).

Lemma bin_at_nat (i : nat) :
  (i < n)%nat -> N.to_nat (bin_at size j (N.of_nat i)) = (j * n + i)%nat.
Proof.
  intros Hi. unfold bin_at.
  rewrite (u32_small (Z.of_nat j * Z.of_N size)) by nia.
  rewrite u64_small by nia. nia.
Qed.

Lemma bin_at_next (i : nat) :
  (Datatypes.S i < n)%nat ->
  N.to_nat (u64 (Z.of_N (bin_at size j (N.of_nat i)) + 1))
  = (j * n + Datatypes.S i)%nat.
Proof.
  intros Hi. unfold bin_at.
  rewrite (u32_small (Z.of_nat j * Z.of_N size)) by nia.
  rewrite (u64_small (_ + Z.of_N (N.of_nat i))) by nia.
  rewrite u64_small by nia. nia.
Qed.

Lemma axis_bins_lookup (i : nat) :
  (i < n)%nat -> l !! i = bs !! (j * n + i)%nat.
Proof.
  intros Hi. unfold axis_bins.
  rewrite lookup_take_lt by exact Hi. apply lookup_drop.
Qed.

Lemma axis_bins_length : length l = n.
Proof.
  unfold axis_bins. rewrite length_take, length_drop. nia.
Qed.

Lemma sweep_add_geo (s : Sweep T) (b b' : Bin T) :
  geo b = geo b' -> sweep_add s b = sweep_add s b'.
Proof.
  unfold geo, sweep_add. intros [= -> -> ->]. reflexivity.
Qed.

(** a bin of the current vector and the bin of the vector after the binning
    at the same place *)
Lemma geo_lookup (bs' : list (Bin T)) (i : nat) :
  geo <$> bs' = geo <$> bs ->
  (i < n)%nat ->
  exists b b' : Bin T,
    bs !! (j * n + i)%nat = Some b /\ bs' !! (j * n + i)%nat = Some b'
    /\ geo b' = geo b.
Proof.
  intros Hgeo Hi.
  assert (Hlen' : length bs' = length bs).
  { rewrite <- (length_fmap geo bs'), Hgeo. apply length_fmap. }
  destruct (lookup_lt_is_Some_2 bs (j * n + i)) as [b Hb]; [nia|].
  destruct (lookup_lt_is_Some_2 bs' (j * n + i)) as [b' Hb']; [nia|].
  exists b, b'. split; [exact Hb|]. split; [exact Hb'|].
  assert (Hl : (geo <$> bs') !! (j * n + i)%nat = (geo <$> bs) !! (j * n + i)%nat)
    by (rewrite Hgeo; reflexivity).
  rewrite !list_lookup_fmap, Hb, Hb' in Hl. simpl in Hl. congruence.
Qed.

Lemma list_sweep_step (i : nat) (b : Bin T) :
  l !! i = Some b ->
  list_sweep l i = sweep_add (list_sweep l (Datatypes.S i)) b.
Proof.
  intros Hb. unfold list_sweep. rewrite (drop_S _ _ _ Hb). reflexivity.
Qed.

Lemma left_sweep_step (i : nat) (b : Bin T) :
  l !! i = Some b ->
  left_sweep l (Datatypes.S i) = sweep_add (left_sweep l i) b.
Proof.
  intros Hb. unfold left_sweep. rewrite (take_S_r _ _ _ Hb).
  rewrite foldl_app. reflexivity.
Qed.

Lemma list_sweep_end : list_sweep l n = Sweep_list_init.
Proof.
  unfold list_sweep. rewrite drop_ge; [reflexivity|].
  rewrite axis_bins_length. lia.
Qed.

Lemma sweep_left_step_nat (s : Sweep T) (bs' : list (Bin T)) (i : nat)
    (b' : Bin T) :
  (i < n)%nat ->
  bs' !! (j * n + i)%nat = Some b' ->
  sweep_left_step size j (s, bs') (N.of_nat i)
  = Some (sweep_add s b',
          <[(j * n + i)%nat := set_cost (sweep_cost (sweep_add s b')) b']> bs').
Proof.
  intros Hi Hb'. unfold sweep_left_step, at_. cbn [fst snd].
  rewrite (bin_at_nat i Hi), Hb'. reflexivity.
Qed.

(** The sweep to the left from position [k] down to position 1: it leaves in
    the cost of each bin it visits the right-of-split cost of its position,
    changes nothing else, and ends with the accumulators of position 1. *)
Lemma sweep_left_spec (k : nat) :
  forall bs' : list (Bin T),
    (k < n)%nat ->
    geo <$> bs' = geo <$> bs ->
    exists bs'' : list (Bin T),
      foldl_opt (sweep_left_step size j)
        (list_sweep l (Datatypes.S k), bs') (rev (N.of_nat <$> seq 1 k))
      = Some (list_sweep l 1, bs'')
      /\ geo <$> bs'' = geo <$> bs
      /\ (forall i, (1 <= i <= k)%nat ->
            cost <$> bs'' !! (j * n + i)%nat
            = Some (sweep_cost (list_sweep l i)))
      /\ (forall m, ~ (j * n + 1 <= m <= j * n + k)%nat -> bs'' !! m = bs' !! m).
Proof.
  induction k as [|k IH]; intros bs' Hk Hgeo.
  - exists bs'. simpl. split; [reflexivity|]. split; [exact Hgeo|].
    split; [intros i Hi; lia|]. reflexivity.
  - assert (Hlist : rev (N.of_nat <$> seq 1 (Datatypes.S k))
                    = N.of_nat (Datatypes.S k) :: rev (N.of_nat <$> seq 1 k)).
    { rewrite seq_S, fmap_app, rev_app_distr. reflexivity. }
    rewrite Hlist. clear Hlist.
    destruct (geo_lookup bs' (Datatypes.S k) Hgeo Hk) as (b & b' & Hb & Hb' & Hg).
    rewrite (foldl_opt_cons_Some _ _ _ _ _
               (sweep_left_step_nat _ bs' (Datatypes.S k) b' Hk Hb')).
    assert (Hl : l !! Datatypes.S k = Some b)
      by (rewrite axis_bins_lookup by exact Hk; exact Hb).
    rewrite (sweep_add_geo _ b' b Hg), <- (list_sweep_step _ _ Hl).
    set (bs1 := <[(j * n + Datatypes.S k)%nat :=
                  set_cost (sweep_cost (list_sweep l (Datatypes.S k))) b']> bs').
    assert (Hgeo1 : geo <$> bs1 = geo <$> bs).
    { unfold bs1. rewrite list_fmap_insert, <- Hgeo.
      apply list_insert_id. rewrite list_lookup_fmap, Hb'. reflexivity. }
    destruct (IH bs1 ltac:(lia) Hgeo1) as (bs'' & Hrun & Hgeo'' & Hcost & Hframe).
    exists bs''. split; [exact Hrun|]. split; [exact Hgeo''|]. split.
    + intros i Hi. destruct (decide (i = Datatypes.S k)) as [->|Hne].
      * rewrite Hframe by lia. unfold bs1.
        rewrite list_lookup_insert_eq by (eauto using lookup_lt_Some).
        reflexivity.
      * apply Hcost. lia.
    + intros m Hm. rewrite Hframe by lia. unfold bs1.
      apply list_lookup_insert_ne. lia.
Qed.

Lemma sweep_right_step_nat (bs'' : list (Bin T)) (s : Sweep T) (mc : T)
    (mb : N) (i : nat) (b' next : Bin T) :
  (Datatypes.S i < n)%nat ->
  bs'' !! (j * n + i)%nat = Some b' ->
  bs'' !! (j * n + Datatypes.S i)%nat = Some next ->
  sweep_right_step size j bs'' (s, mc, mb) (N.of_nat i)
  = Some (if (sweep_cost (sweep_add s b') + cost next <? mc)%sc
          then (sweep_add s b', (sweep_cost (sweep_add s b') + cost next)%sc,
                N.of_nat (Datatypes.S i))
          else (sweep_add s b', mc, mb)).
Proof.
  intros Hi Hb' Hnext. unfold sweep_right_step, at_.
  rewrite (bin_at_next i Hi), (bin_at_nat i ltac:(lia)), Hb', Hnext.
  cbn [mbind option_bind].
  rewrite (u64_small (Z.of_N (N.of_nat i) + 1)) by nia.
  replace (Z.to_N (Z.of_N (N.of_nat i) + 1)) with (N.of_nat (Datatypes.S i)) by lia.
  destruct (_ <? mc)%sc; reflexivity.
Qed.

(** The sweep to the right over the positions [a + 1 .. a + m], on bins whose
    costs the sweep to the left has written: it is the search over the costs
    of the splits. *)
Lemma sweep_right_spec (bs'' : list (Bin T)) :
  geo <$> bs'' = geo <$> bs ->
  (forall i, (1 <= i < n)%nat ->
     cost <$> bs'' !! (j * n + i)%nat = Some (sweep_cost (list_sweep l i))) ->
  forall (m a : nat) (mc : T) (mb : N),
    (a + m < n)%nat ->
    foldl_opt (sweep_right_step size j bs'') (left_sweep l a, mc, mb)
      (N.of_nat <$> seq a m)
    = Some (left_sweep l (a + m),
            fst (foldl (scan_step l) (mc, mb) (seq (Datatypes.S a) m)),
            snd (foldl (scan_step l) (mc, mb) (seq (Datatypes.S a) m))).
Proof.
  intros Hgeo Hcost. induction m as [|m IH]; intros a mc mb Ham.
  - simpl. rewrite Nat.add_0_r. reflexivity.
  - change (seq a (Datatypes.S m)) with (a :: seq (Datatypes.S a) m).
    change (seq (Datatypes.S a) (Datatypes.S m))
      with (Datatypes.S a :: seq (Datatypes.S (Datatypes.S a)) m).
    rewrite fmap_cons.
    destruct (geo_lookup bs'' a Hgeo ltac:(lia)) as (b & b' & Hb & Hb' & Hg).
    destruct (geo_lookup bs'' (Datatypes.S a) Hgeo ltac:(lia))
      as (bn & next & _ & Hnext & _).
    rewrite (foldl_opt_cons_Some _ _ _ _ _
               (sweep_right_step_nat bs'' _ mc mb a b' next ltac:(lia) Hb' Hnext)).
    assert (Hl : l !! a = Some b)
      by (rewrite axis_bins_lookup by lia; exact Hb).
    assert (Hc : cost next = sweep_cost (list_sweep l (Datatypes.S a))).
    { specialize (Hcost (Datatypes.S a) ltac:(lia)).
      rewrite Hnext in Hcost. simpl in Hcost. congruence. }
    rewrite (sweep_add_geo _ b' b Hg), <- (left_sweep_step _ _ Hl), Hc.
    fold (code_cost l (Datatypes.S a)).
    cbn [foldl]. unfold scan_step at 2 4. cbn [fst snd].
    destruct (code_cost l (Datatypes.S a) <? mc)%sc;
      rewrite IH by lia; rewrite Nat.add_succ_r; reflexivity.
Qed.

(** One turn of the loop over the axes, on bins that differ from the bins
    after the binning in their costs at most: [min_cost[j]] and [minBin] are
    those of the search over the costs of the splits. *)
Lemma split_axis_spec (bs' : list (Bin T)) (min max : Vec3 T) :
  (1 <= n)%nat ->
  geo <$> bs' = geo <$> bs ->
  let r := foldl (scan_step l) (s_max, 1%N) (seq 1 (n - 1)) in
  exists bs'' : list (Bin T),
    split_axis size min max bs' j
    = Some (bs'', fst r,
            (lit (snd r) * ((vget max j - vget min j) / lit size)
             + vget min j)%sc)
    /\ geo <$> bs'' = geo <$> bs.
Proof.
  intros Hn Hgeo r. unfold split_axis.
  destruct (size =? 0)%N eqn:Hz; [apply N.eqb_eq in Hz; lia|].
  unfold left_indices, right_indices.
  destruct (sweep_left_spec (n - 1) bs' ltac:(lia) Hgeo)
    as (bs'' & Hrun & Hgeo'' & Hcost & _).
  replace (Datatypes.S (n - 1)) with n in Hrun by lia.
  rewrite list_sweep_end in Hrun. rewrite Hrun. cbn [mbind option_bind].
  change (@Sweep_init T _) with (left_sweep l 0).
  rewrite (sweep_right_spec bs'' Hgeo'' ltac:(intros i Hi; apply Hcost; lia)
             (n - 1) 0 s_max 1%N ltac:(lia)).
  cbn [mbind option_bind]. fold r.
  exists bs''. split; [reflexivity|exact Hgeo''].
Qed.

End SweepFacts.

Section BinningFacts.
Context {T : Type} `{Scalar T} {C : Type} `{Collection T C}.

Lemma update_at_length {A : Type} (v v' : list A) (i : N) (f : A -> A) :
  update_at v i f = Some v' -> length v' = length v.
Proof.
  unfold update_at. destruct (at_ v i); simpl; [|discriminate].
  intros [= <-]. apply length_insert.
Qed.

Lemma sort_axis_shape (inv_size : Vec3 T) (nc : Vec3 N) (bmin bmax : Vec3 T)
    (bins bins' : BinBuffer T) (j : nat) :
  sort_axis inv_size nc bmin bmax bins j = Some bins' ->
  size bins' = size bins /\ length (bin bins') = length (bin bins).
Proof.
  unfold sort_axis. destruct (_ <? _)%sc.
  - destruct (update_at _ _ _) as [v'|] eqn:Hu; simpl; [|discriminate].
    intros [= <-]. simpl. split; [reflexivity|].
    exact (update_at_length _ _ _ _ Hu).
  - intros [= <-]. split; reflexivity.
Qed.

Lemma sort_primitive_shape (p : C) (min inv_size : Vec3 T)
    (bins bins' : BinBuffer T) (it : N) :
  sort_primitive p min inv_size bins it = Some bins' ->
  size bins' = size bins /\ length (bin bins') = length (bin bins).
Proof.
  unfold sort_primitive.
  destruct (get_primitive_bounding_box p it) as [[bmin bmax]|];
    cbn [mbind option_bind]; [|discriminate].
  destruct (get_primitive_center p it) as [center|];
    cbn [mbind option_bind]; [|discriminate].
  apply (foldl_opt_invariant
           (fun b => size b = size bins /\ length (bin b) = length (bin bins))).
  - intros a j a' [Hs Hl] Hstep. apply sort_axis_shape in Hstep as [Hs' Hl'].
    split; congruence.
  - split; reflexivity.
Qed.

(** The binning returns a buffer of [bin_size] bins per axis. *)
Lemma sort_collection_into_bins_shape (p : C) (range : list N)
    (min max : Vec3 T) (bin_size : N) (bins : BinBuffer T) :
  sort_collection_into_bins p range min max bin_size = Some bins ->
  size bins = bin_size
  /\ length (bin bins) = N.to_nat (u32 (3 * Z.of_N bin_size)).
Proof.
  unfold sort_collection_into_bins.
  apply (foldl_opt_invariant
           (fun b => size b = bin_size
                     /\ length (bin b) = N.to_nat (u32 (3 * Z.of_N bin_size)))).
  - intros a it a' [Hs Hl] Hstep. apply sort_primitive_shape in Hstep as [Hs' Hl'].
    split; congruence.
  - split; [reflexivity|]. unfold BinBuffer_new, vector_resize. simpl.
    rewrite resize_nil. apply length_replicate.
Qed.

End BinningFacts.

(** What the search minimises.  With at least two bins per axis,
    [find_best_split_binned] returns an axis and the three cut positions.  On
    each axis [a] the cut position is
    [minBin * ((max[a] - min[a]) / bin_size) + min[a]] for a position [minBin]
    between 1 and [bin_size - 1] that minimises the cost of the split as the
    code computes it ([code_cost]): the count times the surface of the bins on
    its left plus the stored cost of the bins on its right, whose box the
    first sweep accumulates from the list-initialised accumulators and which
    therefore always holds zero on the second and third axis.  The axis
    returned has the least [min_cost], the cost of its [minBin] as [min_cost]
    holds it, and among axes of equal [min_cost] it is the first.  The order
    of the scalars is taken irreflexive and transitive, and on each axis the
    cost of position 1 is taken not to exceed the largest scalar. *)
Theorem find_best_split_binned_minimises_code_cost {T : Type} `{Scalar T}
    (HO : ScalarOrder T) {C : Type} `{Collection T C} (collection : C)
    (range : list N) (min max : Vec3 T) (bin_size : N) (bins : BinBuffer T) :
  (2 <= bin_size)%N ->
  (3 * bin_size < 2 ^ 32)%N ->
  sort_collection_into_bins collection range min max bin_size = Some bins ->
  (forall j, (j < 3)%nat ->
     (s_max <? code_cost (axis_bins (bin bins) bin_size j) 1)%sc = false) ->
  exists (best_axis : nat) (cut_pos : Vec3 T) (minBin : Vec3 nat),
    find_best_split_binned collection range min max bin_size
    = Some (best_axis, cut_pos)
    /\ (forall j, (j < 3)%nat ->
          let l := axis_bins (bin bins) bin_size j in
          (1 <= vget minBin j <= N.to_nat bin_size - 1)%nat
          /\ vget cut_pos j
             = (lit (N.of_nat (vget minBin j))
                * ((vget max j - vget min j) / lit bin_size) + vget min j)%sc
          /\ forall i, (1 <= i <= N.to_nat bin_size - 1)%nat ->
               (code_cost l i <? code_cost l (vget minBin j))%sc = false)
    /\ (let min_cost := fun j =>
           capped (code_cost (axis_bins (bin bins) bin_size j) (vget minBin j)) in
        (best_axis < 3)%nat
        /\ (forall j, (j < 3)%nat ->
              (min_cost j <? min_cost best_axis)%sc = false)
        /\ (forall j, (j < 3)%nat ->
              min_cost j = min_cost best_axis -> (best_axis <= j)%nat)).
Proof.
  intros Hsize2 Hsize Hsort Hmax.
  destruct (sort_collection_into_bins_shape _ _ _ _ _ _ Hsort) as [Hs Hlen].
  rewrite u32_small in Hlen by lia.
  assert (Hlen' : length (bin bins) = (3 * N.to_nat bin_size)%nat) by lia.
  assert (Hn : (1 <= N.to_nat bin_size)%nat) by lia.
  assert (Hseq : (N.to_nat bin_size - 1 = Datatypes.S (N.to_nat bin_size - 2))%nat) by lia.
  unfold find_best_split_binned. rewrite Hsort. cbn [mbind option_bind].
  unfold find_best_split. rewrite Hs.
  destruct (split_axis_spec (bin bins) bin_size 0 ltac:(lia) Hsize Hlen'
              (bin bins) min max Hn eq_refl) as (b0 & -> & Hg0).
  cbn [mbind option_bind].
  destruct (split_axis_spec (bin bins) bin_size 1 ltac:(lia) Hsize Hlen'
              b0 min max Hn Hg0) as (b1 & -> & Hg1).
  cbn [mbind option_bind].
  destruct (split_axis_spec (bin bins) bin_size 2 ltac:(lia) Hsize Hlen'
              b1 min max Hn Hg1) as (b2 & -> & Hg2).
  cbn [mbind option_bind].
  rewrite Hseq.
  destruct (scan_from_max (axis_bins (bin bins) bin_size 0)
              (N.to_nat bin_size - 2) (Hmax 0%nat ltac:(lia)))
    as (m0 & -> & Hm0 & Hmin0).
  destruct (scan_from_max (axis_bins (bin bins) bin_size 1)
              (N.to_nat bin_size - 2) (Hmax 1%nat ltac:(lia)))
    as (m1 & -> & Hm1 & Hmin1).
  destruct (scan_from_max (axis_bins (bin bins) bin_size 2)
              (N.to_nat bin_size - 2) (Hmax 2%nat ltac:(lia)))
    as (m2 & -> & Hm2 & Hmin2).
  cbn [fst snd].
  eexists _, _, (mkVec3 m0 m1 m2). split; [reflexivity|]. split.
  - intros [|[|[|j]]] Hj; try lia; cbn [vget vx vy vz];
      (split; [lia|]); (split; [reflexivity|]);
      intros i Hi; [apply Hmin0|apply Hmin1|apply Hmin2]; lia.
  - cbv zeta.
    destruct (min_cost_axis_of_spec
                (mkVec3 (capped (code_cost (axis_bins (bin bins) bin_size 0) m0))
                        (capped (code_cost (axis_bins (bin bins) bin_size 1) m1))
                        (capped (code_cost (axis_bins (bin bins) bin_size 2) m2))))
      as (Ha & Hleast & Hfirst).
    set (a := min_cost_axis_of _) in *.
    split; [exact Ha|].
    assert (Hv : forall j, (j < 3)%nat ->
              capped (code_cost (axis_bins (bin bins) bin_size j)
                        (vget (mkVec3 m0 m1 m2) j))
              = vget (mkVec3
                        (capped (code_cost (axis_bins (bin bins) bin_size 0) m0))
                        (capped (code_cost (axis_bins (bin bins) bin_size 1) m1))
                        (capped (code_cost (axis_bins (bin bins) bin_size 2) m2))) j).
    { intros [|[|[|j]]] Hj; try lia; reflexivity. }
    split.
    + intros j Hj. rewrite (Hv j Hj), (Hv a Ha). apply Hleast, Hj.
    + intros j Hj. rewrite (Hv j Hj), (Hv a Ha). apply Hfirst, Hj.
Qed.

(** Four unit boxes in a row and four bins per axis, in binary64.  On the
    second and third axis every primitive lies in one bin, one side of every
    split is empty and its cost is not a number (zero times an infinite
    surface), which is not above the largest double. *)
Lemma find_best_split_binned_boxes :
  exists (best_axis : nat) (cut_pos : Vec3 float) (minBin : Vec3 nat),
    find_best_split_binned Scenario.boxes_d [0; 1; 2; 3]%N
      (mkVec3 0 0 0)%float (mkVec3 4 1 1)%float 4%N
    = Some (best_axis, cut_pos)
    /\ (forall j, (j < 3)%nat ->
          let l := axis_bins (bin Scenario.binned_d) 4%N j in
          (1 <= vget minBin j <= N.to_nat 4 - 1)%nat
          /\ vget cut_pos j
             = (lit (N.of_nat (vget minBin j))
                * ((vget (mkVec3 4 1 1)%float j - vget (mkVec3 0 0 0)%float j)
                   / lit 4)
                + vget (mkVec3 0 0 0)%float j)%sc
          /\ forall i, (1 <= i <= N.to_nat 4 - 1)%nat ->
               (code_cost l i <? code_cost l (vget minBin j))%sc = false)
    /\ (let min_cost := fun j =>
           capped (code_cost (axis_bins (bin Scenario.binned_d) 4%N j)
                     (vget minBin j)) in
        (best_axis < 3)%nat
        /\ (forall j, (j < 3)%nat ->
              (min_cost j <? min_cost best_axis)%sc = false)
        /\ (forall j, (j < 3)%nat ->
              min_cost j = min_cost best_axis -> (best_axis <= j)%nat)).
Proof.
  apply (find_best_split_binned_minimises_code_cost ScalarOrder_double Scenario.boxes_d
           [0; 1; 2; 3]%N (mkVec3 0 0 0)%float (mkVec3 4 1 1)%float 4%N
           Scenario.binned_d).
  - lia.
  - lia.
  - vm_compute. reflexivity.
  - intros [|[|[|j]]] Hj; [vm_compute; reflexivity ..|lia].
Defined.

(** The value of the search on the four boxes: the first axis and the cut
    positions 1, 1/4 and 1/4; on the second and third axis [min_cost] stays at
    the largest double and [minBin] at 1. *)
Lemma find_best_split_binned_boxes_double :
  find_best_split_binned Scenario.boxes_d [0; 1; 2; 3]%N
    (mkVec3 0 0 0)%float (mkVec3 4 1 1)%float 4%N
  = Some (0%nat, mkVec3 1 0.25 0.25)%float.
Proof. vm_compute. reflexivity. Qed.

(** C7: the search misses the cheapest split.  On the five boxes away from
    zero, with four bins per axis, the bins of the first axis hold 2, 2, 1
    and 0 primitives.  The cost of the split at position 1, the count times
    the surface of the box of the bins on its left plus the count times the
    surface of the box of the bins on its right, is 54, strictly below the
    cost 62 of the split at position 2; but [find_best_split_binned] returns
    the first axis with the cut position 2, that is [minBin = 2].  The costs
    it compares are 27702 and 8766: the box of the bins on the right is
    accumulated from [(max, 0, 0)] and [(-max, 0, 0)] and reaches from 0 to
    65 on the second and third axis. *)
Theorem find_best_split_binned_skips_cheaper_split :
  find_best_split_binned Examples.boxes_high [0; 1; 2; 3; 4]%N
    (mkVec3 0 64 64)%float (mkVec3 4 65 65)%float 4%N
  = Some (0%nat, mkVec3 2 64.25 64.25)%float
  /\ count <$> axis_bins (bin Examples.binned_high) 4%N 0 = [2; 2; 1; 0]%N
  /\ split_cost (axis_bins (bin Examples.binned_high) 4%N 0) <$> [1; 2]%nat
     = [54; 62]%float
  /\ (54 <? 62)%float = true
  /\ code_cost (axis_bins (bin Examples.binned_high) 4%N 0) <$> [1; 2]%nat
     = [27702; 8766]%float
  /\ sw_bmin (list_sweep (axis_bins (bin Examples.binned_high) 4%N 0) 1)
     = (mkVec3 1 0 0)%float
  /\ sw_bmin (right_sweep (axis_bins (bin Examples.binned_high) 4%N 0) 1)
     = (mkVec3 1 64 64)%float.
Proof. repeat split; vm_compute; reflexivity. Qed.

(** * Further properties *)

(** ** Numbers among the scalars *)

(** ** Numbers among the rationals and the doubles *)

Lemma num_Q (x : Q) : num x.
Proof. unfold num. simpl. apply Qeq_bool_refl. Qed.

#[export] Instance ScalarTotal_Q : ScalarTotal Q.
Proof.
  split; simpl.
  - intros x y z _ Hxy Hyz. apply Qltb_ge in Hxy, Hyz. apply Qltb_ge.
    exact (Qle_trans _ _ _ Hyz Hxy).
  - intros x y _ _. unfold Qltb. rewrite negb_involutive. reflexivity.
Qed.

Lemma SFltb_negtrans (x y z : spec_float) :
  SFeqb y y = true -> SFltb x y = false -> SFltb y z = false -> SFltb x z = false.
Proof. destruct x, y, z; sf_cases. Qed.

Lemma SFleb_ltb (x y : spec_float) :
  SFeqb x x = true -> SFeqb y y = true -> SFleb x y = negb (SFltb y x).
Proof. destruct x, y; sf_cases. Qed.

(** in binary64 the numbers are the doubles other than NaN *)
#[export] Instance ScalarTotal_double : ScalarTotal float.
Proof.
  split; unfold num; simpl.
  - intros x y z. rewrite FloatAxioms.eqb_spec, !ltb_spec. apply SFltb_negtrans.
  - intros x y. rewrite !FloatAxioms.eqb_spec, leb_spec, ltb_spec. apply SFleb_ltb.
Qed.

(** ** The life of a scene (scene.h) *)

Section SceneOpsFacts.
Context {T : Type} `{Scalar T} `{Accel T}.
Import SceneOps.

(** what a single call keeps *)
Lemma step_keeps (s : BlazertScene.t T) (o : op T) :
  let s' := snd (step s o) in
  BlazertScene.build_options s' = BlazertScene.build_options s
  /\ BlazertScene.trace_options s' = BlazertScene.trace_options s
  /\ (BlazertScene.has_been_committed s = true ->
      BlazertScene.has_been_committed s' = true
      /\ BlazertScene.has_triangles s' = BlazertScene.has_triangles s
      /\ BlazertScene.has_spheres s' = BlazertScene.has_spheres s
      /\ BlazertScene.triangles s' = BlazertScene.triangles s
      /\ BlazertScene.spheres s' = BlazertScene.spheres s
      /\ BlazertScene.geometries s' = BlazertScene.geometries s
      /\ forall id, fst (step s o) = Some id -> id = u32 (-1))
  /\ (BlazertScene.has_triangles s = true ->
      BlazertScene.has_triangles s' = true
      /\ BlazertScene.triangles s' = BlazertScene.triangles s
      /\ BlazertScene.triangles_sah s' = BlazertScene.triangles_sah s)
  /\ (BlazertScene.has_spheres s = true ->
      BlazertScene.has_spheres s' = true
      /\ BlazertScene.spheres s' = BlazertScene.spheres s
      /\ BlazertScene.spheres_sah s' = BlazertScene.spheres_sah s).
Proof.
  destruct o as [vs fs|cs rs|]; simpl.
  - unfold BlazertScene.add_mesh.
    destruct (BlazertScene.has_triangles s) eqn:Ht,
             (BlazertScene.has_been_committed s) eqn:Hc; simpl;
      rewrite ?Ht, ?Hc; repeat split; try discriminate; try congruence.
  - unfold BlazertScene.add_spheres.
    destruct (BlazertScene.has_spheres s) eqn:Ht,
             (BlazertScene.has_been_committed s) eqn:Hc; simpl;
      rewrite ?Ht, ?Hc; repeat split; try discriminate; try congruence.
  - destruct (commit_frame s) as (Ht & Hs & E1 & E2 & E3 & E4 & E5 & E6 & E7).
    simpl in *. repeat split; try assumption; try discriminate; congruence.
Qed.

Lemma run_cons (s : BlazertScene.t T) (o : op T) (ops : list (op T)) :
  run s (o :: ops)
  = (match fst (step s o) with
     | Some id => id :: fst (run (snd (step s o)) ops)
     | None => fst (run (snd (step s o)) ops)
     end, snd (run (snd (step s o)) ops)).
Proof.
  simpl. destruct (step s o) as [r s1]. simpl.
  destruct (run s1 ops) as [ids s2]. reflexivity.
Qed.

(** X1: a committed scene is frozen.  Whatever calls follow a [commit], the
    scene stays committed, every [add_mesh] and [add_spheres] among them is
    refused with [-1], and the registered geometry, the two flags and the
    counter of geometries stay as they were. *)
Theorem committed_scene_is_frozen (s : BlazertScene.t T) (ops : list (op T)) :
  BlazertScene.has_been_committed s = true ->
  let r := run s ops in
  BlazertScene.has_been_committed (snd r) = true
  /\ registered (fst r) = []
  /\ BlazertScene.has_triangles (snd r) = BlazertScene.has_triangles s
  /\ BlazertScene.has_spheres (snd r) = BlazertScene.has_spheres s
  /\ BlazertScene.triangles (snd r) = BlazertScene.triangles s
  /\ BlazertScene.spheres (snd r) = BlazertScene.spheres s
  /\ BlazertScene.geometries (snd r) = BlazertScene.geometries s.
Proof.
  revert s. induction ops as [|o ops IH]; intros s Hc; cbv zeta.
  - simpl. repeat split. exact Hc.
  - rewrite run_cons. cbn [fst snd].
    destruct (step_keeps s o) as (_ & _ & Hk & _).
    destruct (Hk Hc) as (Hc' & Ht & Hs & Hm & Hsp & Hg & Hid).
    destruct (IH _ Hc') as (IH1 & IH2 & IH3 & IH4 & IH5 & IH6 & IH7).
    repeat split; try congruence.
    destruct (fst (step s o)) as [id|] eqn:Hr; [|exact IH2].
    unfold registered in *. rewrite filter_cons.
    rewrite (Hid id eq_refl). rewrite decide_False by (intros Hne; apply Hne; reflexivity).
    exact IH2.
Qed.

(** X2: the geometry of a class is registered once.  Whatever calls follow,
    a mesh that the scene holds is never replaced (nor its predicate), and
    neither are the spheres; the options of the scene never change. *)
Theorem registered_geometry_is_kept (s : BlazertScene.t T) (ops : list (op T)) :
  let s' := snd (run s ops) in
  BlazertScene.build_options s' = BlazertScene.build_options s
  /\ BlazertScene.trace_options s' = BlazertScene.trace_options s
  /\ (BlazertScene.has_triangles s = true ->
      BlazertScene.has_triangles s' = true
      /\ BlazertScene.triangles s' = BlazertScene.triangles s
      /\ BlazertScene.triangles_sah s' = BlazertScene.triangles_sah s)
  /\ (BlazertScene.has_spheres s = true ->
      BlazertScene.has_spheres s' = true
      /\ BlazertScene.spheres s' = BlazertScene.spheres s
      /\ BlazertScene.spheres_sah s' = BlazertScene.spheres_sah s).
Proof.
  revert s. induction ops as [|o ops IH]; intros s; cbv zeta.
  - simpl. split; [reflexivity|]. split; [reflexivity|].
    split; intros Hx; repeat split; exact Hx.
  - rewrite run_cons. cbn [fst snd].
    destruct (step_keeps s o) as (Hb & Ho & _ & Ht & Hs).
    destruct (IH (snd (step s o))) as (IHb & IHo & IHt & IHs).
    split; [congruence|]. split; [congruence|]. split.
    + intros Htri. destruct (Ht Htri) as (H1 & H2 & H3).
      destruct (IHt H1) as (H4 & H5 & H6). repeat split; congruence.
    + intros Hsph. destruct (Hs Hsph) as (H1 & H2 & H3).
      destruct (IHs H1) as (H4 & H5 & H6). repeat split; congruence.
Qed.

End SceneOpsFacts.

Section SceneIdsFacts.
Context {T : Type} `{Scalar T} `{Accel T}.
Import SceneOps.

Lemma u32_minus_one : u32 (-1) = 4294967295%N.
Proof. reflexivity. Qed.

Lemma step_ids (s : BlazertScene.t T) (o : op T) :
  well_counted s ->
  let g := BlazertScene.geometries s in
  let s' := snd (step s o) in
  well_counted s'
  /\ ((fst (step s o) = Some g /\ BlazertScene.geometries s' = (g + 1)%N)
      \/ ((fst (step s o) = Some (u32 (-1)) \/ fst (step s o) = None)
          /\ BlazertScene.geometries s' = g)).
Proof.
  unfold well_counted. intros Hw.
  destruct o as [vs fs|cs rs|]; simpl.
  - unfold BlazertScene.add_mesh.
    destruct (BlazertScene.has_triangles s) eqn:Ht,
             (BlazertScene.has_been_committed s) eqn:Hc; simpl;
      rewrite ?Ht; try (split; [exact Hw|right; split; [left|]; reflexivity]).
    rewrite Hw. simpl.
    destruct (BlazertScene.has_spheres s); simpl;
      (split; [reflexivity|left; split; reflexivity]).
  - unfold BlazertScene.add_spheres.
    destruct (BlazertScene.has_spheres s) eqn:Hs,
             (BlazertScene.has_been_committed s) eqn:Hc; simpl;
      rewrite ?Hs; try (split; [exact Hw|right; split; [left|]; reflexivity]).
    rewrite Hw. simpl.
    destruct (BlazertScene.has_triangles s); simpl;
      (split; [reflexivity|left; split; reflexivity]).
  - destruct (commit_frame s) as (Ht & Hs & _ & _ & _ & _ & _ & _ & Hg).
    simpl in *. split; [congruence|]. right. split; [right; reflexivity|exact Hg].
Qed.

Lemma run_ids (ops : list (op T)) :
  forall s : BlazertScene.t T,
    well_counted s ->
    let g := BlazertScene.geometries s in
    let r := run s ops in
    let g' := BlazertScene.geometries (snd r) in
    well_counted (snd r)
    /\ (g <= g')%N
    /\ registered (fst r)
       = N.of_nat <$> seq (N.to_nat g) (N.to_nat g' - N.to_nat g).
Proof.
  induction ops as [|o ops IH]; intros s Hw; cbv zeta.
  - simpl. split; [exact Hw|]. split; [lia|].
    rewrite Nat.sub_diag. reflexivity.
  - rewrite run_cons. cbn [fst snd].
    destruct (step_ids s o Hw) as (Hw' & Hstep).
    destruct (IH _ Hw') as (IHw & IHle & IHids).
    assert (Hg2 : (BlazertScene.geometries s <= 2)%N).
    { rewrite Hw. destruct (BlazertScene.has_triangles s),
        (BlazertScene.has_spheres s); simpl; lia. }
    split; [exact IHw|].
    destruct Hstep as [[Hid Hg]|[Hid Hg]].
    + rewrite Hid. split; [lia|].
      unfold registered in *. rewrite filter_cons_True
        by (rewrite u32_minus_one; lia).
      rewrite IHids, Hg.
      replace (N.to_nat (BlazertScene.geometries (snd (run (snd (step s o)) ops)))
               - N.to_nat (BlazertScene.geometries s))%nat
        with (Datatypes.S
                (N.to_nat (BlazertScene.geometries (snd (run (snd (step s o)) ops)))
                 - N.to_nat (BlazertScene.geometries s + 1)))%nat by lia.
      cbn [seq fmap list_fmap]. rewrite N2Nat.id.
      replace (N.to_nat (BlazertScene.geometries s + 1))
        with (Datatypes.S (N.to_nat (BlazertScene.geometries s))) by lia.
      reflexivity.
    + split; [lia|]. rewrite <- Hg. rewrite <- IHids.
      destruct Hid as [-> | ->]; [|reflexivity].
      unfold registered. apply filter_cons_False. intros Hne. apply Hne. reflexivity.
Qed.

(** X3: geometry ids.  From the empty scene, whatever the calls, the ids
    that [add_mesh] and [add_spheres] return when they register a geometry
    are 0, 1, ... in the order of the registrations, up to the counter of
    geometries, which counts the registered classes and never exceeds 2: no
    id is given twice, and [-1] is no id. *)
Theorem geometry_ids_count_up (bo : BVHBuildOptions) (to : BVHTraceOptions)
    (bvh0 : BVH) (ops : list (op T)) :
  let r := run (BlazertScene.empty bo to bvh0) ops in
  let g := BlazertScene.geometries (snd r) in
  registered (fst r) = N.of_nat <$> seq 0 (N.to_nat g)
  /\ g = (N.b2n (BlazertScene.has_triangles (snd r))
          + N.b2n (BlazertScene.has_spheres (snd r)))%N
  /\ (g <= 2)%N.
Proof.
  cbv zeta.
  destruct (run_ids ops (BlazertScene.empty bo to bvh0) eq_refl)
    as (Hw & _ & Hids).
  cbv zeta in Hids.
  change (BlazertScene.geometries (BlazertScene.empty bo to bvh0)) with 0%N in Hids.
  change (N.to_nat 0) with 0%nat in Hids. rewrite Nat.sub_0_r in Hids.
  split; [exact Hids|]. split; [exact Hw|].
  rewrite Hw. destruct (BlazertScene.has_triangles _), (BlazertScene.has_spheres _);
    simpl; lia.
Qed.

(** X4: the record of a query.  When [intersect1] returns false it leaves
    the caller's record untouched; when it returns true the record is the one
    that the traversal of a registered class filled in and that traversal
    reported a hit; and a scene without registered geometry is a miss. *)
Theorem intersect1_record (scene : BlazertScene.t T) (ray : Ray T)
    (rayhit : RayHit T) :
  let rt := traverse_triangles (BlazertScene.triangles_bvh scene) ray
              (BlazertScene.triangles scene) RayHit_default
              (BlazertScene.trace_options scene) in
  let temp := if BlazertScene.has_triangles scene then snd rt else RayHit_default in
  let rs := traverse_spheres (BlazertScene.spheres_bvh scene) ray
              (BlazertScene.spheres scene) temp
              (BlazertScene.trace_options scene) in
  let r := BlazertScene.intersect1 scene ray rayhit in
  (fst r = false -> snd r = rayhit)
  /\ (fst r = true ->
      (BlazertScene.has_triangles scene = true /\ fst rt = true /\ snd r = snd rt)
      \/ (BlazertScene.has_spheres scene = true /\ fst rs = true /\ snd r = snd rs))
  /\ (BlazertScene.has_triangles scene = false ->
      BlazertScene.has_spheres scene = false -> r = (false, rayhit)).
Proof.
  cbv zeta. unfold BlazertScene.intersect1.
  destruct (BlazertScene.has_triangles scene) eqn:Ht,
           (BlazertScene.has_spheres scene) eqn:Hs;
    try (destruct (traverse_triangles _ _ _ _ _) as [[] ht]); cbn [fst snd];
    try (destruct (traverse_spheres _ _ _ _ _) as [[] hs]); cbn [fst snd orb];
    try (destruct (s_ltb _ _)); cbn [fst snd];
    intuition (try discriminate; try reflexivity).
Qed.

End SceneIdsFacts.

(** ** The outcome of [Intersect] (blazert.h) *)

Section IntersectOutcome.
Context {T : Type} `{Scalar T}.
Import TriangleIntersector.

Lemma same_query_refl (I : t T) : same_query I I.
Proof. repeat split. Qed.

Lemma same_query_sym (I J : t T) : same_query I J -> same_query J I.
Proof. intros (?&?&?&?&?&?). repeat split; congruence. Qed.

Lemma same_query_trans (I J K : t T) :
  same_query I J -> same_query J K -> same_query I K.
Proof. intros (?&?&?&?&?&?) (?&?&?&?&?&?). repeat split; congruence. Qed.

(** a miss leaves everything as it was *)
Lemma Intersect_miss (I : t T) (t_inout : T) (p : N) (t' : T) (I' : t T) :
  Intersect I t_inout p = Some (false, t', I') -> t' = t_inout /\ I' = I.
Proof.
  rewrite Intersect_unfold.
  destruct (admitted _ _); simpl; [|intros [= <- <-]; split; reflexivity].
  destruct (relative_vertices I p) as [[[A B] C]|]; [|discriminate].
  simpl. destruct (edge_functions _ _ _ _) as [[U V] W].
  destruct (inside_rejects _ U V W); [intros [= <- <-]; split; reflexivity|].
  unfold depth_test.
  repeat case_match; intros [= <- <-]; split; reflexivity.
Qed.

(** a hit is admitted, lies in the window of distances and changes [uv_] only *)
Lemma Intersect_hit_facts (I I' : t T) (t_inout t' : T) (p : N) :
  Intersect I t_inout p = Some (true, t', I') ->
  admitted (trace_options_ I) p = true
  /\ (t_inout <? t')%sc = false
  /\ (t' <? t_min_ I)%sc = false
  /\ I' = set_uv (uv_ I') I.
Proof.
  intros Hi. apply Intersect_hit in Hi
    as (A & B & C & U & V & W & Ha & _ & _ & _ & _ & _ & Hgt & Hlt & ->).
  repeat split; assumption.
Qed.

(** X5: the outcome of [Intersect].  A miss leaves [*t_inout] and the
    intersector untouched.  A hit is reported for an admitted primitive only;
    its distance is not above the best distance passed in and not below
    [t_min_], and of the intersector only [uv_] changes. *)
Theorem Intersect_outcome (I I' : t T) (t_inout t' : T) (p : N) (h : bool) :
  Intersect I t_inout p = Some (h, t', I') ->
  (h = false -> t' = t_inout /\ I' = I)
  /\ (h = true ->
      admitted (trace_options_ I) p = true
      /\ (t_inout <? t')%sc = false
      /\ (t' <? t_min_ I)%sc = false
      /\ I' = set_uv (uv_ I') I).
Proof.
  intros Hi. split; intros ->.
  - exact (Intersect_miss _ _ _ _ _ Hi).
  - exact (Intersect_hit_facts _ _ _ _ _ Hi).
Qed.

(** X6: what [Intersect] reads.  The hit recorded so far ([t_], [uv_],
    [prim_id_]) has no influence: two intersectors over the same mesh, ray and
    options give the same answer and the same distance, and the same [uv_] on
    a hit. *)
Theorem Intersect_reads_the_query_only (I J : t T) (t_inout : T) (p : N) :
  same_query I J ->
  Intersect J t_inout p
  = (fun r : bool * T * t T =>
       (fst (fst r), snd (fst r),
        if fst (fst r) then set_uv (uv_ (snd r)) J else J))
    <$> Intersect I t_inout p.
Proof.
  intros Hsame. rewrite !Intersect_unfold.
  rewrite (relative_vertices_same_query I J p Hsame).
  destruct Hsame as (_ & _ & _ & Hc & Ho & Hm). rewrite Ho, Hc.
  destruct (admitted _ _); simpl; [|reflexivity].
  destruct (relative_vertices I p) as [[[A B] C]|]; [|reflexivity].
  simpl. destruct (edge_functions _ _ _ _) as [[U V] W].
  destruct (inside_rejects _ U V W); [reflexivity|].
  unfold depth_test. rewrite ?Hm, ?Hc.
  repeat case_match; reflexivity.
Qed.

End IntersectOutcome.

(** ** The closest hit of a leaf (bvh/intersect.h) *)

Section LeafFacts.
Context {T : Type} `{Scalar T} {HO : ScalarOrder T} {HT : ScalarTotal T}.
Import TriangleIntersector.

Lemma hittable_same_query (I J : t T) (p : N) (d : T) :
  same_query I J -> hittable J p d -> hittable I p d.
Proof.
  intros Hsame (t0 & J' & HJ).
  destruct (Intersect_hit_facts _ _ _ _ _ HJ) as (_ & Hgt & _ & _).
  exists t0, (set_uv (uv_ J') I).
  exact (Intersect_hit_again J I t0 t0 d p J' HJ (same_query_sym _ _ Hsame) Hgt).
Qed.

Lemma hittable_unique (I : t T) (p : N) (d d' : T) :
  hittable I p d -> hittable I p d' -> d = d'.
Proof.
  intros (t0 & I0 & H0) (t1 & I1 & H1).
  apply Intersect_hit in H0
    as (A & B & C & U & V & W & _ & Hv & He & _ & _ & -> & _).
  apply Intersect_hit in H1
    as (A' & B' & C' & U' & V' & W' & _ & Hv' & He' & _ & _ & -> & _).
  rewrite Hv in Hv'. injection Hv' as <- <- <-.
  rewrite He in He'. injection He' as <- <- <-. reflexivity.
Qed.

(** a candidate is a miss exactly for the best distances strictly below it *)
Lemma hittable_decides (I J : t T) (p : N) (d t_inout : T) :
  hittable I p d -> same_query I J ->
  ((t_inout <? d)%sc = true -> Intersect J t_inout p = Some (false, t_inout, J))
  /\ ((t_inout <? d)%sc = false ->
      exists J', Intersect J t_inout p = Some (true, d, J')).
Proof.
  intros (t0 & I0 & H0) Hsame. split; intros Hd.
  - apply Intersect_hit in H0
      as (A & B & C & U & V & W & Ha & Hv & He & Hin & Hdet & -> & _ & _ & _).
    rewrite Intersect_unfold.
    rewrite (relative_vertices_same_query I J p Hsame).
    destruct Hsame as (_ & _ & _ & Hc & Ho & Hm).
    rewrite Ho, Hc, Ha, Hv. simpl. rewrite He, Hin.
    unfold depth_test. rewrite Hdet, Hc, Hd. reflexivity.
  - eexists. exact (Intersect_hit_again I J t0 t_inout d p I0 H0 Hsame Hd).
Qed.

Section Loop.
Variables (I : t T) (ray : Ray T).
Hypothesis Hany : any_hit ray = false.

Lemma leaf_step (J J1 : t T) (p : N) (h1 : bool) :
  same_query I J ->
  intersect_primitive_triangle J p ray = Some (h1, J1) ->
  same_query I J1
  /\ (h1 = true ->
      hittable I p (t_ J1) /\ prim_id_ J1 = p /\ (t_ J <? t_ J1)%sc = false)
  /\ (h1 = false ->
      J1 = J /\ forall d, hittable I p d -> (t_ J <? d)%sc = true).
Proof.
  intros Hsame. unfold intersect_primitive_triangle.
  destruct (Intersect J (GetT J) p) as [[[h0 t0] I0]|] eqn:Hi; [|discriminate].
  simpl. destruct h0; intros [= <- <-].
  - destruct (Intersect_hit_facts _ _ _ _ _ Hi) as (_ & Hgt & _ & HI0).
    split.
    + rewrite HI0. eapply same_query_trans; [exact Hsame|].
      apply same_query_Update_set_uv.
    + split; [|discriminate]. intros _. split; [|split; [reflexivity|exact Hgt]].
      apply (hittable_same_query I J); [exact Hsame|].
      exists (GetT J), I0. exact Hi.
  - destruct (Intersect_miss _ _ _ _ _ Hi) as [-> ->].
    split; [exact Hsame|]. split; [discriminate|]. intros _.
    split; [reflexivity|]. intros d Hd.
    destruct (t_ J <? d)%sc eqn:Hlt; [reflexivity|].
    destruct (proj2 (hittable_decides I J p d (t_ J) Hd Hsame) Hlt) as [J' HJ'].
    unfold GetT in Hi. rewrite Hi in HJ'. discriminate.
Qed.

Lemma leaf_closest_loop (prims : list N) :
  forall (J J' : t T) (hit h' : bool),
    same_query I J ->
    num (t_ J) ->
    (forall p d, p ∈ prims -> hittable I p d -> num d) ->
    intersect_leaf_loop intersect_primitive_triangle prims J ray hit
    = Some (h', J') ->
    same_query I J'
    /\ num (t_ J')
    /\ (t_ J <? t_ J')%sc = false
    /\ (forall p d, p ∈ prims -> hittable I p d -> (d <? t_ J')%sc = false)
    /\ ((h' = hit /\ J' = J
         /\ forall p d, p ∈ prims -> hittable I p d -> (t_ J <? d)%sc = true)
        \/ (h' = true /\ prim_id_ J' ∈ prims
            /\ hittable I (prim_id_ J') (t_ J'))).
Proof.
  induction prims as [|p rest IH]; intros J J' hit h' Hsame Hnum Hcands.
  - simpl. intros [= <- <-]. split; [exact Hsame|]. split; [exact Hnum|].
    split; [apply ltb_irrefl|]. split; [intros p d Hp; inversion Hp|].
    left. split; [reflexivity|]. split; [reflexivity|].
    intros p d Hp. inversion Hp.
  - cbn [intersect_leaf_loop].
    destruct (intersect_primitive_triangle J p ray) as [[h1 J1]|] eqn:Hstep;
      [|discriminate].
    cbn [mbind option_bind]. rewrite Hany, andb_false_r.
    destruct (leaf_step J J1 p h1 Hsame Hstep) as (Hsame1 & Hhit1 & Hmiss1).
    assert (Hnum1 : num (t_ J1)).
    { destruct h1.
      - destruct (Hhit1 eq_refl) as (Hh & _ & _).
        exact (Hcands p _ ltac:(left) Hh).
      - destruct (Hmiss1 eq_refl) as [-> _]. exact Hnum. }
    assert (Hle1 : (t_ J <? t_ J1)%sc = false).
    { destruct h1.
      - destruct (Hhit1 eq_refl) as (_ & _ & Hle). exact Hle.
      - destruct (Hmiss1 eq_refl) as [-> _]. apply ltb_irrefl. }
    intros Hrest.
    destruct (IH J1 J' (hit || h1) h' Hsame1 Hnum1
                ltac:(intros q d Hq; apply Hcands; right; exact Hq) Hrest)
      as (Hsame' & Hnum' & Hle' & Hlow & Hcase).
    assert (Hle : (t_ J <? t_ J')%sc = false)
      by exact (num_negtrans _ _ _ Hnum1 Hle1 Hle').
    split; [exact Hsame'|]. split; [exact Hnum'|]. split; [exact Hle|].
    split.
    + intros q d Hq Hd. apply elem_of_cons in Hq as [->|Hq]; [|exact (Hlow q d Hq Hd)].
      destruct h1.
      * destruct (Hhit1 eq_refl) as (Hh & _ & _).
        rewrite (hittable_unique I p d _ Hd Hh). exact Hle'.
      * destruct (Hmiss1 eq_refl) as [_ Hbeyond].
        destruct (d <? t_ J')%sc eqn:Hlt; [|reflexivity].
        rewrite (ltb_trans _ _ _ (Hbeyond d Hd) Hlt) in Hle. discriminate.
    + destruct Hcase as [(-> & -> & Hbeyond)|(-> & Hin & Hh)].
      * destruct h1.
        -- right. destruct (Hhit1 eq_refl) as (Hh & Hp & _).
           split; [apply orb_true_r|]. split; [rewrite Hp; left|].
           rewrite Hp. exact Hh.
        -- left. destruct (Hmiss1 eq_refl) as [-> Hb].
           split; [apply orb_false_r|]. split; [reflexivity|].
           intros q d Hq Hd. apply elem_of_cons in Hq as [->|Hq];
             [exact (Hb d Hd)|exact (Hbeyond q d Hq Hd)].
      * right. split; [reflexivity|]. split; [right; exact Hin|exact Hh].
Qed.

End Loop.

(** X10: the closest hit of a leaf.  In closest-hit mode ([any_hit] false),
    over candidates whose distances are numbers, the loop over the primitives
    of a leaf ends with the least distance: no candidate of the leaf lies
    strictly below the recorded distance, which is not above the best
    distance at entry.  When the loop reports a hit, the recorded primitive is
    one of the leaf and the recorded distance is its distance; when it reports
    none, the intersector is untouched and every candidate of the leaf lies
    strictly beyond the best distance at entry. *)
Theorem intersect_leaf_closest (node : Node T N) (I J : t T) (ray : Ray T)
    (h : bool) :
  any_hit ray = false ->
  num (t_ I) ->
  (forall p d, p ∈ primitives node -> hittable I p d -> num d) ->
  intersect_leaf intersect_primitive_triangle node I ray = Some (h, J) ->
  (forall p d, p ∈ primitives node -> hittable I p d -> (d <? t_ J)%sc = false)
  /\ (t_ I <? t_ J)%sc = false
  /\ (h = true ->
      prim_id_ J ∈ primitives node /\ hittable I (prim_id_ J) (t_ J))
  /\ (h = false ->
      J = I
      /\ forall p d, p ∈ primitives node -> hittable I p d -> (t_ I <? d)%sc = true).
Proof.
  intros Hany Hnum Hcands Hleaf.
  destruct (leaf_closest_loop I ray Hany (primitives node) I J false h
              (same_query_refl I) Hnum Hcands Hleaf)
    as (_ & _ & Hle & Hlow & Hcase).
  split; [exact Hlow|]. split; [exact Hle|].
  destruct Hcase as [(-> & -> & Hbeyond)|(-> & Hin & Hh)].
  - split; [discriminate|]. intros _. split; [reflexivity|exact Hbeyond].
  - split; [intros _; split; assumption|discriminate].
Qed.

End LeafFacts.

(** ** The loop over a leaf and the axes of the traversal *)

Section LeafLoopFacts.
Context {T I P : Type}.
Variable f : I -> P -> Ray T -> option (bool * I).

Lemma intersect_leaf_loop_app (ray : Ray T) (l1 l2 : list P) :
  forall (i : I) (h : bool),
    h && any_hit ray = false ->
    intersect_leaf_loop f (l1 ++ l2) i ray h
    = r ← intersect_leaf_loop f l1 i ray h;
      if fst r && any_hit ray then Some r
      else intersect_leaf_loop f l2 (snd r) ray (fst r).
Proof.
  induction l1 as [|p l1 IH]; intros i h Hh.
  - cbn [app intersect_leaf_loop mbind option_bind fst snd]. rewrite Hh. reflexivity.
  - cbn [app intersect_leaf_loop].
    destruct (f i p ray) as [[h1 i1]|]; cbn [mbind option_bind]; [|reflexivity].
    destruct ((h || h1) && any_hit ray) eqn:Hbr.
    + cbn [mbind option_bind fst]. rewrite Hbr. reflexivity.
    + apply IH. exact Hbr.
Qed.

(** X9: the two modes of the loop over a leaf.  In any-hit mode the loop
    stops at the first primitive that reports a hit: the primitives after it
    are not tested, whatever they are.  In closest-hit mode every primitive is
    tested, so that the loop over a list is the loop over its first part
    followed by the loop over the rest. *)
Theorem intersect_leaf_modes (ray : Ray T) (l1 l2 : list P) (i : I) :
  (any_hit ray = true ->
   forall (p : P) (i1 i2 : I) (bmin bmax : Vec3 T),
     intersect_leaf_loop f l1 i ray false = Some (false, i1) ->
     f i1 p ray = Some (true, i2) ->
     intersect_leaf f (mkNode bmin bmax (l1 ++ p :: l2)) i ray = Some (true, i2))
  /\ (any_hit ray = false ->
      forall h : bool,
        intersect_leaf_loop f (l1 ++ l2) i ray h
        = r ← intersect_leaf_loop f l1 i ray h;
          intersect_leaf_loop f l2 (snd r) ray (fst r)).
Proof.
  split.
  - intros Hany p i1 i2 bmin bmax Hl1 Hp. unfold intersect_leaf.
    cbn [primitives].
    rewrite intersect_leaf_loop_app by reflexivity.
    rewrite Hl1. cbn [mbind option_bind fst snd andb intersect_leaf_loop].
    rewrite Hp. cbn [mbind option_bind orb]. rewrite Hany. reflexivity.
  - intros Hany h.
    rewrite intersect_leaf_loop_app by (rewrite Hany; apply andb_false_r).
    destruct (intersect_leaf_loop f l1 i ray h) as [r|]; [|reflexivity].
    cbn [mbind option_bind]. rewrite Hany, andb_false_r. reflexivity.
Qed.

End LeafLoopFacts.

Section PrepareFacts.
Context {T : Type} `{Scalar T} {HO : ScalarOrder T}.
Import TriangleIntersector.

(** [argmax] returns an index of a largest component *)
Lemma argmax_spec (v : Vec3 T) :
  (argmax v < 3)%nat
  /\ forall i, (i < 3)%nat -> (vget v (argmax v) <? vget v i)%sc = false.
Proof.
  unfold argmax. simpl.
  destruct (vx v <? vy v)%sc eqn:H01; simpl.
  - destruct (vy v <? vz v)%sc eqn:H12; simpl.
    + split; [lia|]. intros [|[|[|i]]] Hi; simpl; try lia.
      * apply ltb_asym. exact (ltb_trans _ _ _ H01 H12).
      * apply ltb_asym, H12.
      * apply ltb_irrefl.
    + split; [lia|]. intros [|[|[|i]]] Hi; simpl; try lia.
      * apply ltb_asym, H01.
      * apply ltb_irrefl.
      * exact H12.
  - destruct (vx v <? vz v)%sc eqn:H02; simpl.
    + split; [lia|]. intros [|[|[|i]]] Hi; simpl; try lia.
      * apply ltb_asym, H02.
      * destruct (vz v <? vy v)%sc eqn:H21; [|reflexivity].
        rewrite (ltb_trans _ _ _ H02 H21) in H01. discriminate.
      * apply ltb_irrefl.
    + split; [lia|]. intros [|[|[|i]]] Hi; simpl; try lia.
      * apply ltb_irrefl.
      * exact H01.
      * exact H02.
Qed.

(** X7: the axes of the traversal.  [PrepareTraversal] chooses as [k[2]] an
    axis along which the direction of the ray is largest in absolute value,
    and as [k[0]], [k[1]] the two other axes: the three are a permutation of
    0, 1, 2, in cyclic order when the direction is not negative along [k[2]]
    and in the opposite order otherwise.  The call does not touch the recorded
    distance and primitive. *)
Theorem PrepareTraversal_axes (ray : Ray T) (o : BVHTraceOptions) (I : t T) :
  let I' := PrepareTraversal ray o I in
  let k0 := vx (k (ray_coeff_ I')) in
  let k1 := vy (k (ray_coeff_ I')) in
  let k2 := vz (k (ray_coeff_ I')) in
  k2 = argmax (vabs (dir ray))
  /\ (forall i, (i < 3)%nat ->
        (s_abs (vget (dir ray) k2) <? s_abs (vget (dir ray) i))%sc = false)
  /\ (k0 < 3 /\ k1 < 3 /\ k2 < 3 /\ k0 <> k1 /\ k1 <> k2 /\ k0 <> k2)%nat
  /\ (if (vget (dir ray) k2 >=? lit 0)%sc
      then k0 = ((k2 + 1) mod 3)%nat /\ k1 = ((k2 + 2) mod 3)%nat
      else k0 = ((k2 + 2) mod 3)%nat /\ k1 = ((k2 + 1) mod 3)%nat)
  /\ t_ I' = t_ I /\ prim_id_ I' = prim_id_ I.
Proof.
  cbv zeta. unfold PrepareTraversal.
  destruct (argmax_spec (vabs (dir ray))) as [Hlt Hmax].
  set (a := argmax (vabs (dir ray))) in *.
  assert (Hvabs : forall i, vget (vabs (dir ray)) i = s_abs (vget (dir ray) i)).
  { intros [|[|i]]; reflexivity. }
  assert (Ha : (a mod 3 = a)%nat) by (apply Nat.mod_small; exact Hlt).
  destruct (vget (dir ray) a >=? lit 0)%sc eqn:Hsign;
    cbn [ray_coeff_ k vx vy vz t_ prim_id_]; rewrite !Ha, ?Hsign.
  - split; [reflexivity|]. split.
    { intros i Hi. rewrite <- !Hvabs. apply Hmax, Hi. }
    split; [|repeat split; f_equal; lia].
    destruct a as [|[|[|a]]]; simpl; lia.
  - split; [reflexivity|]. split.
    { intros i Hi. rewrite <- !Hvabs. apply Hmax, Hi. }
    split; [|repeat split; f_equal; lia].
    destruct a as [|[|[|a]]]; simpl; lia.
Qed.

End PrepareFacts.

(** ** Boxes: the box of a triangle and the slab test *)

Ltac in_list :=
  repeat first [apply list_elem_of_here | apply list_elem_of_further].

Section OrderFacts.
Context {T : Type} `{Scalar T} {HO : ScalarOrder T} {HT : ScalarTotal T}.

Lemma blaze_min_cases (a b : T) : blaze_min a b = a \/ blaze_min a b = b.
Proof. unfold blaze_min. destruct (a <? b)%sc; auto. Qed.

Lemma blaze_max_cases (a b : T) : blaze_max a b = a \/ blaze_max a b = b.
Proof. unfold blaze_max. destruct (a <? b)%sc; auto. Qed.

Lemma blaze_min_lb (a b : T) :
  (a <? blaze_min a b)%sc = false /\ (b <? blaze_min a b)%sc = false.
Proof.
  unfold blaze_min. destruct (a <? b)%sc eqn:Hab.
  - split; [apply ltb_irrefl | apply ltb_asym, Hab].
  - split; [exact Hab | apply ltb_irrefl].
Qed.

Lemma blaze_max_ub (a b : T) :
  (blaze_max a b <? a)%sc = false /\ (blaze_max a b <? b)%sc = false.
Proof.
  unfold blaze_max. destruct (a <? b)%sc eqn:Hab.
  - split; [apply ltb_asym, Hab | apply ltb_irrefl].
  - split; [apply ltb_irrefl | exact Hab].
Qed.

Lemma blaze_min_num (a b : T) : num a -> num b -> num (blaze_min a b).
Proof. intros Ha Hb. destruct (blaze_min_cases a b) as [-> | ->]; assumption. Qed.

Lemma blaze_max_num (a b : T) : num a -> num b -> num (blaze_max a b).
Proof. intros Ha Hb. destruct (blaze_max_cases a b) as [-> | ->]; assumption. Qed.

Lemma vget_vzip {A B C} (f : A -> B -> C) (u : Vec3 A) (v : Vec3 B) (k : nat) :
  vget (vzip f u v) k = f (vget u k) (vget v k).
Proof. destruct k as [|[|k]]; reflexivity. Qed.

(** X8: the box of a triangle.  When [BoundingBox] returns, the face and
    its three vertices exist, and along every axis on which the three
    coordinates are numbers the box encloses the three vertices and is
    tight: each of its two bounds is the coordinate of a vertex. *)
Theorem BoundingBox_encloses (m : TriangleMesh T) (prim_index : N)
    (bmin bmax : Vec3 T) :
  BoundingBox m prim_index = Some (bmin, bmax) ->
  exists (face : Vec3 N) (p0 p1 p2 : Vec3 T),
    at_ (faces m) prim_index = Some face
    /\ at_ (vertices m) (vget face 0) = Some p0
    /\ at_ (vertices m) (vget face 1) = Some p1
    /\ at_ (vertices m) (vget face 2) = Some p2
    /\ forall k : nat,
         num (vget p0 k) -> num (vget p1 k) -> num (vget p2 k) ->
         (forall v, v ∈ [p0; p1; p2] ->
            (vget v k <? vget bmin k)%sc = false
            /\ (vget bmax k <? vget v k)%sc = false)
         /\ (exists v, v ∈ [p0; p1; p2] /\ vget bmin k = vget v k)
         /\ (exists v, v ∈ [p0; p1; p2] /\ vget bmax k = vget v k).
Proof.
  unfold BoundingBox. intros Hbox.
  destruct (at_ (faces m) prim_index) as [face|] eqn:Hf; [|discriminate].
  cbn [mbind option_bind] in Hbox.
  destruct (at_ (vertices m) (vget face 0)) as [p0|] eqn:H0; [|discriminate].
  cbn [mbind option_bind foldl_opt fst snd] in Hbox.
  destruct (at_ (vertices m) (vget face 1)) as [p1|] eqn:H1; [|discriminate].
  cbn [mbind option_bind foldl_opt fst snd] in Hbox.
  destruct (at_ (vertices m) (vget face 2)) as [p2|] eqn:H2; [|discriminate].
  cbn [mbind option_bind foldl_opt fst snd] in Hbox.
  injection Hbox as <- <-.
  exists face, p0, p1, p2. repeat (split; [assumption || reflexivity|]).
  intros k N0 N1 N2. rewrite !vget_vzip.
  set (a := vget p0 k) in *. set (b := vget p1 k) in *. set (c := vget p2 k) in *.
  pose proof (blaze_min_lb a b) as [Hm0 Hm1].
  pose proof (blaze_min_lb (blaze_min a b) c) as [Hm01 Hm2].
  pose proof (blaze_max_ub a b) as [HM0 HM1].
  pose proof (blaze_max_ub (blaze_max a b) c) as [HM01 HM2].
  pose proof (blaze_min_num a b N0 N1) as Nm.
  pose proof (blaze_max_num a b N0 N1) as NM.
  split; [|split].
  - intros v Hv.
    apply elem_of_cons in Hv as [-> | Hv]; [|apply elem_of_cons in Hv as [-> | Hv]];
      [| |apply elem_of_cons in Hv as [-> | Hv]; [|apply elem_of_nil in Hv; contradiction]];
      fold a b c.
    + split.
      * exact (num_negtrans _ _ _ Nm Hm0 Hm01).
      * exact (num_negtrans _ _ _ NM HM01 HM0).
    + split.
      * exact (num_negtrans _ _ _ Nm Hm1 Hm01).
      * exact (num_negtrans _ _ _ NM HM01 HM1).
    + split; assumption.
  - destruct (blaze_min_cases (blaze_min a b) c) as [-> | ->].
    + destruct (blaze_min_cases a b) as [-> | ->].
      * exists p0. split; [in_list | reflexivity].
      * exists p1. split; [in_list | reflexivity].
    + exists p2. split; [in_list | reflexivity].
  - destruct (blaze_max_cases (blaze_max a b) c) as [-> | ->].
    + destruct (blaze_max_cases a b) as [-> | ->].
      * exists p0. split; [in_list | reflexivity].
      * exists p1. split; [in_list | reflexivity].
    + exists p2. split; [in_list | reflexivity].
Qed.

(** [std_max] and [std_min] against a third scalar *)
Lemma std_max_ltb (a b c : T) :
  num a -> (c <? std_max a b)%sc = (c <? a)%sc || (c <? b)%sc.
Proof.
  intros Na. unfold std_max. destruct (a <? b)%sc eqn:Hab.
  - destruct (c <? a)%sc eqn:Hca; [|reflexivity].
    rewrite (ltb_trans _ _ _ Hca Hab). reflexivity.
  - destruct (c <? a)%sc eqn:Hca; [reflexivity|].
    rewrite (num_negtrans _ _ _ Na Hca Hab). reflexivity.
Qed.

Lemma std_min_ltb (a b c : T) :
  num a -> (std_min a b <? c)%sc = (a <? c)%sc || (b <? c)%sc.
Proof.
  intros Na. unfold std_min. destruct (b <? a)%sc eqn:Hba.
  - destruct (a <? c)%sc eqn:Hac; [|reflexivity].
    rewrite (ltb_trans _ _ _ Hba Hac). reflexivity.
  - destruct (a <? c)%sc eqn:Hac; [reflexivity|].
    rewrite (num_negtrans _ _ _ Na Hba Hac). reflexivity.
Qed.

Lemma std_max_num (a b : T) : num a -> num b -> num (std_max a b).
Proof. intros Na Nb. unfold std_max. destruct (a <? b)%sc; assumption. Qed.

Lemma std_min_num (a b : T) : num a -> num b -> num (std_min a b).
Proof. intros Na Nb. unfold std_min. destruct (b <? a)%sc; assumption. Qed.

(** X11: the slab test.  When the two distances passed in and the entry and
    exit distances of the three axes are numbers, [intersect_node] answers
    true exactly when no lower bound of the interval (the minimum distance
    passed in, the three entry distances) lies above an upper bound (the
    maximum distance passed in, the three padded exit distances). *)
Theorem intersect_node_overlap {P : Type} (min_distance max_distance : T)
    (node : Node T P) (ray : Ray T) :
  let lows := min_distance :: (entry_distance node ray <$> [0; 1; 2]%nat) in
  let highs := max_distance :: (exit_distance node ray <$> [0; 1; 2]%nat) in
  (forall x, x ∈ lows ++ highs -> num x) ->
  fst (fst (intersect_node min_distance max_distance node ray)) = true
  <-> forall lo hi, lo ∈ lows -> hi ∈ highs -> (hi <? lo)%sc = false.
Proof.
  cbv zeta. cbn [fmap list_fmap app]. intros Hnum.
  set (e0 := entry_distance node ray 0) in *.
  set (e1 := entry_distance node ray 1) in *.
  set (e2 := entry_distance node ray 2) in *.
  set (x0 := exit_distance node ray 0) in *.
  set (x1 := exit_distance node ray 1) in *.
  set (x2 := exit_distance node ray 2) in *.
  assert (Nm : num min_distance) by (apply Hnum; in_list).
  assert (NM : num max_distance) by (apply Hnum; in_list).
  assert (Ne0 : num e0) by (apply Hnum; in_list).
  assert (Ne1 : num e1) by (apply Hnum; in_list).
  assert (Ne2 : num e2) by (apply Hnum; in_list).
  assert (Nx0 : num x0) by (apply Hnum; in_list).
  assert (Nx1 : num x1) by (apply Hnum; in_list).
  assert (Nx2 : num x2) by (apply Hnum; in_list).
  unfold intersect_node, intersect_node_axis.
  cbn [foldl fst snd]. fold e0 e1 e2 x0 x1 x2.
  rewrite num_leb
    by (repeat first [apply std_max_num | apply std_min_num]; assumption).
  rewrite !std_max_ltb, !std_min_ltb by assumption.
  rewrite negb_true_iff, !orb_false_iff.
  split.
  - intros H' lo hi Hlo Hhi.
    repeat (apply elem_of_cons in Hlo as [-> | Hlo]);
      try (apply elem_of_nil in Hlo; contradiction);
      repeat (apply elem_of_cons in Hhi as [-> | Hhi]);
      try (apply elem_of_nil in Hhi; contradiction); tauto.
  - intros H'. repeat split; apply H'; in_list.
Qed.

(** X12: the interval written back.  Under the same hypothesis the two
    distances [intersect_node] leaves in its parameters are the largest
    lower bound and the smallest upper bound: each is one of the bounds, and
    the interval only shrinks. *)
Theorem intersect_node_tightens {P : Type} (min_distance max_distance : T)
    (node : Node T P) (ray : Ray T) :
  let lows := min_distance :: (entry_distance node ray <$> [0; 1; 2]%nat) in
  let highs := max_distance :: (exit_distance node ray <$> [0; 1; 2]%nat) in
  let r := intersect_node min_distance max_distance node ray in
  (forall x, x ∈ lows ++ highs -> num x) ->
  snd (fst r) ∈ lows /\ snd r ∈ highs
  /\ (forall lo, lo ∈ lows -> (snd (fst r) <? lo)%sc = false)
  /\ (forall hi, hi ∈ highs -> (hi <? snd r)%sc = false).
Proof.
  cbv zeta. cbn [fmap list_fmap app]. intros Hnum.
  set (e0 := entry_distance node ray 0) in *.
  set (e1 := entry_distance node ray 1) in *.
  set (e2 := entry_distance node ray 2) in *.
  set (x0 := exit_distance node ray 0) in *.
  set (x1 := exit_distance node ray 1) in *.
  set (x2 := exit_distance node ray 2) in *.
  assert (Ne0 : num e0) by (apply Hnum; in_list).
  assert (Ne1 : num e1) by (apply Hnum; in_list).
  assert (Ne2 : num e2) by (apply Hnum; in_list).
  assert (Nx0 : num x0) by (apply Hnum; in_list).
  assert (Nx1 : num x1) by (apply Hnum; in_list).
  assert (Nx2 : num x2) by (apply Hnum; in_list).
  unfold intersect_node, intersect_node_axis.
  cbn [foldl fst snd]. fold e0 e1 e2 x0 x1 x2.
  split; [|split; [|split]].
  - unfold std_max. repeat case_match; in_list.
  - unfold std_min. repeat case_match; in_list.
  - intros lo Hlo.
    set (mn := std_max e2 (std_max e1 (std_max e0 min_distance))).
    assert (Hself : (mn <? mn)%sc = false) by apply ltb_irrefl.
    unfold mn at 2 in Hself.
    rewrite !std_max_ltb in Hself by assumption.
    rewrite !orb_false_iff in Hself.
    repeat (apply elem_of_cons in Hlo as [-> | Hlo]);
      try (apply elem_of_nil in Hlo; contradiction); tauto.
  - intros hi Hhi.
    set (mx := std_min x2 (std_min x1 (std_min x0 max_distance))).
    assert (Hself : (mx <? mx)%sc = false) by apply ltb_irrefl.
    unfold mx at 1 in Hself.
    rewrite !std_min_ltb in Hself by assumption.
    rewrite !orb_false_iff in Hself.
    repeat (apply elem_of_cons in Hhi as [-> | Hhi]);
      try (apply elem_of_nil in Hhi; contradiction); tauto.
Qed.

End OrderFacts.

(** ** The binning (bvh/binbuffer.h) *)

Section ListFacts.
Context {A : Type}.

Lemma sum_list_insert (f : A -> nat) (l : list A) :
  forall (i : nat) (x y : A),
    l !! i = Some x ->
    (sum_list (f <$> <[i:=y]> l) + f x = sum_list (f <$> l) + f y)%nat.
Proof.
  induction l as [|a l IH]; intros [|i] x y Hl; try discriminate; simpl in *.
  - injection Hl as ->. lia.
  - specialize (IH i x y Hl). unfold fmap, insert in *. simpl in *. lia.
Qed.

Lemma sum_list_lookup_le (f : A -> nat) (l : list A) :
  forall (i : nat) (x : A), l !! i = Some x -> (f x <= sum_list (f <$> l))%nat.
Proof.
  induction l as [|a l IH]; intros [|i] x Hl; try discriminate; simpl in *.
  - injection Hl as ->. lia.
  - specialize (IH i x Hl). unfold fmap in *. simpl in *. lia.
Qed.

End ListFacts.

Section AxisBinsFacts.
Context {T : Type} `{Scalar T}.
Variables (bs : list (Bin T)) (size : N).
Hypothesis Hlen : length bs = (3 * N.to_nat size)%nat.

Local Abbreviation n := (N.to_nat size).

Lemma axis_bins_insert_other (j j' i : nat) (y : Bin T) :
  (j * n <= i < j * n + n)%nat -> j' <> j ->
  axis_bins (<[i:=y]> bs) size j' = axis_bins bs size j'.
Proof.
  intros Hi Hj. unfold axis_bins. apply list_eq. intros k.
  destruct (decide (k < n)%nat) as [Hk|Hk].
  - rewrite !lookup_take_lt, !lookup_drop by exact Hk.
    apply list_lookup_insert_ne.
    destruct (decide (j < j')%nat); nia.
  - rewrite !lookup_take_ge by lia. reflexivity.
Qed.

Lemma axis_bins_insert_same (j idx : nat) (y : Bin T) :
  (j < 3)%nat -> (idx < n)%nat ->
  axis_bins (<[(j * n + idx)%nat:=y]> bs) size j
  = <[idx:=y]> (axis_bins bs size j).
Proof.
  intros Hj Hidx.
  assert (Hal : length (axis_bins bs size j) = n).
  { unfold axis_bins. rewrite length_take, length_drop. nia. }
  unfold axis_bins in *. apply list_eq. intros k.
  destruct (decide (k < n)%nat) as [Hk|Hk].
  - rewrite lookup_take_lt, lookup_drop by exact Hk.
    destruct (decide (k = idx)) as [->|Hne].
    + rewrite !list_lookup_insert_eq by (rewrite ?Hal; nia). reflexivity.
    + rewrite !list_lookup_insert_ne by lia.
      rewrite lookup_take_lt, lookup_drop by exact Hk. reflexivity.
  - rewrite lookup_take_ge by lia. symmetry. apply lookup_ge_None.
    rewrite length_insert, Hal. lia.
Qed.

End AxisBinsFacts.

Section BinningCounts.
Context {T : Type} `{Scalar T} {C : Type} `{Collection T C}.

(** One turn of the loop over the axes touches the bins of its own axis only,
    and there it counts the primitive once. *)
Lemma sort_axis_effect (inv_size : Vec3 T) (nc : Vec3 N) (bmin bmax : Vec3 T)
    (bins bins' : BinBuffer T) (j : nat) :
  (3 * size bins < 2 ^ 32)%N ->
  length (bin bins) = (3 * N.to_nat (size bins))%nat ->
  (j < 3)%nat ->
  sort_axis inv_size nc bmin bmax bins j = Some bins' ->
  (forall j', j' <> j ->
     axis_bins (bin bins') (size bins) j' = axis_bins (bin bins) (size bins) j')
  /\ (if (vget inv_size j >? lit 0)%sc
      then (Z.of_nat (axis_count (bin bins) (size bins) j) < 2 ^ 32 - 1)%Z ->
           axis_count (bin bins') (size bins) j
           = Datatypes.S (axis_count (bin bins) (size bins) j)
      else axis_bins (bin bins') (size bins) j
           = axis_bins (bin bins) (size bins) j).
Proof.
  intros Hsize Hlen Hj. unfold sort_axis.
  destruct (vget inv_size j >? lit 0)%sc eqn:Hinv.
  2:{ intros [= <-]. split; reflexivity. }
  set (idx := N.min _ _). unfold update_at, at_.
  destruct (bin bins !! _) as [b|] eqn:Hat; cbn [mbind option_bind]; [|discriminate].
  intros [= <-]. cbn [bin].
  pose proof (lookup_lt_Some _ _ _ Hat) as Hlt. rewrite Hlen in Hlt.
  assert (Hpos : (1 <= size bins)%N) by lia.
  assert (Hidx : (idx <= size bins - 1)%N).
  { unfold idx. rewrite u32_small by lia. lia. }
  assert (Hi : N.to_nat (u32 (Z.of_nat j * Z.of_N (size bins) + Z.of_N idx))
               = (j * N.to_nat (size bins) + N.to_nat idx)%nat).
  { rewrite u32_small by nia. nia. }
  rewrite Hi in *. split.
  - intros j' Hj'. apply (axis_bins_insert_other _ _ Hlen j); [lia|exact Hj'].
  - intros Hcount. unfold axis_count.
    rewrite (axis_bins_insert_same _ _ Hlen) by lia.
    assert (Hb : axis_bins (bin bins) (size bins) j !! N.to_nat idx = Some b).
    { unfold axis_bins. rewrite lookup_take_lt, lookup_drop by lia. exact Hat. }
    pose proof (sum_list_insert (fun b => N.to_nat (count b)) _ _ _
                  (unity (mkBin (bin_min b) (bin_max b)
                                (u32 (Z.of_N (count b) + 1)) (cost b)) bmin bmax)
                  Hb) as Hsum.
    pose proof (sum_list_lookup_le (fun b => N.to_nat (count b)) _ _ _ Hb) as Hle.
    cbn [unity count] in Hsum. unfold axis_count in Hcount.
    cbv beta in Hle. rewrite (u32_small (Z.of_N (count b) + 1)) in Hsum |- * by lia. lia.
Qed.

Lemma sort_primitive_effect (p : C) (min inv_size : Vec3 T)
    (bins bins' : BinBuffer T) (it : N) :
  (3 * size bins < 2 ^ 32)%N ->
  length (bin bins) = (3 * N.to_nat (size bins))%nat ->
  sort_primitive p min inv_size bins it = Some bins' ->
  forall j, (j < 3)%nat ->
    if (vget inv_size j >? lit 0)%sc
    then (Z.of_nat (axis_count (bin bins) (size bins) j) < 2 ^ 32 - 1)%Z ->
         axis_count (bin bins') (size bins) j
         = Datatypes.S (axis_count (bin bins) (size bins) j)
    else axis_bins (bin bins') (size bins) j
         = axis_bins (bin bins) (size bins) j.
Proof.
  intros Hsize Hlen. unfold sort_primitive.
  destruct (get_primitive_bounding_box p it) as [[bmin bmax]|];
    cbn [mbind option_bind]; [|discriminate].
  destruct (get_primitive_center p it) as [center|];
    cbn [mbind option_bind]; [|discriminate].
  set (nc := vmap s_to_N _). cbn [foldl_opt].
  destruct (sort_axis inv_size nc bmin bmax bins 0) as [b0|] eqn:E0;
    cbn [mbind option_bind]; [|discriminate].
  destruct (sort_axis inv_size nc bmin bmax b0 1) as [b1|] eqn:E1;
    cbn [mbind option_bind]; [|discriminate].
  destruct (sort_axis inv_size nc bmin bmax b1 2) as [b2|] eqn:E2;
    cbn [mbind option_bind]; [|discriminate].
  intros [= <-].
  destruct (sort_axis_shape _ _ _ _ _ _ _ E0) as [Hs0 Hl0].
  destruct (sort_axis_shape _ _ _ _ _ _ _ E1) as [Hs1 Hl1].
  apply sort_axis_effect in E0 as [Ho0 He0]; [|assumption|assumption|lia].
  apply sort_axis_effect in E1 as [Ho1 He1]; [|congruence|congruence|lia].
  apply sort_axis_effect in E2 as [Ho2 He2]; [|congruence|congruence|lia].
  rewrite ?Hs1, ?Hs0 in *.
  unfold axis_count in *.
  intros [|[|[|j]]] Hj; try lia.
  - rewrite (Ho2 0%nat), (Ho1 0%nat) by lia. exact He0.
  - rewrite (Ho2 1%nat) by lia. rewrite <- (Ho0 1%nat) by lia. exact He1.
  - rewrite <- (Ho0 2%nat), <- (Ho1 2%nat) by lia. exact He2.
Qed.

Lemma sort_loop_counts (p : C) (min inv_size : Vec3 T) (range : list N) :
  forall bins bins' : BinBuffer T,
    (3 * size bins < 2 ^ 32)%N ->
    length (bin bins) = (3 * N.to_nat (size bins))%nat ->
    foldl_opt (sort_primitive p min inv_size) bins range = Some bins' ->
    forall j, (j < 3)%nat ->
      if (vget inv_size j >? lit 0)%sc
      then (Z.of_nat (axis_count (bin bins) (size bins) j + length range) < 2 ^ 32)%Z ->
           axis_count (bin bins') (size bins) j
           = (axis_count (bin bins) (size bins) j + length range)%nat
      else axis_bins (bin bins') (size bins) j
           = axis_bins (bin bins) (size bins) j.
Proof.
  induction range as [|it range IH]; intros bins bins' Hsize Hlen Hrun j Hj.
  - injection Hrun as <-. destruct (_ <? _)%sc; [simpl; lia|reflexivity].
  - cbn [foldl_opt] in Hrun.
    destruct (sort_primitive p min inv_size bins it) as [b1|] eqn:Hstep;
      cbn [mbind option_bind] in Hrun; [|discriminate].
    destruct (sort_primitive_shape _ _ _ _ _ _ Hstep) as [Hs1 Hl1].
    pose proof (sort_primitive_effect _ _ _ _ _ _ Hsize Hlen Hstep j Hj) as He.
    specialize (IH b1 bins' ltac:(congruence) ltac:(congruence) Hrun j Hj).
    rewrite Hs1 in IH.
    destruct (_ <? _)%sc.
    + cbn [length]. intros Hc. rewrite IH, He; lia.
    + congruence.
Qed.

Lemma axis_bins_new (size : N) (j : nat) :
  (3 * size < 2 ^ 32)%N -> (j < 3)%nat ->
  axis_bins (bin (BinBuffer_new size)) size j
  = replicate (N.to_nat size) Bin_default.
Proof.
  intros Hsize Hj. unfold BinBuffer_new, vector_resize, axis_bins. cbn [bin].
  rewrite resize_nil, u32_small by lia.
  rewrite drop_replicate, take_replicate. f_equal.
  destruct j as [|[|[|j]]]; lia.
Qed.

(** X13: the counts of the binning.  On every axis along which the box has
    an extent (the inverse of the extent is positive) the bins of the axis
    together count every primitive of the range exactly once; on every other
    axis the bins are left as they were built, empty.  The range is taken
    shorter than 2^32, the bound of the counters. *)
Theorem sort_collection_into_bins_counts (p : C) (range : list N)
    (min max : Vec3 T) (bin_size : N) (bins : BinBuffer T) :
  (3 * bin_size < 2 ^ 32)%N ->
  (Z.of_nat (length range) < 2 ^ 32)%Z ->
  sort_collection_into_bins p range min max bin_size = Some bins ->
  forall j, (j < 3)%nat ->
    if (vget (inv_size_of (vsub max min)) j >? lit 0)%sc
    then axis_count (bin bins) bin_size j = length range
    else axis_bins (bin bins) bin_size j
         = replicate (N.to_nat bin_size) Bin_default.
Proof.
  intros Hsize Hrange Hsort j Hj. unfold sort_collection_into_bins in Hsort.
  assert (Hlen : length (bin (BinBuffer_new (T := T) bin_size))
                 = (3 * N.to_nat bin_size)%nat).
  { unfold BinBuffer_new, vector_resize. cbn [bin].
    rewrite resize_nil, length_replicate, u32_small by lia. lia. }
  pose proof (sort_loop_counts p min _ range (BinBuffer_new bin_size) bins
                Hsize Hlen Hsort j Hj) as Hc.
  cbn [size BinBuffer_new] in Hc.
  rewrite (axis_bins_new bin_size j Hsize Hj) in Hc.
  unfold axis_count in Hc. rewrite (axis_bins_new bin_size j Hsize Hj) in Hc.
  destruct (_ <? _)%sc; [|exact Hc].
  rewrite fmap_replicate, sum_list_replicate in Hc. cbn [count Bin_default] in Hc.
  unfold axis_count. rewrite Hc; [simpl; lia|]. simpl. lia.
Qed.

Lemma sort_axis_succeeds (inv_size : Vec3 T) (nc : Vec3 N) (bmin bmax : Vec3 T)
    (bins : BinBuffer T) (j : nat) :
  (1 <= size bins)%N ->
  (3 * size bins < 2 ^ 32)%N ->
  length (bin bins) = (3 * N.to_nat (size bins))%nat ->
  (j < 3)%nat ->
  is_Some (sort_axis inv_size nc bmin bmax bins j).
Proof.
  intros Hpos Hsize Hlen Hj. unfold sort_axis.
  destruct (_ <? _)%sc; [|eexists; reflexivity].
  set (idx := N.min _ _).
  assert (Hidx : (idx <= size bins - 1)%N).
  { unfold idx. rewrite u32_small by lia. lia. }
  unfold update_at, at_.
  destruct (bin bins !! _) as [b|] eqn:Hat; cbn [mbind option_bind];
    [eexists; reflexivity|].
  apply lookup_ge_None in Hat. rewrite u32_small in Hat by nia. nia.
Qed.

Lemma sort_primitive_succeeds (p : C) (min inv_size : Vec3 T)
    (bins : BinBuffer T) (it : N) :
  (1 <= size bins)%N ->
  (3 * size bins < 2 ^ 32)%N ->
  length (bin bins) = (3 * N.to_nat (size bins))%nat ->
  is_Some (get_primitive_bounding_box p it) ->
  is_Some (get_primitive_center p it) ->
  is_Some (sort_primitive p min inv_size bins it).
Proof.
  intros Hpos Hsize Hlen [[bmin bmax] Hb] [center Hc]. unfold sort_primitive.
  rewrite Hb, Hc. cbn [mbind option_bind]. set (nc := vmap s_to_N _).
  cbn [foldl_opt].
  destruct (sort_axis_succeeds inv_size nc bmin bmax bins 0 Hpos Hsize Hlen
              ltac:(lia)) as [b0 E0].
  rewrite E0. cbn [mbind option_bind].
  destruct (sort_axis_shape _ _ _ _ _ _ _ E0) as [Hs0 Hl0].
  destruct (sort_axis_succeeds inv_size nc bmin bmax b0 1 ltac:(congruence)
              ltac:(congruence) ltac:(congruence) ltac:(lia)) as [b1 E1].
  rewrite E1. cbn [mbind option_bind].
  destruct (sort_axis_shape _ _ _ _ _ _ _ E1) as [Hs1 Hl1].
  destruct (sort_axis_succeeds inv_size nc bmin bmax b1 2 ltac:(congruence)
              ltac:(congruence) ltac:(congruence) ltac:(lia)) as [b2 E2].
  rewrite E2. cbn [mbind option_bind]. eexists; reflexivity.
Qed.

Lemma sort_loop_succeeds (p : C) (min inv_size : Vec3 T) (range : list N) :
  forall bins : BinBuffer T,
    (1 <= size bins)%N ->
    (3 * size bins < 2 ^ 32)%N ->
    length (bin bins) = (3 * N.to_nat (size bins))%nat ->
    (forall it, it ∈ range ->
       is_Some (get_primitive_bounding_box p it)
       /\ is_Some (get_primitive_center p it)) ->
    is_Some (foldl_opt (sort_primitive p min inv_size) bins range).
Proof.
  induction range as [|it range IH]; intros bins Hpos Hsize Hlen Hp.
  - eexists; reflexivity.
  - cbn [foldl_opt].
    destruct (Hp it ltac:(apply list_elem_of_here)) as [Hb Hc].
    destruct (sort_primitive_succeeds p min inv_size bins it Hpos Hsize Hlen Hb Hc)
      as [b1 E1].
    rewrite E1. cbn [mbind option_bind].
    destruct (sort_primitive_shape _ _ _ _ _ _ E1) as [Hs1 Hl1].
    apply IH; try congruence.
    intros it' Hit'. apply Hp. apply list_elem_of_further, Hit'.
Qed.

Lemma sort_collection_into_bins_succeeds (p : C) (range : list N)
    (min max : Vec3 T) (bin_size : N) :
  (1 <= bin_size)%N ->
  (3 * bin_size < 2 ^ 32)%N ->
  (forall it, it ∈ range ->
     is_Some (get_primitive_bounding_box p it)
     /\ is_Some (get_primitive_center p it)) ->
  is_Some (sort_collection_into_bins p range min max bin_size).
Proof.
  intros Hpos Hsize Hp. unfold sort_collection_into_bins.
  apply (sort_loop_succeeds p min _ range (BinBuffer_new bin_size));
    try assumption.
  unfold BinBuffer_new, vector_resize. cbn [bin size].
  rewrite resize_nil, length_replicate, u32_small by lia. lia.
Qed.

(** X14: the binning stays inside the buffer.  With at least one bin per
    axis (and three times the number of bins below 2^32) the binning of a
    range of primitives that the collection holds writes inside the buffer
    only, whatever the centres of the primitives, the box and the scalars
    are: the index of the bin is clamped.  With no bin at all the first
    primitive is written outside the (empty) buffer as soon as the box has
    an extent along one axis. *)
Theorem sort_collection_into_bins_in_bounds (p : C) (range : list N)
    (min max : Vec3 T) (bin_size : N) :
  (3 * bin_size < 2 ^ 32)%N ->
  (forall it, it ∈ range ->
     is_Some (get_primitive_bounding_box p it)
     /\ is_Some (get_primitive_center p it)) ->
  ((1 <= bin_size)%N ->
   is_Some (sort_collection_into_bins p range min max bin_size))
  /\ (bin_size = 0%N -> range <> [] ->
      (exists j, (j < 3)%nat
         /\ (vget (inv_size_of (vsub max min)) j >? lit 0)%sc = true) ->
      sort_collection_into_bins p range min max bin_size = None).
Proof.
  intros Hsize Hp.
  assert (Hlen : length (bin (BinBuffer_new (T := T) bin_size))
                 = (3 * N.to_nat bin_size)%nat).
  { unfold BinBuffer_new, vector_resize. cbn [bin].
    rewrite resize_nil, length_replicate, u32_small by lia. lia. }
  split.
  - intros Hpos. apply sort_collection_into_bins_succeeds; assumption.
  - intros -> Hne (j & Hj & Hinv). unfold sort_collection_into_bins.
    destruct range as [|it range]; [contradiction|]. cbn [foldl_opt].
    destruct (sort_primitive _ _ _ _ it) as [b1|] eqn:E1; [|reflexivity].
    exfalso. revert E1. unfold sort_primitive.
    destruct (Hp it ltac:(apply list_elem_of_here)) as [[[bmin bmax] ->] [c ->]].
    cbn [mbind option_bind]. set (nc := vmap s_to_N _).
    assert (Hfail : forall (bins : BinBuffer T) j,
              bin bins = [] ->
              (vget (inv_size_of (vsub max min)) j >? lit 0)%sc = true ->
              sort_axis (inv_size_of (vsub max min)) nc bmin bmax bins j = None).
    { intros bins j' Hnil Hinv'. unfold sort_axis. rewrite Hinv'.
      unfold update_at, at_. rewrite Hnil. reflexivity. }
    assert (Hkeep : forall (bins bins' : BinBuffer T) j,
              bin bins = [] ->
              sort_axis (inv_size_of (vsub max min)) nc bmin bmax bins j
              = Some bins' -> bin bins' = []).
    { intros bins bins' j' Hnil Hs. apply sort_axis_shape in Hs as [_ Hl].
      rewrite Hnil in Hl. destruct (bin bins'); [reflexivity|discriminate]. }
    cbn [foldl_opt].
    destruct (sort_axis _ nc bmin bmax (BinBuffer_new 0) 0) as [b0|] eqn:E0;
      cbn [mbind option_bind]; [|discriminate].
    pose proof (Hkeep (BinBuffer_new 0) _ _ eq_refl E0) as Hn0.
    destruct (sort_axis _ nc bmin bmax b0 1) as [b1'|] eqn:E1';
      cbn [mbind option_bind]; [|discriminate].
    pose proof (Hkeep _ _ _ Hn0 E1') as Hn1.
    destruct (sort_axis _ nc bmin bmax b1' 2) as [b2|] eqn:E2;
      cbn [mbind option_bind]; [|discriminate].
    destruct j as [|[|[|j]]]; try lia.
    + rewrite (Hfail (BinBuffer_new 0) _ eq_refl Hinv) in E0. discriminate.
    + rewrite (Hfail _ _ Hn0 Hinv) in E1'. discriminate.
    + rewrite (Hfail _ _ Hn1 Hinv) in E2. discriminate.
Qed.

End BinningCounts.

(** ** The search of the split, whatever the costs *)

Section SplitFacts.
Context {T : Type} `{Scalar T}.

(** the position the search returns is the one it started with or one of
    the positions it looked at *)
Lemma scan_position (l : list (Bin T)) (ps : list nat) :
  forall st : T * N,
    let r := foldl (scan_step l) st ps in
    snd r = snd st \/ exists i, i ∈ ps /\ snd r = N.of_nat i.
Proof.
  induction ps as [|i ps IH]; intros st; cbn [foldl].
  - left. reflexivity.
  - destruct (IH (scan_step l st i)) as [Hr | (i' & Hi' & Hr)].
    + rewrite Hr. unfold scan_step. destruct (_ <? _)%sc; cbn [snd].
      * right. exists i. split; [apply list_elem_of_here|reflexivity].
      * left. reflexivity.
    + right. exists i'. split; [apply list_elem_of_further, Hi'|exact Hr].
Qed.

Lemma scan_position_seq (l : list (Bin T)) (n : nat) (c : T) :
  let r := foldl (scan_step l) (c, 1%N) (seq 1 (n - 1)) in
  (1 <= snd r <= N.max 1 (N.of_nat n - 1))%N.
Proof.
  cbv zeta. destruct (scan_position l (seq 1 (n - 1)) (c, 1%N))
    as [-> | (i & Hi & ->)]; cbn [snd]; [lia|].
  apply elem_of_seq in Hi. lia.
Qed.

Lemma min_cost_axis_of_lt (min_cost : Vec3 T) : (min_cost_axis_of min_cost < 3)%nat.
Proof. unfold min_cost_axis_of. repeat case_match; lia. Qed.

Context {C : Type} `{Collection T C}.

(** X15: the search returns.  With at least one bin per axis, a range of
    primitives that the collection holds and any box, [find_best_split_binned]
    returns an axis below 3 and three cut positions, each
    [minBin * ((max[a] - min[a]) / bin_size) + min[a]] for a position [minBin]
    from 1 to [bin_size - 1] (1 when there is one bin); nothing is assumed of
    the costs, which may be infinite or not numbers.  With one bin per axis no
    split is looked at: the axis is 0 and every [minBin] is 1, so that the
    cut lies at the far side of the box. *)
Theorem find_best_split_binned_returns (HO : ScalarOrder T) (collection : C)
    (range : list N) (min max : Vec3 T) (bin_size : N) :
  (1 <= bin_size)%N ->
  (3 * bin_size < 2 ^ 32)%N ->
  (forall it, it ∈ range ->
     is_Some (get_primitive_bounding_box collection it)
     /\ is_Some (get_primitive_center collection it)) ->
  exists (best_axis : nat) (cut_pos : Vec3 T) (minBin : Vec3 N),
    find_best_split_binned collection range min max bin_size
    = Some (best_axis, cut_pos)
    /\ (best_axis < 3)%nat
    /\ (forall j, (j < 3)%nat ->
          (1 <= vget minBin j <= N.max 1 (bin_size - 1))%N
          /\ vget cut_pos j
             = (lit (vget minBin j)
                * ((vget max j - vget min j) / lit bin_size) + vget min j)%sc)
    /\ (bin_size = 1%N ->
        best_axis = 0%nat /\ minBin = mkVec3 1%N 1%N 1%N).
Proof.
  intros Hpos Hsize Hp.
  destruct (sort_collection_into_bins_succeeds collection range min max
              bin_size Hpos Hsize Hp) as [bins Hsort].
  destruct (sort_collection_into_bins_shape _ _ _ _ _ _ Hsort) as [Hs Hlen].
  rewrite u32_small in Hlen by lia.
  assert (Hlen' : length (bin bins) = (3 * N.to_nat bin_size)%nat) by lia.
  assert (Hn : (1 <= N.to_nat bin_size)%nat) by lia.
  unfold find_best_split_binned. rewrite Hsort. cbn [mbind option_bind].
  unfold find_best_split. rewrite Hs.
  destruct (split_axis_spec (bin bins) bin_size 0 ltac:(lia) Hsize Hlen'
              (bin bins) min max Hn eq_refl) as (b0 & -> & Hg0).
  cbn [mbind option_bind].
  destruct (split_axis_spec (bin bins) bin_size 1 ltac:(lia) Hsize Hlen'
              b0 min max Hn Hg0) as (b1 & -> & Hg1).
  cbn [mbind option_bind].
  destruct (split_axis_spec (bin bins) bin_size 2 ltac:(lia) Hsize Hlen'
              b1 min max Hn Hg1) as (b2 & -> & Hg2).
  cbn [mbind option_bind].
  pose proof (fun j => scan_position_seq (axis_bins (bin bins) bin_size j)
                         (N.to_nat bin_size) s_max) as Hr.
  cbv zeta in Hr. rewrite N2Nat.id in Hr.
  eexists _, _, (mkVec3 _ _ _). split; [reflexivity|].
  split; [apply min_cost_axis_of_lt|]. split.
  - intros [|[|[|j]]] Hj; try lia; cbn [vget vx vy vz];
      (split; [apply Hr|reflexivity]).
  - intros ->. change (N.to_nat 1 - 1)%nat with 0%nat. cbn [seq foldl fst snd].
    split; [|reflexivity].
    unfold min_cost_axis_of. cbn [vget vx vy vz]. rewrite ltb_irrefl. cbn [vget vx].
    rewrite ltb_irrefl. reflexivity.
Qed.

End SplitFacts.

(** ** The properties on the data of the scenarios *)

(** The committed scene of scenario S4 refuses a mesh and further spheres. *)
Lemma committed_scene_is_frozen_S4 :
  BlazertScene.has_been_committed Scenario.scene_S4 = true
  /\ fst (SceneOps.run Scenario.scene_S4 Examples.late_calls)
     = [u32 (-1); u32 (-1)]
  /\ SceneOps.registered (fst (SceneOps.run Scenario.scene_S4 Examples.late_calls))
     = []
  /\ BlazertScene.has_triangles
       (snd (SceneOps.run Scenario.scene_S4 Examples.late_calls)) = false.
Proof.
  split; [reflexivity|]. split; [reflexivity|].
  destruct (committed_scene_is_frozen Scenario.scene_S4 Examples.late_calls
              eq_refl) as (_ & Hreg & Htri & _).
  split; [exact Hreg|exact Htri].
Defined.

(** Scenario S1: the hit at distance 1 within the window from 0 to 10. *)
Lemma Intersect_outcome_S1 :
  TriangleIntersector.Intersect (Examples.start_d Scenario.faces1) 10%float 0
  = Some (true, 1%float,
          TriangleIntersector.set_uv (0.25%float, 0.25%float)
            (Examples.start_d Scenario.faces1))
  /\ (10 <? 1)%float = false
  /\ (1 <? TriangleIntersector.t_min_ (Examples.start_d Scenario.faces1))%float
     = false.
Proof.
  assert (Hi : TriangleIntersector.Intersect (Examples.start_d Scenario.faces1)
                 10%float 0
               = Some (true, 1%float,
                       TriangleIntersector.set_uv (0.25%float, 0.25%float)
                         (Examples.start_d Scenario.faces1)))
    by (vm_compute; reflexivity).
  split; [exact Hi|].
  destruct (proj2 (Intersect_outcome _ _ _ _ _ _ Hi) eq_refl)
    as (_ & Hgt & Hlt & _).
  split; [exact Hgt|exact Hlt].
Defined.

(** Scenario S1: the intersector that has recorded primitive 0 answers as the
    intersector at the start of the traversal does. *)
Lemma Intersect_reads_the_query_only_S1 :
  TriangleIntersector.same_query (Examples.start_d Scenario.faces1)
    (Examples.recorded_d Scenario.faces1 0)
  /\ TriangleIntersector.Intersect (Examples.recorded_d Scenario.faces1 0)
       10%float 0
     = (fun r : bool * float * TriangleIntersector.t float =>
          (fst (fst r), snd (fst r),
           if fst (fst r)
           then TriangleIntersector.set_uv (TriangleIntersector.uv_ (snd r))
                  (Examples.recorded_d Scenario.faces1 0)
           else Examples.recorded_d Scenario.faces1 0))
       <$> TriangleIntersector.Intersect (Examples.start_d Scenario.faces1)
             10%float 0.
Proof.
  assert (Hs : TriangleIntersector.same_query (Examples.start_d Scenario.faces1)
                 (Examples.recorded_d Scenario.faces1 0))
    by (repeat split).
  split; [exact Hs|].
  exact (Intersect_reads_the_query_only _ _ 10%float 0%N Hs).
Defined.

(** The leaf of the two coincident triangles, in closest-hit mode: the loop
    reports a hit at distance 1, the distance of both candidates. *)
Lemma intersect_leaf_closest_leaf_01 :
  intersect_leaf intersect_primitive_triangle Scenario.leaf_01
    (Examples.start_d Scenario.faces2) Scenario.ray_S1_d
  = Some (true, Examples.recorded_d Scenario.faces2 1)
  /\ hittable (Examples.start_d Scenario.faces2) 1 1%float
  /\ forall p d, p ∈ primitives Scenario.leaf_01 ->
       hittable (Examples.start_d Scenario.faces2) p d -> (d <? 1)%float = false.
Proof.
  assert (Hleaf : intersect_leaf intersect_primitive_triangle Scenario.leaf_01
                    (Examples.start_d Scenario.faces2) Scenario.ray_S1_d
                  = Some (true, Examples.recorded_d Scenario.faces2 1))
    by (vm_compute; reflexivity).
  assert (Hcand : forall p, p ∈ primitives Scenario.leaf_01 ->
            hittable (Examples.start_d Scenario.faces2) p 1%float).
  { intros p Hp. simpl in Hp.
    apply elem_of_cons in Hp as [-> | Hp];
      [|apply elem_of_cons in Hp as [-> | Hp];
        [|apply elem_of_nil in Hp; contradiction]];
      exists 10%float; eexists; vm_compute; reflexivity. }
  destruct (intersect_leaf_closest (HO := ScalarOrder_double)
              (HT := ScalarTotal_double) Scenario.leaf_01
              (Examples.start_d Scenario.faces2)
              (Examples.recorded_d Scenario.faces2 1) Scenario.ray_S1_d true)
    as (Hlow & _ & Hhit & _).
  - reflexivity.
  - vm_compute. reflexivity.
  - intros p d Hp Hd.
    rewrite (hittable_unique _ p d 1%float Hd (Hcand p Hp)).
    vm_compute. reflexivity.
  - exact Hleaf.
  - split; [exact Hleaf|]. split; [exact (proj2 (Hhit eq_refl))|exact Hlow].
Defined.

(** The same leaf in any-hit mode: the loop stops at primitive 0 and never
    tests primitive 1, which closest-hit mode records. *)
Lemma intersect_leaf_modes_leaf_01 :
  intersect_leaf intersect_primitive_triangle Scenario.leaf_01
    (Examples.start_d Scenario.faces2) Examples.ray_S1_any
  = Some (true, Examples.recorded_d Scenario.faces2 0).
Proof.
  apply (proj1 (intersect_leaf_modes intersect_primitive_triangle
                  Examples.ray_S1_any [] [1%N]
                  (Examples.start_d Scenario.faces2)) eq_refl 0%N
               (Examples.start_d Scenario.faces2)
               (Examples.recorded_d Scenario.faces2 0) (vconst 0%float)
               (vconst 1%float)).
  - reflexivity.
  - vm_compute. reflexivity.
Defined.

(** The ray of scenario S2 runs along -z: the third axis is chosen and the
    two others are swapped. *)
Lemma PrepareTraversal_axes_S2 :
  TriangleIntersector.k
    (TriangleIntersector.ray_coeff_
       (TriangleIntersector.PrepareTraversal Scenario.ray_S2_d
          (Scenario.options false) (Scenario.intersector_d Scenario.faces1)))
  = mkVec3 1%nat 0%nat 2%nat
  /\ forall i, (i < 3)%nat ->
       (s_abs (vget (dir Scenario.ray_S2_d) 2)
        <? s_abs (vget (dir Scenario.ray_S2_d) i))%sc = false.
Proof.
  split; [vm_compute; reflexivity|].
  exact (proj1 (proj2 (PrepareTraversal_axes (HO := ScalarOrder_double)
                         Scenario.ray_S2_d (Scenario.options false)
                         (Scenario.intersector_d Scenario.faces1)))).
Defined.

(** The box of the triangle of scenario S1. *)
Lemma BoundingBox_encloses_S1 :
  BoundingBox Examples.mesh_d 0 = Some (mkVec3 0 0 1, mkVec3 1 1 1)%float
  /\ exists (face : Vec3 N) (p0 p1 p2 : Vec3 float),
       at_ (faces Examples.mesh_d) 0 = Some face
       /\ at_ (vertices Examples.mesh_d) (vget face 0) = Some p0
       /\ at_ (vertices Examples.mesh_d) (vget face 1) = Some p1
       /\ at_ (vertices Examples.mesh_d) (vget face 2) = Some p2
       /\ forall k : nat,
            num (vget p0 k) -> num (vget p1 k) -> num (vget p2 k) ->
            (forall v, v ∈ [p0; p1; p2] ->
               (vget v k <? vget (mkVec3 0 0 1)%float k)%sc = false
               /\ (vget (mkVec3 1 1 1)%float k <? vget v k)%sc = false)
            /\ (exists v, v ∈ [p0; p1; p2]
                  /\ vget (mkVec3 0 0 1)%float k = vget v k)
            /\ (exists v, v ∈ [p0; p1; p2]
                  /\ vget (mkVec3 1 1 1)%float k = vget v k).
Proof.
  assert (Hb : BoundingBox Examples.mesh_d 0
               = Some (mkVec3 0 0 1, mkVec3 1 1 1)%float)
    by (vm_compute; reflexivity).
  split; [exact Hb|].
  exact (BoundingBox_encloses (HO := ScalarOrder_double)
           (HT := ScalarTotal_double) Examples.mesh_d 0%N _ _ Hb).
Defined.

Ltac num_list H :=
  repeat (apply elem_of_cons in H as [-> | H]; [vm_compute; reflexivity|]);
  apply elem_of_nil in H; contradiction.

(** The diagonal ray crosses the box from (1,1,1) to (2,2,2): every entry
    distance is 1 and every exit distance a little above 2. *)
Lemma intersect_node_overlap_B :
  fst (fst (intersect_node 0%float 10%float Scenario.node_B Scenario.ray_diag))
  = true
  /\ forall lo hi,
       lo ∈ 0%float :: (entry_distance Scenario.node_B Scenario.ray_diag
                         <$> [0; 1; 2]%nat) ->
       hi ∈ 10%float :: (exit_distance Scenario.node_B Scenario.ray_diag
                          <$> [0; 1; 2]%nat) ->
       (hi <? lo)%sc = false.
Proof.
  assert (Hn : fst (fst (intersect_node 0%float 10%float Scenario.node_B
                           Scenario.ray_diag)) = true)
    by (vm_compute; reflexivity).
  split; [exact Hn|].
  apply (intersect_node_overlap (HO := ScalarOrder_double)
           (HT := ScalarTotal_double) 0%float 10%float Scenario.node_B
           Scenario.ray_diag); [|exact Hn].
  intros x Hx. cbn [fmap list_fmap app] in Hx. num_list Hx.
Defined.

(** On the same box the interval from 0 to 10 shrinks to the interval from
    the entry distance 1 to the padded exit distance. *)
Lemma intersect_node_tightens_B :
  snd (fst (intersect_node 0%float 10%float Scenario.node_B Scenario.ray_diag))
  = 1%float
  /\ snd (fst (intersect_node 0%float 10%float Scenario.node_B Scenario.ray_diag))
     ∈ 0%float :: (entry_distance Scenario.node_B Scenario.ray_diag
                    <$> [0; 1; 2]%nat)
  /\ snd (intersect_node 0%float 10%float Scenario.node_B Scenario.ray_diag)
     ∈ 10%float :: (exit_distance Scenario.node_B Scenario.ray_diag
                     <$> [0; 1; 2]%nat).
Proof.
  split; [vm_compute; reflexivity|].
  destruct (intersect_node_tightens (HO := ScalarOrder_double)
              (HT := ScalarTotal_double) 0%float 10%float Scenario.node_B
              Scenario.ray_diag) as (Hlo & Hhi & _).
  - intros x Hx. cbn [fmap list_fmap app] in Hx. num_list Hx.
  - split; [exact Hlo|exact Hhi].
Defined.

(** The four unit boxes in a row: every axis of the box from (0,0,0) to
    (4,1,1) has an extent, and the four bins of each axis count the four
    primitives. *)
Lemma sort_collection_into_bins_counts_boxes :
  sort_collection_into_bins Scenario.boxes_d [0; 1; 2; 3]%N
    (mkVec3 0 0 0)%float (mkVec3 4 1 1)%float 4%N = Some Scenario.binned_d
  /\ axis_count (bin Scenario.binned_d) 4 0 = 4%nat
  /\ axis_count (bin Scenario.binned_d) 4 1 = 4%nat
  /\ axis_count (bin Scenario.binned_d) 4 2 = 4%nat.
Proof.
  assert (Hsort : sort_collection_into_bins Scenario.boxes_d [0; 1; 2; 3]%N
                    (mkVec3 0 0 0)%float (mkVec3 4 1 1)%float 4%N
                  = Some Scenario.binned_d)
    by (vm_compute; reflexivity).
  pose proof (sort_collection_into_bins_counts Scenario.boxes_d [0; 1; 2; 3]%N
                (mkVec3 0 0 0)%float (mkVec3 4 1 1)%float 4%N Scenario.binned_d
                ltac:(lia) ltac:(simpl; lia) Hsort) as Hc.
  split; [exact Hsort|].
  split; [exact (Hc 0%nat ltac:(lia))|].
  split; [exact (Hc 1%nat ltac:(lia))|exact (Hc 2%nat ltac:(lia))].
Defined.

Ltac held H :=
  repeat (apply elem_of_cons in H as [-> | H];
          [split; eexists; reflexivity|]);
  apply elem_of_nil in H; contradiction.

(** The four unit boxes are binned inside the buffer of four bins per axis. *)
Lemma sort_collection_into_bins_in_bounds_boxes :
  is_Some (sort_collection_into_bins Scenario.boxes_d [0; 1; 2; 3]%N
             (mkVec3 0 0 0)%float (mkVec3 4 1 1)%float 4%N).
Proof.
  apply (proj1 (sort_collection_into_bins_in_bounds Scenario.boxes_d
                  [0; 1; 2; 3]%N (mkVec3 0 0 0)%float (mkVec3 4 1 1)%float 4%N
                  ltac:(lia) ltac:(intros it Hit; held Hit))).
  lia.
Defined.

(** One bin per axis on the four unit boxes: axis 0, and the cut of the first
    axis at 4, the far side of the box. *)
Lemma find_best_split_binned_returns_one_bin :
  exists (best_axis : nat) (cut_pos : Vec3 float) (minBin : Vec3 N),
    find_best_split_binned Scenario.boxes_d [0; 1; 2; 3]%N
      (mkVec3 0 0 0)%float (mkVec3 4 1 1)%float 1%N
    = Some (best_axis, cut_pos)
    /\ (best_axis < 3)%nat
    /\ (forall j, (j < 3)%nat ->
          (1 <= vget minBin j <= N.max 1 (1 - 1))%N
          /\ vget cut_pos j
             = (lit (vget minBin j)
                * ((vget (mkVec3 4 1 1)%float j - vget (mkVec3 0 0 0)%float j)
                   / lit 1) + vget (mkVec3 0 0 0)%float j)%sc)
    /\ (1%N = 1%N -> best_axis = 0%nat /\ minBin = mkVec3 1%N 1%N 1%N).
Proof.
  apply (find_best_split_binned_returns ScalarOrder_double Scenario.boxes_d
           [0; 1; 2; 3]%N (mkVec3 0 0 0)%float (mkVec3 4 1 1)%float 1%N).
  - lia.
  - lia.
  - intros it Hit. held Hit.
Defined.
